(** * The npad MIPS interpreter: program loader and execution engine

    A shallow embedding of the assembly interpreter of the editor
    (parseMipsNumber, parseMipsProgram, initializeMipsMachine,
    readMipsRegister, writeMipsRegister, parseMipsAddressOperand,
    stepMipsMachine, runMipsMachineToEnd), with the properties of its
    specification stated and proved over the embedding.

    Modelling conventions.
    - A JavaScript string is a [string]: a sequence of code units below 256.
    - A JavaScript number that the engine stores (register, memory word, pc,
      step counter, address) is a [Z]; every such value is integral and, for
      the register file and the memory, within 32 bits in every reachable
      state, where [Z] arithmetic and double arithmetic agree.
      Numbers supplied by the caller are arbitrary doubles, see [JsNumber].
    - [Record<string, number>] and [Map] are [gmap]s; the objects are copied
      before each step of the engine, so a state is a plain value.
    - A regular expression is a term of [Regex.regex], run by a backtracking
      matcher with the greedy, leftmost semantics of the source's engine. *)

From Stdlib Require Import ZArith Ascii String List Bool Lia.
From stdpp Require Import base gmap strings list pretty.

Local Open Scope string_scope.
Local Open Scope Z_scope.

(** ** JavaScript strings *)

Module Js.

Definition code (c : ascii) : N := N_of_ascii c.

Definition inRange (lo hi : ascii) (c : ascii) : bool :=
  (code lo <=? code c)%N && (code c <=? code hi)%N.

Definition isChar (x : ascii) (c : ascii) : bool := (code x =? code c)%N.

(** WhiteSpace and LineTerminator code units below 256: TAB, LF, VT, FF, CR,
    SP and NBSP. Both [\s] and [String.prototype.trim] use this set. *)
Definition isWhiteSpace (c : ascii) : bool :=
  let n := code c in
  ((9 <=? n) && (n <=? 13) || (n =? 32) || (n =? 160))%N.

(** LineTerminator code units below 256: the ones [.] does not match. *)
Definition isLineTerminator (c : ascii) : bool :=
  let n := code c in ((n =? 10) || (n =? 13))%N.

Definition isDigit : ascii -> bool := inRange "0" "9".
Definition isUpper : ascii -> bool := inRange "A" "Z".
Definition isLower : ascii -> bool := inRange "a" "z".
Definition isLetter (c : ascii) : bool := isUpper c || isLower c.

(** [\w] *)
Definition isWord (c : ascii) : bool := isLetter c || isDigit c || isChar "_" c.

Definition toLowerChar (c : ascii) : ascii :=
  let n := code c in
  if isUpper c || ((192 <=? n) && (n <=? 222) && negb (n =? 215))%N
  then ascii_of_N (n + 32) else c.

Definition toUpperAscii (c : ascii) : ascii :=
  if isLower c then ascii_of_N (code c - 32) else c.

(** Matching of a pattern character under the [i] flag, for the ASCII
    pattern characters the source uses. *)
Definition isCharI (x : ascii) (c : ascii) : bool :=
  isChar (toUpperAscii x) (toUpperAscii c).

Fixpoint toLowerCase (s : string) : string :=
  match s with
  | EmptyString => EmptyString
  | String c s' => String (toLowerChar c) (toLowerCase s')
  end.

Fixpoint trimStart (s : string) : string :=
  match s with
  | String c s' => if isWhiteSpace c then trimStart s' else s
  | EmptyString => EmptyString
  end.

(** [trimEnd] keeps a character when it is not white space or when something
    is kept after it. *)
Fixpoint trimEnd (s : string) : string :=
  match s with
  | EmptyString => EmptyString
  | String c s' =>
      match trimEnd s' with
      | EmptyString => if isWhiteSpace c then EmptyString else String c EmptyString
      | t => String c t
      end
  end.

Definition trim (s : string) : string := trimEnd (trimStart s).

(** [s.split(sep)] for a one-character separator. *)
Fixpoint split (sep : ascii) (s : string) : list string :=
  match s with
  | EmptyString => [EmptyString]
  | String c s' =>
      if isChar sep c then EmptyString :: split sep s'
      else match split sep s' with
           | piece :: rest => String c piece :: rest
           | [] => [String c EmptyString]
           end
  end.

Definition isEmpty (s : string) : bool :=
  match s with EmptyString => true | _ => false end.

(** [String.fromCharCode(n)] for [0 <= n < 256]. *)
Definition fromCharCode (n : Z) : string :=
  String (ascii_of_N (Z.to_N n)) EmptyString.

(** [s.length] *)
Definition length (s : string) : Z := Z.of_nat (String.length s).

End Js.

(** ** Regular expressions *)

Module Regex.

Inductive regex : Type :=
| Chr (p : ascii -> bool)          (* one character of a class *)
| Star (p : ascii -> bool)         (* greedy repetition of a class *)
| Seq (r1 r2 : regex)
| Alt (r1 r2 : regex)
| Group (i : nat) (r : regex)      (* the i-th capturing group *)
| Bol                              (* ^ *)
| Eol                              (* $ *)
| WordBoundary                     (* \b *)
| Eps.

Definition Plus (p : ascii -> bool) : regex := Seq (Chr p) (Star p).
Definition Opt (r : regex) : regex := Alt r Eps.

(** A literal, case-sensitive or under the [i] flag. *)
Fixpoint Lit (s : string) : regex :=
  match s with
  | EmptyString => Eps
  | String c s' => Seq (Chr (Js.isChar c)) (Lit s')
  end.

Fixpoint LitI (s : string) : regex :=
  match s with
  | EmptyString => Eps
  | String c s' => Seq (Chr (Js.isCharI c)) (LitI s')
  end.

Definition captures : Type := list (nat * string).

(** The text between two positions of the same input. *)
Definition consumed (s rest : string) : string :=
  String.substring 0 (String.length s - String.length rest) s.

Section Matcher.
Context {R : Type}.

Fixpoint star (p : ascii -> bool) (prev : option ascii) (s : string)
    (k : option ascii -> string -> option R) : option R :=
  match s with
  | String c s' =>
      if p c then
        match star p (Some c) s' k with
        | Some r => Some r
        | None => k prev s
        end
      else k prev s
  | EmptyString => k prev s
  end.

Definition wordAt (c : option ascii) : bool :=
  match c with Some c => Js.isWord c | None => false end.

Definition headOf (s : string) : option ascii :=
  match s with String c _ => Some c | EmptyString => None end.

(** [run r prev s caps k]: match [r] at the position whose previous
    character is [prev] and whose remaining input is [s], then continue
    with [k]; the first success in backtracking order is the result. *)
Fixpoint run (r : regex) (prev : option ascii) (s : string) (caps : captures)
    (k : option ascii -> string -> captures -> option R) : option R :=
  match r with
  | Chr p =>
      match s with
      | String c s' => if p c then k (Some c) s' caps else None
      | EmptyString => None
      end
  | Star p => star p prev s (fun prev' s' => k prev' s' caps)
  | Seq r1 r2 =>
      run r1 prev s caps (fun prev' s' caps' => run r2 prev' s' caps' k)
  | Alt r1 r2 =>
      match run r1 prev s caps k with
      | Some x => Some x
      | None => run r2 prev s caps k
      end
  | Group i r1 =>
      run r1 prev s caps
        (fun prev' s' caps' => k prev' s' ((i, consumed s s') :: caps'))
  | Bol => match prev with None => k prev s caps | Some _ => None end
  | Eol => match s with EmptyString => k prev s caps | _ => None end
  | WordBoundary =>
      if xorb (wordAt prev) (wordAt (headOf s)) then k prev s caps else None
  | Eps => k prev s caps
  end.
End Matcher.

(** A match at the current position: the matched text, the rest of the
    input and the captures. *)
Definition matchHere (r : regex) (prev : option ascii) (s : string)
    : option (string * string * captures) :=
  run r prev s [] (fun _ rest caps => Some (consumed s rest, rest, caps)).

(** The leftmost match: the text before it and the match. *)
Fixpoint search (r : regex) (prev : option ascii) (s : string)
    : option (string * (string * string * captures)) :=
  match matchHere r prev s with
  | Some m => Some (EmptyString, m)
  | None =>
      match s with
      | EmptyString => None
      | String c s' =>
          match search r (Some c) s' with
          | Some (before, m) => Some (String c before, m)
          | None => None
          end
      end
  end.

Fixpoint groupCount (r : regex) : nat :=
  match r with
  | Seq r1 r2 | Alt r1 r2 => Nat.max (groupCount r1) (groupCount r2)
  | Group i r1 => Nat.max i (groupCount r1)
  | _ => 0%nat
  end.

Fixpoint capture (caps : captures) (i : nat) : string :=
  match caps with
  | [] => EmptyString
  | (j, s) :: rest => if Nat.eqb i j then s else capture rest i
  end.

(** [s.match(r)] for a regular expression without the [g] flag: [None] for
    null, otherwise the array of the match and its groups 1..n. (A group
    that took no part in the match would be undefined in the source and is
    the empty string here; in the patterns of the engine every group takes
    part in every match.) *)
Definition exec (r : regex) (s : string) : option (list string) :=
  match search r None s with
  | Some (_, (whole, _, caps)) =>
      Some (whole :: map (capture caps) (seq 1 (groupCount r)))
  | None => None
  end.

(** [r.test(s)] *)
Definition test (r : regex) (s : string) : bool :=
  match search r None s with Some _ => true | None => false end.

(** [s.replace(r, repl)] without the [g] flag. *)
Definition replaceFirst (r : regex) (repl : string) (s : string) : string :=
  match search r None s with
  | Some (before, (_, rest, _)) => before ++ repl ++ rest
  | None => s
  end.

(** [s.replace(r, repl)] with the [g] flag; an empty match advances by one
    character. The fuel bounds the number of positions visited. *)
Fixpoint replaceAllFrom (fuel : nat) (r : regex) (repl : string)
    (prev : option ascii) (s : string) : string :=
  match fuel with
  | O => s
  | S fuel' =>
      match matchHere r prev s with
      | Some (String c w, rest, _) =>
          repl ++ replaceAllFrom fuel' r repl
                    (headOf (String.substring (String.length w) 1 (String c w)))
                    rest
      | Some (EmptyString, _, _) =>
          match s with
          | EmptyString => repl
          | String c s' => repl ++ String c (replaceAllFrom fuel' r repl (Some c) s')
          end
      | None =>
          match s with
          | EmptyString => EmptyString
          | String c s' => String c (replaceAllFrom fuel' r repl (Some c) s')
          end
      end
  end.

Definition replaceAll (r : regex) (repl : string) (s : string) : string :=
  replaceAllFrom (S (String.length s)) r repl None s.

(** The element of a match array, [m[i]]. *)
Definition at_ (m : list string) (i : nat) : string := nth i m EmptyString.

End Regex.

(** ** JavaScript numbers *)

Module Num.

(** A double: not-a-number, an infinity, or the finite value [m * 2^e]. *)
Inductive JsNumber : Type :=
| NaN
| Infinity (negative : bool)
| Finite (m e : Z).

Definition isFinite (x : JsNumber) : bool :=
  match x with Finite _ _ => true | _ => false end.

(** The integer part of [m * 2^e], rounding towards zero. *)
Definition truncate (m e : Z) : Z :=
  if 0 <=? e then m * 2 ^ e else Z.quot m (2 ^ (- e)).

(** ToInt32 on an integer: reduce modulo 2^32 into the signed range. *)
Definition toInt32 (int : Z) : Z :=
  let int32bit := int mod 2 ^ 32 in
  if 2 ^ 31 <=? int32bit then int32bit - 2 ^ 32 else int32bit.

(** [x | 0] for an arbitrary double. *)
Definition toInt32Number (x : JsNumber) : Z :=
  match x with
  | Finite m e => toInt32 (truncate m e)
  | _ => 0
  end.

(** The double nearest to an integer (ties to even), as [parseInt] returns
    it: exact below 2^53, rounded to 53 significant bits above, and an
    infinity from 2^1024 - 2^970 on. (For a decimal literal of more than 20
    significant digits the language lets an implementation approximate the
    integer before rounding; the model rounds the exact integer.) *)
Definition roundToDouble (n : Z) : JsNumber :=
  let a := Z.abs n in
  if a <? 2 ^ 53 then Finite n 0
  else
    let k := Z.log2 a - 52 in
    let q := a / 2 ^ k in
    let r := a mod 2 ^ k in
    let half := 2 ^ (k - 1) in
    let q' := if (half <? r) || ((r =? half) && Z.odd q) then q + 1 else q in
    if 2 ^ 1024 <=? q' * 2 ^ k then Infinity (n <? 0)
    else Finite (Z.sgn n * q') k.

Definition digitValue (c : ascii) : option Z :=
  let n := Z.of_N (Js.code c) in
  if Js.isDigit c then Some (n - 48)
  else if Js.isLower c then Some (n - 97 + 10)
  else if Js.isUpper c then Some (n - 65 + 10)
  else None.

(** The value of the longest prefix of radix-[radix] digits, [None] when the
    prefix is empty. *)
Fixpoint digits (radix : Z) (s : string) (acc : option Z) : option Z :=
  match s with
  | EmptyString => acc
  | String c s' =>
      match digitValue c with
      | Some d =>
          if d <? radix
          then digits radix s' (Some (default 0 acc * radix + d))
          else acc
      | None => acc
      end
  end.

(** [Number.parseInt(s, radix)] for a radix between 2 and 36. *)
Definition parseInt (s : string) (radix : Z) : JsNumber :=
  let s1 := Js.trimStart s in
  let '(sign, s2) :=
    match s1 with
    | String "-" r => (-1, r)
    | String "+" r => (1, r)
    | _ => (1, s1)
    end in
  let s3 :=
    if radix =? 16 then
      match s2 with
      | String "0" (String "x" r) => r
      | String "0" (String "X" r) => r
      | _ => s2
      end
    else s2 in
  match digits radix s3 None with
  | None => NaN
  | Some mathInt => roundToDouble (sign * mathInt)
  end.

End Num.

(** ** The engine's data *)

Definition MIPS_REGISTERS : list string :=
  [ "$zero"; "$at";
    "$v0"; "$v1";
    "$a0"; "$a1"; "$a2"; "$a3";
    "$t0"; "$t1"; "$t2"; "$t3"; "$t4"; "$t5"; "$t6"; "$t7"; "$t8"; "$t9";
    "$s0"; "$s1"; "$s2"; "$s3"; "$s4"; "$s5"; "$s6"; "$s7";
    "$k0"; "$k1";
    "$gp"; "$sp"; "$fp"; "$ra" ].

Inductive MipsMachineStatus : Type := Ready | Halted | Error.

Record MipsProgram : Type := {
  instructions : list string;
  labels : gmap string Z;
  dataByAddress : gmap Z string;
  dataAddresses : gmap string Z;
}.

Record MipsMachineState : Type := {
  source : string;
  program : MipsProgram;
  registers : gmap string Z;
  memory : gmap string Z;
  output : string;
  status : MipsMachineStatus;
  error : string;
  pc : Z;
  steps : Z;
  touchedRegisters : list string;
  touchedMemory : list string;
}.

Definition MIPS_MAX_STEPS : Z := 10000.
Definition MIPS_DATA_BASE : Z := 0x10010000.
Definition MIPS_REGISTER_SET : gset string := list_to_set MIPS_REGISTERS.

(** [MIPS_REGISTER_SET.has(name)] *)
Definition isRegister (name : string) : bool :=
  bool_decide (name ∈ MIPS_REGISTER_SET).

(** [String(n)] for an integer [n]. *)
Definition String_ (n : Z) : string := pretty n.

Import Regex.

(** The pattern "/^-?0x[0-9a-fA-F]+$/" *)
Definition hexLiteral : regex :=
  Seq Bol (Seq (Opt (Chr (Js.isChar "-"))) (Seq (Lit "0x")
    (Seq (Plus (fun c => Js.isDigit c || Js.inRange "a" "f" c || Js.inRange "A" "F" c))
      Eol))).

Definition parseMipsNumber (raw : string) : option Z :=
  let value := Js.trim raw in
  if Js.isEmpty value then None
  else
    let parsed :=
      if Regex.test hexLiteral value then Num.parseInt value 16
      else Num.parseInt value 10 in
    if Num.isFinite parsed then Some (Num.toInt32Number parsed) else None.

Definition sanitizeMipsMemoryAddress (address : Z) : Z := Num.toInt32 address.

(** ** The patterns of the source *)

Definition Cat (rs : list regex) : regex := fold_right Seq Eps rs.

Definition dquote : ascii := "034"%char.
Definition newline : ascii := "010"%char.

Definition anyChar (c : ascii) : bool := true.                       (* [\s\S] *)
Definition dot (c : ascii) : bool := negb (Js.isLineTerminator c).   (* . *)
Definition labelStart (c : ascii) : bool :=                          (* [A-Za-z_.$] *)
  Js.isLetter c || Js.isChar "_" c || Js.isChar "." c || Js.isChar "$" c.
Definition labelChar (c : ascii) : bool :=                           (* [\w.$] *)
  Js.isWord c || Js.isChar "." c || Js.isChar "$" c.
Definition notCommaSpace (c : ascii) : bool :=                       (* [^,\s] *)
  negb (Js.isChar "," c || Js.isWhiteSpace c).

Definition registerName : regex := Cat [Lit "$"; Plus Js.isWord].    (* \$\w+ *)
Definition labelName : regex := Cat [Chr labelStart; Star labelChar].
Definition comma : regex := Cat [Star Js.isWhiteSpace; Lit ","; Star Js.isWhiteSpace].

(** The pattern "/#.*$/" *)
Definition commentPattern : regex := Cat [Lit "#"; Star dot; Eol].
(** The pattern "/^\.globl\b/i" *)
Definition globlPattern : regex := Cat [Bol; LitI ".globl"; WordBoundary].
(** The pattern "/^(LABEL):\s*(REST)$/", with LABEL = [A-Za-z_.$][\w.$]* and
    REST = .* *)
Definition inlineLabelPattern : regex :=
  Cat [Bol; Group 1 labelName; Lit ":"; Star Js.isWhiteSpace; Group 2 (Star dot); Eol].
(** The pattern "/^\.asciiz\s+QUOTE(TEXT)QUOTE$/i", with TEXT = [\s\S]* *)
Definition asciizPattern : regex :=
  Cat [Bol; LitI ".asciiz"; Plus Js.isWhiteSpace; Chr (Js.isChar dquote);
       Group 1 (Star anyChar); Chr (Js.isChar dquote); Eol].
(** The pattern "/^\.word\s+(.+)$/i" *)
Definition wordPattern : regex :=
  Cat [Bol; LitI ".word"; Plus Js.isWhiteSpace; Group 1 (Plus dot); Eol].
(** The patterns "/\\n/g" and "/\\QUOTE/g" *)
Definition escapedNewline : regex := Lit "\n".
Definition escapedQuote : regex := Cat [Lit "\"; Chr (Js.isChar dquote)].

(** The pattern "/^li\s+(\$\w+)\s*,\s*([^,\s]+)$/i" *)
Definition liPattern : regex :=
  Cat [Bol; LitI "li"; Plus Js.isWhiteSpace; Group 1 registerName; comma;
       Group 2 (Plus notCommaSpace); Eol].
(** The pattern "/^la\s+(\$\w+)\s*,\s*(LABEL)$/i" *)
Definition laPattern : regex :=
  Cat [Bol; LitI "la"; Plus Js.isWhiteSpace; Group 1 registerName; comma;
       Group 2 labelName; Eol].
(** The pattern "/^move\s+(\$\w+)\s*,\s*(\$\w+)$/i" *)
Definition movePattern : regex :=
  Cat [Bol; LitI "move"; Plus Js.isWhiteSpace; Group 1 registerName; comma;
       Group 2 registerName; Eol].
(** The pattern "/^addi\s+(\$\w+)\s*,\s*(\$\w+)\s*,\s*([^,\s]+)$/i" *)
Definition addiPattern : regex :=
  Cat [Bol; LitI "addi"; Plus Js.isWhiteSpace; Group 1 registerName; comma;
       Group 2 registerName; comma; Group 3 (Plus notCommaSpace); Eol].
(** The pattern "/^(add|sub)\s+(\$\w+)\s*,\s*(\$\w+)\s*,\s*(\$\w+)$/i" *)
Definition arithmeticPattern : regex :=
  Cat [Bol; Group 1 (Alt (LitI "add") (LitI "sub")); Plus Js.isWhiteSpace;
       Group 2 registerName; comma; Group 3 registerName; comma;
       Group 4 registerName; Eol].
(** The pattern "/^lw\s+(\$\w+)\s*,\s*(.+)$/i" *)
Definition lwPattern : regex :=
  Cat [Bol; LitI "lw"; Plus Js.isWhiteSpace; Group 1 registerName; comma;
       Group 2 (Plus dot); Eol].
(** The pattern "/^sw\s+(\$\w+)\s*,\s*(.+)$/i" *)
Definition swPattern : regex :=
  Cat [Bol; LitI "sw"; Plus Js.isWhiteSpace; Group 1 registerName; comma;
       Group 2 (Plus dot); Eol].
(** The pattern "/^(beq|bne)\s+(\$\w+)\s*,\s*(\$\w+)\s*,\s*(LABEL)$/i" *)
Definition branchPattern : regex :=
  Cat [Bol; Group 1 (Alt (LitI "beq") (LitI "bne")); Plus Js.isWhiteSpace;
       Group 2 registerName; comma; Group 3 registerName; comma;
       Group 4 labelName; Eol].
(** The pattern "/^j\s+(LABEL)$/i" *)
Definition jumpPattern : regex :=
  Cat [Bol; LitI "j"; Plus Js.isWhiteSpace; Group 1 labelName; Eol].
(** The pattern "/^syscall$/i" *)
Definition syscallPattern : regex := Cat [Bol; LitI "syscall"; Eol].
(** The pattern "/^(.+)\((\$\w+)\)$/" *)
Definition offsetBasePattern : regex :=
  Cat [Bol; Group 1 (Plus dot); Lit "("; Group 2 registerName; Lit ")"; Eol].

(** ** The program loader *)

Inductive ParseResult : Type :=
| ParseOk (parsed : MipsProgram)
| ParseFailed (message : string).

(** The variables of the loop of [parseMipsProgram]. *)
Record LoaderState : Type := {
  ldLabels : gmap string Z;
  ldInstructions : list string;
  ldDataByAddress : gmap Z string;
  ldDataAddresses : gmap string Z;
  nextDataAddress : Z;
  inText : bool;
}.

Definition loaderStart : LoaderState :=
  {| ldLabels := ∅; ldInstructions := []; ldDataByAddress := ∅;
     ldDataAddresses := ∅; nextDataAddress := MIPS_DATA_BASE; inText := false |}.

(** One iteration of the loop over [rawLines]. *)
Definition loadLine (st : LoaderState) (rawLine : string) : LoaderState :=
  let '{| ldLabels := lbls; ldInstructions := insts; ldDataByAddress := byAddr;
          ldDataAddresses := addrs; nextDataAddress := next; inText := text |} := st in
  if String.eqb rawLine ".text" then
    {| ldLabels := lbls; ldInstructions := insts; ldDataByAddress := byAddr;
       ldDataAddresses := addrs; nextDataAddress := next; inText := true |}
  else if String.eqb rawLine ".data" then
    {| ldLabels := lbls; ldInstructions := insts; ldDataByAddress := byAddr;
       ldDataAddresses := addrs; nextDataAddress := next; inText := false |}
  else if test globlPattern rawLine then st
  else
    let inlineLabel := exec inlineLabelPattern rawLine in
    (* the label, when the line has one *)
    let lbls1 :=
      match inlineLabel with
      | Some m => if text then <[at_ m 1 := Z.of_nat (length insts)]> lbls else lbls
      | None => lbls
      end in
    let addrs1 :=
      match inlineLabel with
      | Some m =>
          if text then addrs
          else match addrs !! at_ m 1 with
               | Some _ => addrs
               | None => <[at_ m 1 := next]> addrs
               end
      | None => addrs
      end in
    let line :=
      match inlineLabel with
      | Some m => Js.trim (at_ m 2)
      | None => rawLine
      end in
    let labelled :=
      {| ldLabels := lbls1; ldInstructions := insts; ldDataByAddress := byAddr;
         ldDataAddresses := addrs1; nextDataAddress := next; inText := text |} in
    if (match inlineLabel with Some _ => Js.isEmpty line | None => false end)
    then labelled
    else if negb text then
      let address :=
        default next
          (addrs1 !! match inlineLabel with Some m => at_ m 1 | None => "" end) in
      match exec asciizPattern line with
      | Some asciiz =>
          let normalized :=
            replaceAll escapedQuote (String dquote "")
              (replaceAll escapedNewline (String newline "") (at_ asciiz 1)) in
          {| ldLabels := lbls1; ldInstructions := insts;
             ldDataByAddress := <[address := normalized]> byAddr;
             ldDataAddresses := addrs1;
             nextDataAddress := address + Js.length normalized + 1;
             inText := text |}
      | None =>
          match exec wordPattern line with
          | Some words =>
              let values :=
                filter (fun part => part ≠ "")
                  (map Js.trim (Js.split "," (at_ words 1))) in
              {| ldLabels := lbls1; ldInstructions := insts;
                 ldDataByAddress := byAddr; ldDataAddresses := addrs1;
                 nextDataAddress := address + Z.max 1 (Z.of_nat (length values)) * 4;
                 inText := text |}
          | None => labelled
          end
      end
    else
      {| ldLabels := lbls1; ldInstructions := insts ++ [line];
         ldDataByAddress := byAddr; ldDataAddresses := addrs1;
         nextDataAddress := next; inText := text |}.

Definition rawLinesOf (source : string) : list string :=
  filter (fun line => line ≠ "")
    (map (fun line => Js.trim (replaceFirst commentPattern "" line))
       (Js.split newline source)).

Definition parseMipsProgram (source : string) : ParseResult :=
  let final := fold_left loadLine (rawLinesOf source) loaderStart in
  if Nat.eqb (length (ldInstructions final)) 0 then
    ParseFailed "No MIPS instructions found in .text section."
  else
    ParseOk {| instructions := ldInstructions final;
               labels := ldLabels final;
               dataByAddress := ldDataByAddress final;
               dataAddresses := ldDataAddresses final |}.

(** ** Machine states *)

(** Field updates, for the object spreads and assignments of the source. *)
Definition withRegisters (m : MipsMachineState) (r : gmap string Z) : MipsMachineState :=
  {| source := source m; program := program m; registers := r; memory := memory m;
     output := output m; status := status m; error := error m; pc := pc m;
     steps := steps m; touchedRegisters := touchedRegisters m;
     touchedMemory := touchedMemory m |}.

Definition withMemory (m : MipsMachineState) (mem : gmap string Z) : MipsMachineState :=
  {| source := source m; program := program m; registers := registers m; memory := mem;
     output := output m; status := status m; error := error m; pc := pc m;
     steps := steps m; touchedRegisters := touchedRegisters m;
     touchedMemory := touchedMemory m |}.

Definition withOutput (m : MipsMachineState) (out : string) : MipsMachineState :=
  {| source := source m; program := program m; registers := registers m;
     memory := memory m; output := out; status := status m; error := error m;
     pc := pc m; steps := steps m; touchedRegisters := touchedRegisters m;
     touchedMemory := touchedMemory m |}.

Definition withStatus (m : MipsMachineState) (s : MipsMachineStatus) : MipsMachineState :=
  {| source := source m; program := program m; registers := registers m;
     memory := memory m; output := output m; status := s; error := error m;
     pc := pc m; steps := steps m; touchedRegisters := touchedRegisters m;
     touchedMemory := touchedMemory m |}.

Definition withError (m : MipsMachineState) (e : string) : MipsMachineState :=
  {| source := source m; program := program m; registers := registers m;
     memory := memory m; output := output m; status := status m; error := e;
     pc := pc m; steps := steps m; touchedRegisters := touchedRegisters m;
     touchedMemory := touchedMemory m |}.

Definition withPc (m : MipsMachineState) (p : Z) : MipsMachineState :=
  {| source := source m; program := program m; registers := registers m;
     memory := memory m; output := output m; status := status m; error := error m;
     pc := p; steps := steps m; touchedRegisters := touchedRegisters m;
     touchedMemory := touchedMemory m |}.

Definition withSteps (m : MipsMachineState) (n : Z) : MipsMachineState :=
  {| source := source m; program := program m; registers := registers m;
     memory := memory m; output := output m; status := status m; error := error m;
     pc := pc m; steps := n; touchedRegisters := touchedRegisters m;
     touchedMemory := touchedMemory m |}.

Definition withTouchedRegisters (m : MipsMachineState) (t : list string) : MipsMachineState :=
  {| source := source m; program := program m; registers := registers m;
     memory := memory m; output := output m; status := status m; error := error m;
     pc := pc m; steps := steps m; touchedRegisters := t;
     touchedMemory := touchedMemory m |}.

Definition withTouchedMemory (m : MipsMachineState) (t : list string) : MipsMachineState :=
  {| source := source m; program := program m; registers := registers m;
     memory := memory m; output := output m; status := status m; error := error m;
     pc := pc m; steps := steps m; touchedRegisters := touchedRegisters m;
     touchedMemory := t |}.

(** [list.includes(x)] *)
Definition includes (x : string) (l : list string) : bool := bool_decide (x ∈ l).

(** [Object.fromEntries(MIPS_REGISTERS.map((reg) => [reg, 0]))] *)
Definition zeroRegisters : gmap string Z :=
  list_to_map (map (fun reg => (reg, 0)) MIPS_REGISTERS).

(** The caller's overrides are given as their [Object.entries], in the
    order of enumeration; the values are arbitrary doubles. *)
Definition Overrides : Type := list (string * Num.JsNumber).

Definition overrideRegister (regs : gmap string Z) (entry : string * Num.JsNumber)
    : gmap string Z :=
  let '(reg, value) := entry in
  if isRegister reg && negb (String.eqb reg "$zero")
  then <[reg := Num.toInt32Number value]> regs
  else regs.

Definition overrideMemory (mem : gmap string Z) (entry : string * Num.JsNumber)
    : gmap string Z :=
  let '(key, value) := entry in
  match parseMipsNumber key with
  | None => mem
  | Some parsedAddress =>
      <[String_ (sanitizeMipsMemoryAddress parsedAddress) := Num.toInt32Number value]> mem
  end.

Definition initializeMipsMachine (src : string)
    (initialRegisters initialMemory : Overrides) : MipsMachineState :=
  match parseMipsProgram src with
  | ParseFailed message =>
      {| source := src;
         program := {| instructions := []; labels := ∅; dataByAddress := ∅;
                       dataAddresses := ∅ |};
         registers := zeroRegisters;
         memory := ∅;
         output := "";
         status := Error;
         error := message;
         pc := 0;
         steps := 0;
         touchedRegisters := [];
         touchedMemory := [] |}
  | ParseOk parsed =>
      let registers0 := fold_left overrideRegister initialRegisters zeroRegisters in
      let registers1 := <["$zero" := 0]> registers0 in
      let memory0 := fold_left overrideMemory initialMemory ∅ in
      {| source := src;
         program := parsed;
         registers := registers1;
         memory := memory0;
         output := "";
         status := Ready;
         error := "";
         pc := 0;
         steps := 0;
         touchedRegisters := [];
         touchedMemory := [] |}
  end.

Definition readMipsRegister (machine : MipsMachineState) (name : string) : Z :=
  default 0 (registers machine !! name).

Definition writeMipsRegister (machine : MipsMachineState) (name : string) (value : Z)
    : MipsMachineState :=
  if negb (isRegister name) || String.eqb name "$zero" then machine
  else
    let machine1 :=
      withRegisters machine (<[name := Num.toInt32 value]> (registers machine)) in
    if includes name (touchedRegisters machine1) then machine1
    else withTouchedRegisters machine1 (touchedRegisters machine1 ++ [name]).

Definition parseMipsAddressOperand (machine : MipsMachineState) (operand : string)
    : option Z :=
  match exec offsetBasePattern operand with
  | Some offsetBase =>
      let offset := parseMipsNumber (Js.trim (at_ offsetBase 1)) in
      let base := Js.trim (at_ offsetBase 2) in
      match offset with
      | Some offset =>
          if isRegister base
          then Some (sanitizeMipsMemoryAddress (readMipsRegister machine base + offset))
          else None
      | None => None
      end
  | None =>
      match dataAddresses (program machine) !! operand with
      | Some address => Some address
      | None =>
          match parseMipsNumber operand with
          | Some direct => Some (sanitizeMipsMemoryAddress direct)
          | None => None
          end
      end
  end.

Definition appendMipsOutput (machine : MipsMachineState) (text : string)
    : MipsMachineState :=
  withOutput machine (output machine ++ text).

(** [fail] of [stepMipsMachine]. *)
Definition fail (machine : MipsMachineState) (message : string) : MipsMachineState :=
  withError (withStatus machine Error) message.

(** [machine.registers.$zero = 0] *)
Definition resetZero (machine : MipsMachineState) : MipsMachineState :=
  withRegisters machine (<["$zero" := 0]> (registers machine)).

(** [machine.pc += 1; machine.registers.$zero = 0; return machine] *)
Definition advance (machine : MipsMachineState) : MipsMachineState :=
  resetZero (withPc machine (pc machine + 1)).

(** The touched-memory bookkeeping of [lw] and [sw]. *)
Definition touchMemory (machine : MipsMachineState) (key : string) : MipsMachineState :=
  if includes key (touchedMemory machine) then machine
  else withTouchedMemory machine (touchedMemory machine ++ [key]).

(** ** The instruction executor *)

(** The body of [stepMipsMachine] after the copy [machine] of the current
    state is made and [inst] is fetched: the patterns are tried in the
    source's order and the first that matches decides. *)
Definition executeInstruction (machine : MipsMachineState) (inst : string)
    : MipsMachineState :=
  match exec liPattern inst with
  | Some li =>
      match parseMipsNumber (at_ li 2) with
      | None => fail machine ("Invalid immediate value: " ++ at_ li 2)
      | Some value => advance (writeMipsRegister machine (at_ li 1) value)
      end
  | None =>
  match exec laPattern inst with
  | Some la =>
      match dataAddresses (program machine) !! at_ la 2 with
      | None => fail machine ("Unknown data label: " ++ at_ la 2)
      | Some address => advance (writeMipsRegister machine (at_ la 1) address)
      end
  | None =>
  match exec movePattern inst with
  | Some move =>
      advance (writeMipsRegister machine (at_ move 1)
                 (readMipsRegister machine (at_ move 2)))
  | None =>
  match exec addiPattern inst with
  | Some addi =>
      match parseMipsNumber (at_ addi 3) with
      | None => fail machine ("Invalid immediate value: " ++ at_ addi 3)
      | Some immediate =>
          advance (writeMipsRegister machine (at_ addi 1)
                     (Num.toInt32 (readMipsRegister machine (at_ addi 2) + immediate)))
      end
  | None =>
  match exec arithmeticPattern inst with
  | Some arithmetic =>
      let lhs := readMipsRegister machine (at_ arithmetic 3) in
      let rhs := readMipsRegister machine (at_ arithmetic 4) in
      let next :=
        if String.eqb (Js.toLowerCase (at_ arithmetic 1)) "add"
        then lhs + rhs else lhs - rhs in
      advance (writeMipsRegister machine (at_ arithmetic 2) (Num.toInt32 next))
  | None =>
  match exec lwPattern inst with
  | Some lw =>
      match parseMipsAddressOperand machine (Js.trim (at_ lw 2)) with
      | None => fail machine ("Invalid memory operand: " ++ at_ lw 2)
      | Some address =>
          let key := String_ address in
          let machine1 :=
            writeMipsRegister machine (at_ lw 1) (default 0 (memory machine !! key)) in
          advance (touchMemory machine1 key)
      end
  | None =>
  match exec swPattern inst with
  | Some sw =>
      match parseMipsAddressOperand machine (Js.trim (at_ sw 2)) with
      | None => fail machine ("Invalid memory operand: " ++ at_ sw 2)
      | Some address =>
          let key := String_ address in
          let machine1 :=
            withMemory machine
              (<[key := Num.toInt32 (readMipsRegister machine (at_ sw 1))]>
                 (memory machine)) in
          advance (touchMemory machine1 key)
      end
  | None =>
  match exec branchPattern inst with
  | Some branch =>
      let lhs := readMipsRegister machine (at_ branch 2) in
      let rhs := readMipsRegister machine (at_ branch 3) in
      let shouldBranch :=
        if String.eqb (Js.toLowerCase (at_ branch 1)) "beq"
        then lhs =? rhs else negb (lhs =? rhs) in
      if shouldBranch then
        match labels (program machine) !! at_ branch 4 with
        | None => fail machine ("Unknown label: " ++ at_ branch 4)
        | Some target => resetZero (withPc machine target)
        end
      else advance machine
  | None =>
  match exec jumpPattern inst with
  | Some jump =>
      match labels (program machine) !! at_ jump 1 with
      | None => fail machine ("Unknown label: " ++ at_ jump 1)
      | Some target => resetZero (withPc machine target)
      end
  | None =>
  if test syscallPattern inst then
    let v0 := readMipsRegister machine "$v0" in
    let finish (m : MipsMachineState) : MipsMachineState :=
      resetZero (match status m with
                 | Halted => m
                 | _ => withPc m (pc m + 1)
                 end) in
    if v0 =? 1 then
      finish (appendMipsOutput machine (String_ (readMipsRegister machine "$a0")))
    else if v0 =? 4 then
      let address := readMipsRegister machine "$a0" in
      finish (appendMipsOutput machine
                (default "" (dataByAddress (program machine) !! address)))
    else if v0 =? 10 then
      finish (withStatus machine Halted)
    else if v0 =? 11 then
      finish (appendMipsOutput machine
                (Js.fromCharCode
                   (Z.land (Num.toInt32 (readMipsRegister machine "$a0")) 0xff)))
    else fail machine ("Unsupported syscall: " ++ String_ v0)
  else fail machine ("Unsupported instruction: " ++ inst)
  end end end end end end end end end.

Definition stepMipsMachine (current : MipsMachineState) : MipsMachineState :=
  match status current with
  | Ready =>
      if (pc current <? 0)
         || (Z.of_nat (length (instructions (program current))) <=? pc current)
      then withStatus current Halted
      else if MIPS_MAX_STEPS <=? steps current
      then withError (withStatus current Error) "MIPS execution timed out."
      else
        let machine := withSteps current (steps current + 1) in
        let inst := nth (Z.to_nat (pc machine)) (instructions (program machine)) "" in
        executeInstruction machine inst
  | _ => current
  end.

(** The loop of [runMipsMachineToEnd], with the number of calls of
    [stepMipsMachine] it may make bounded by [fuel]: [None] when the bound
    is reached with the machine still ready. *)
Fixpoint runMipsMachineToEnd (fuel : nat) (next : MipsMachineState)
    : option MipsMachineState :=
  match status next with
  | Ready =>
      match fuel with
      | O => None
      | S fuel' => runMipsMachineToEnd fuel' (stepMipsMachine next)
      end
  | _ => Some next
  end.

(** [n] successive calls of [stepMipsMachine], as the step-by-step
    inspector makes them. *)
Fixpoint stepN (n : nat) (m : MipsMachineState) : MipsMachineState :=
  match n with
  | O => m
  | S n' => stepN n' (stepMipsMachine m)
  end.

(** ** Specification vocabulary *)

(** The 32-bit signed range. *)
Definition int32 (v : Z) : Prop := -2147483648 <= v <= 2147483647.

(** The step does real work: the machine is ready, the pc designates an
    instruction and the step bound is not reached. *)
Definition executes (m : MipsMachineState) : bool :=
  match status m with
  | Ready =>
      negb ((pc m <? 0) || (Z.of_nat (length (instructions (program m))) <=? pc m))
      && negb (MIPS_MAX_STEPS <=? steps m)
  | _ => false
  end.

(** The instruction the next step fetches. *)
Definition fetched (m : MipsMachineState) : string :=
  nth (Z.to_nat (pc m)) (instructions (program m)) "".

(** A register name that [writeMipsRegister] accepts. *)
Definition writable (name : string) : bool :=
  isRegister name && negb (String.eqb name "$zero").

(** The states the engine can be in: made by [initializeMipsMachine] and
    advanced by [stepMipsMachine]. *)
Inductive reachable : MipsMachineState -> Prop :=
| reachable_init src regs mem : reachable (initializeMipsMachine src regs mem)
| reachable_step m : reachable m -> reachable (stepMipsMachine m).

Inductive Pattern : Type :=
| PLi | PLa | PMove | PAddi | PArithmetic | PLw | PSw | PBranch | PJump | PSyscall.

(** The first pattern of the executor that matches an instruction, in the
    order in which [stepMipsMachine] tries them, with its match array. *)
Definition firstMatch (inst : string) : option (Pattern * list string) :=
  match exec liPattern inst with Some m => Some (PLi, m) | None =>
  match exec laPattern inst with Some m => Some (PLa, m) | None =>
  match exec movePattern inst with Some m => Some (PMove, m) | None =>
  match exec addiPattern inst with Some m => Some (PAddi, m) | None =>
  match exec arithmeticPattern inst with Some m => Some (PArithmetic, m) | None =>
  match exec lwPattern inst with Some m => Some (PLw, m) | None =>
  match exec swPattern inst with Some m => Some (PSw, m) | None =>
  match exec branchPattern inst with Some m => Some (PBranch, m) | None =>
  match exec jumpPattern inst with Some m => Some (PJump, m) | None =>
  if test syscallPattern inst then Some (PSyscall, [inst]) else None
  end end end end end end end end end.

(** The step from [m] executes a store to [address]. *)
Definition storesTo (m : MipsMachineState) (address : Z) : Prop :=
  executes m = true
  /\ exists sw, firstMatch (fetched m) = Some (PSw, sw)
                /\ parseMipsAddressOperand m (Js.trim (at_ sw 2)) = Some address.

(** The step from [m] executes a load of [address] into the register [rd]. *)
Definition loadsFrom (m : MipsMachineState) (rd : string) (address : Z) : Prop :=
  executes m = true
  /\ exists lw, firstMatch (fetched m) = Some (PLw, lw)
                /\ at_ lw 1 = rd
                /\ parseMipsAddressOperand m (Js.trim (at_ lw 2)) = Some address.

(** Every register value and every memory word is a 32-bit signed integer. *)
Definition wordsInRange (m : MipsMachineState) : Prop :=
  (forall r v, registers m !! r = Some v -> int32 v)
  /\ (forall k v, memory m !! k = Some v -> int32 v).

(** The register file has no entry outside the register set. *)
Definition namesDefined (m : MipsMachineState) : Prop :=
  forall r v, registers m !! r = Some v -> isRegister r = true.

(** ** Programs *)

(** The source text whose lines are [lines], each ended by a line feed. *)
Definition onLines (lines : list string) : string :=
  fold_right (fun l acc => l ++ String newline acc) "" lines.

(** A source placed after a [.text] line. *)
Definition inTextSection (src : string) : string := onLines [".text"] ++ src.

(** Scenarios A, B and C of the specification, as it writes them. *)
Definition helloWorld : string :=
  onLines [".data"; "msg: .asciiz " ++ String dquote "Hi\n" ++ String dquote "";
           ".text"; "li $v0,4"; "la $a0,msg"; "syscall"; "li $v0,10"; "syscall"].
Definition scenarioB : string :=
  onLines ["li $t0,5"; "li $t1,7"; "add $t2,$t0,$t1"].
Definition scenarioC : string :=
  onLines ["loop:"; "beq $zero,$zero,loop"].

(** The sample program of the editor for the language. *)
Definition sampleProgram : string :=
  onLines [".data"; "message: .asciiz " ++ String dquote "Hello, world!\n" ++ String dquote "";
           ""; ".text"; ".globl main"; "main:"; "  li $v0, 4"; "  la $a0, message";
           "  syscall"; ""; "  li $v0, 10"; "  syscall"].

Definition roundtripProgram : string :=
  inTextSection (onLines ["li $t0,-5"; "li $sp,0x7ffffffc"; "sw $t0, 0($sp)"; "lw $t1, 0($sp)"]).
Definition overflowProgram : string :=
  inTextSection (onLines ["li $t0,0x7FFFFFFF"; "li $t1,1"; "add $t2,$t0,$t1"]).
Definition overriddenProgram : string := inTextSection (onLines ["lw $t0, 16"]).
Definition unwrittenProgram : string :=
  inTextSection (onLines ["li $t0, 1"; "sw $t0, 8"; "lw $t1, 12"]).
Definition undefinedBaseProgram : string := inTextSection (onLines ["lw $t0, 0($q9)"]).
Definition undefinedNameProgram : string :=
  inTextSection (onLines ["li $q9, 5"; "move $t0, $q9"]).
Definition zeroWritingProgram : string :=
  inTextSection (onLines ["li $zero, 5"; "addi $zero, $zero, 1"; "move $zero, $t0"]).

(** What the scenarios look at in a final state. *)
Definition observe (r : option MipsMachineState) :=
  match r with
  | Some m => Some (status m, error m, steps m, pc m, output m, readMipsRegister m "$t2")
  | None => None
  end.

(** What makes the step from [m] fail, by the pattern its instruction
    matches first. No cause depends on whether a destination or source
    register name belongs to the register set. *)
Definition errorCause (m : MipsMachineState) : Prop :=
  match firstMatch (fetched m) with
  | Some (PLi, li) => parseMipsNumber (at_ li 2) = None
  | Some (PLa, la) => dataAddresses (program m) !! at_ la 2 = None
  | Some (PMove, _) => False
  | Some (PAddi, addi) => parseMipsNumber (at_ addi 3) = None
  | Some (PArithmetic, _) => False
  | Some (PLw, lw) => parseMipsAddressOperand m (Js.trim (at_ lw 2)) = None
  | Some (PSw, sw) => parseMipsAddressOperand m (Js.trim (at_ sw 2)) = None
  | Some (PBranch, branch) => labels (program m) !! at_ branch 4 = None
  | Some (PJump, jump) => labels (program m) !! at_ jump 1 = None
  | Some (PSyscall, _) =>
      ~ In (readMipsRegister m "$v0") [1; 4; 10; 11]
  | None => True
  end.

Definition registersComplete (m : MipsMachineState) : Prop :=
  forall r, isRegister r = true -> is_Some (registers m !! r).

Definition touchedWellFormed (m : MipsMachineState) : Prop :=
  NoDup (touchedRegisters m)
  /\ NoDup (touchedMemory m)
  /\ (forall r, r ∈ touchedRegisters m -> writable r = true).

(** What one step keeps of the output and of the touched lists. *)
Definition extends (m m' : MipsMachineState) : Prop :=
  (exists text, output m' = output m ++ text)
  /\ touchedRegisters m `prefix_of` touchedRegisters m'
  /\ touchedMemory m `prefix_of` touchedMemory m'.

Definition labelsInRange (lbls : gmap string Z) (count : nat) : Prop :=
  forall l v, lbls !! l = Some v -> 0 <= v <= Z.of_nat count.

Definition dataInRange (st : LoaderState) : Prop :=
  MIPS_DATA_BASE <= nextDataAddress st
  /\ (forall l a, ldDataAddresses st !! l = Some a -> MIPS_DATA_BASE <= a)
  /\ (forall a s, ldDataByAddress st !! a = Some s -> MIPS_DATA_BASE <= a).

Definition startsTrimmed (s : string) : Prop :=
  match s with
  | String c _ => Js.isWhiteSpace c = false
  | EmptyString => True
  end.

Definition trimmedLine (line : string) : Prop := line <> "" /\ Js.trim line = line.

Definition pcInProgram (m : MipsMachineState) : Prop :=
  labelsInRange (labels (program m)) (length (instructions (program m)))
  /\ 0 <= pc m <= Z.of_nat (length (instructions (program m))).

(** The status of a run in the terminal, 'success' or 'error'. *)
Inductive RunStatus : Type := StatusSuccess | StatusError.

(** [s.startsWith(prefix)], [s.slice(n)] and [list.join(sep)]. *)
Definition startsWith (prefix s : string) : bool := String.prefix prefix s.
Definition slice (n : nat) (s : string) : string :=
  String.substring n (String.length s - n) s.
Definition join (sep : string) (l : list string) : string := String.concat sep l.

Definition isQuote (c : ascii) : bool := Js.isChar "'" c || Js.isChar dquote c.

(** The pattern "/^[QUOTES]|[QUOTES]$/g", with QUOTES the two quote characters. *)
Definition edgeQuotePattern : regex :=
  Alt (Cat [Bol; Chr isQuote]) (Cat [Chr isQuote; Eol]).

(** The variables of the loop of [runBashCode]; [dateCalls] counts the calls
    of the clock made so far. *)
Record BashState : Type := {
  bashLines : list string;
  hadError : bool;
  dateCalls : nat;
}.

(** One iteration of the loop of [runBashCode]. [clock n] is what the
    n-th call of [new Date().toString()] returns. *)
Definition runBashLine (clock : nat -> string) (st : BashState) (rawLine : string)
    : BashState :=
  let line := Js.trim rawLine in
  let push (text : string) :=
    {| bashLines := bashLines st ++ [text]; hadError := hadError st;
       dateCalls := dateCalls st |} in
  if Js.isEmpty line || startsWith "#" line then st
  else if String.eqb line "pwd" then push "/workspace"
  else if String.eqb line "whoami" then push "npad-user"
  else if String.eqb line "date" then
    {| bashLines := bashLines st ++ [clock (dateCalls st)]; hadError := hadError st;
       dateCalls := S (dateCalls st) |}
  else if startsWith "echo " line then
    push (replaceAll edgeQuotePattern "" (Js.trim (slice 5 line)))
  else if startsWith "printf " line then
    push (replaceAll escapedNewline (String newline "")
            (replaceAll edgeQuotePattern "" (Js.trim (slice 7 line))))
  else
    {| bashLines := bashLines st ++ ["command not supported in browser bash runner: " ++ line];
       hadError := true; dateCalls := dateCalls st |}.

(** The state of the loop of [runBashCode] at its end. *)
Definition runBashLoop (clock : nat -> string) (source : string) : BashState :=
  fold_left (runBashLine clock) (Js.split newline source)
    {| bashLines := []; hadError := false; dateCalls := 0 |}.

Definition runBashCode (clock : nat -> string) (source : string) : RunStatus * string :=
  let final := runBashLoop clock source in
  (if hadError final then StatusError else StatusSuccess,
   let joined := join (String newline "") (bashLines final) in
   if Js.isEmpty joined then "(no output)" else joined).

(** A line the runner acts on: not blank and not a comment. *)
Definition isCommandLine (rawLine : string) : bool :=
  negb (Js.isEmpty (Js.trim rawLine) || startsWith "#" (Js.trim rawLine)).

(** A command the runner implements. *)
Definition supportedCommand (rawLine : string) : bool :=
  let line := Js.trim rawLine in
  String.eqb line "pwd" || String.eqb line "whoami" || String.eqb line "date"
  || startsWith "echo " line || startsWith "printf " line.

Definition bashSample : string :=
  onLines ["# demo"; "pwd"; "  echo 'hello world'  "; ""; "printf " ++ String dquote "a\nb" ++ String dquote "";
           "ls -la"; "echo"; "date"].

(** The pattern "/\s+/g" *)
Definition whitespaceRun : regex := Plus Js.isWhiteSpace.

Definition normalizeCollectionName (value : string) : string :=
  replaceAll whitespaceRun " " (Js.trim value).

(** No white space at the start of [s], and every white space character of
    [s] is a space followed by a character that is not white space. *)
Definition startsWithInk (s : string) : Prop :=
  match s with
  | String c _ => Js.isWhiteSpace c = false
  | EmptyString => False
  end.

Fixpoint singleSpaced (s : string) : Prop :=
  match s with
  | EmptyString => True
  | String c s' =>
      (Js.isWhiteSpace c = true -> c = " "%char /\ startsWithInk s') /\ singleSpaced s'
  end.

(** Every white space character of [s] has a character that is not white
    space somewhere after it. *)
Fixpoint noTrailingSpace (s : string) : Prop :=
  match s with
  | EmptyString => True
  | String c s' =>
      (Js.isWhiteSpace c = true -> Js.trimStart s' <> "") /\ noTrailingSpace s'
  end.

Fixpoint allChars (p : ascii -> bool) (s : string) : Prop :=
  match s with
  | EmptyString => True
  | String c s' => p c = true /\ allChars p s'
  end.

Definition decimalChar (c : ascii) : bool := Js.isDigit c || Js.isChar "-" c.

(** ** Examples of the embedding *)

Example trim_example : Js.trim "  li $t0, 5 	" = "li $t0, 5".
Proof. reflexivity. Qed.

Example split_example : Js.split "," "a,b,,c" = ["a"; "b"; ""; "c"].
Proof. reflexivity. Qed.

Example parseMipsNumber_examples :
  map parseMipsNumber ["5"; " -7 "; "0x10"; "-0x7fffffff"; "0xFFFFFFFF"; "12abc"; "abc"; ""; "4294967296"; "0X10"]
  = [Some 5; Some (-7); Some 16; Some (-2147483647); Some (-1); Some 12; None; None; Some 0; Some 0].
Proof. vm_compute. reflexivity. Qed.

Example isRegister_examples :
  map isRegister ["$zero"; "$t0"; "$q9"; "$T0"] = [true; true; false; false].
Proof. vm_compute. reflexivity. Qed.

Example String_examples : map String_ [0; 12; -2147483648] = ["0"; "12"; "-2147483648"].
Proof. vm_compute. reflexivity. Qed.

Example liPattern_examples :
  map (exec liPattern) ["li $t0,5"; "LI  $q9 , 0x10"; "li $t0"; "lis $t0,5"; "li $t0,5,6"]
  = [Some ["li $t0,5"; "$t0"; "5"]; Some ["LI  $q9 , 0x10"; "$q9"; "0x10"]; None; None; None].
Proof. vm_compute. reflexivity. Qed.

Example offsetBasePattern_examples :
  map (exec offsetBasePattern) ["0($sp)"; "-4 ($fp)"; "(4)($t0)"; "($t0)"; "msg"]
  = [Some ["0($sp)"; "0"; "$sp"]; Some ["-4 ($fp)"; "-4 "; "$fp"];
     Some ["(4)($t0)"; "(4)"; "$t0"]; None; None].
Proof. vm_compute. reflexivity. Qed.

Example arithmeticPattern_examples :
  map (exec arithmeticPattern) ["add $t2,$t0,$t1"; "Sub $a0 , $a1 ,$a2"; "addi $t0,$t0,1"]
  = [Some ["add $t2,$t0,$t1"; "add"; "$t2"; "$t0"; "$t1"];
     Some ["Sub $a0 , $a1 ,$a2"; "Sub"; "$a0"; "$a1"; "$a2"]; None].
Proof. vm_compute. reflexivity. Qed.

Example commentPattern_example :
  map (fun s => Js.trim (replaceFirst commentPattern "" s)) ["li $t0, 5  # five"; "# only"; "a # b # c"]
  = ["li $t0, 5"; ""; "a"].
Proof. vm_compute. reflexivity. Qed.

Example run_helloWorld :
  observe (runMipsMachineToEnd 100 (initializeMipsMachine helloWorld [] []))
  = Some (Halted, "", 5, 4, String "H" (String "i" (String newline "")), 0).
Proof. vm_compute. reflexivity. Qed.

Example run_sampleProgram :
  match runMipsMachineToEnd 100 (initializeMipsMachine sampleProgram [] []) with
  | Some m =>
      status m = Halted
      /\ instructions (program m)
         = ["li $v0, 4"; "la $a0, message"; "syscall"; "li $v0, 10"; "syscall"]
      /\ labels (program m) !! "main" = Some 0
      /\ dataAddresses (program m) !! "message" = Some 0x10010000
      /\ String.length (output m) = 14%nat
  | None => False
  end.
Proof. vm_compute. repeat split; reflexivity. Qed.

Example firstMatch_examples :
  map firstMatch
    ["add $t2,$t0,$t1"; "ADDI $t0 , $t0 , -1"; "sw $t0, 0($sp)"; "lw $t1, msg";
     "beq $zero,$zero,loop"; "j end"; "SysCall"; "foo $t0,$t1"; "li $t0"]
  = [Some (PArithmetic, ["add $t2,$t0,$t1"; "add"; "$t2"; "$t0"; "$t1"]);
     Some (PAddi, ["ADDI $t0 , $t0 , -1"; "$t0"; "$t0"; "-1"]);
     Some (PSw, ["sw $t0, 0($sp)"; "$t0"; "0($sp)"]);
     Some (PLw, ["lw $t1, msg"; "$t1"; "msg"]);
     Some (PBranch, ["beq $zero,$zero,loop"; "beq"; "$zero"; "$zero"; "loop"]);
     Some (PJump, ["j end"; "end"]);
     Some (PSyscall, ["SysCall"]);
     None; None].
Proof. vm_compute. reflexivity. Qed.

(** Scenarios D and E of the specification. *)
Example run_bad_instruction :
  let m := stepMipsMachine (initializeMipsMachine (inTextSection (onLines ["foo $t0,$t1"])) [] []) in
  status m = Error /\ error m = "Unsupported instruction: foo $t0,$t1" /\ steps m = 1.
Proof. vm_compute. repeat split; reflexivity. Qed.

Example run_unresolved_label :
  let m := stepMipsMachine (initializeMipsMachine (inTextSection (onLines ["j nowhere"])) [] []) in
  status m = Error /\ error m = "Unknown label: nowhere" /\ steps m = 1.
Proof. vm_compute. repeat split; reflexivity. Qed.

(** ** Basic facts *)

Lemma toInt32_range x : int32 (Num.toInt32 x).
Proof.
  unfold int32, Num.toInt32.
  pose proof (Z.mod_pos_bound x (2 ^ 32) ltac:(lia)) as Hb.
  destruct (Z.leb_spec (2 ^ 31) (x mod 2 ^ 32)); lia.
Qed.

Lemma toInt32_congruent x : (Num.toInt32 x - x) mod 2 ^ 32 = 0.
Proof.
  unfold Num.toInt32.
  destruct (Z.leb_spec (2 ^ 31) (x mod 2 ^ 32)).
  - replace (x mod 2 ^ 32 - 2 ^ 32 - x) with (x mod 2 ^ 32 - x + (-1) * 2 ^ 32) by lia.
    rewrite Z.mod_add by lia. rewrite Zminus_mod_idemp_l. rewrite Z.sub_diag. reflexivity.
  - rewrite Zminus_mod_idemp_l. rewrite Z.sub_diag. reflexivity.
Qed.

Lemma toInt32_id x : int32 x -> Num.toInt32 x = x.
Proof.
  unfold int32, Num.toInt32. intros Hx.
  destruct (Z.leb_spec 0 x).
  - rewrite Z.mod_small by lia. destruct (Z.leb_spec (2 ^ 31) x); lia.
  - replace (x mod 2 ^ 32) with (x + 2 ^ 32).
    + destruct (Z.leb_spec (2 ^ 31) (x + 2 ^ 32)); lia.
    + apply Z.mod_unique with (q := -1); lia.
Qed.

Lemma toInt32Number_range x : int32 (Num.toInt32Number x).
Proof.
  destruct x; simpl; try (unfold int32; lia). apply toInt32_range.
Qed.

(** Unfolding of the state operations, down to record fields. *)
Ltac fields :=
  cbn [source program registers memory output status error pc steps
       touchedRegisters touchedMemory
       withRegisters withMemory withOutput withStatus withError withPc withSteps
       withTouchedRegisters withTouchedMemory
       fail resetZero advance appendMipsOutput] in *.

(** What [executeInstruction] can return, as a proof principle: a property
    that holds of every outcome of the executor holds of its result. *)
Lemma executeInstruction_cases (P : MipsMachineState -> Prop) machine inst :
  (forall message, P (fail machine message)) ->
  (forall name value, P (advance (writeMipsRegister machine name value))) ->
  (forall name value key,
      P (advance (touchMemory (writeMipsRegister machine name value) key))) ->
  (forall key value,
      P (advance (touchMemory
           (withMemory machine (<[key := Num.toInt32 value]> (memory machine))) key))) ->
  (forall target, P (resetZero (withPc machine target))) ->
  (forall text, P (resetZero (let m := appendMipsOutput machine text in
                              match status m with Halted => m | _ => withPc m (pc m + 1) end))) ->
  P (resetZero (withStatus machine Halted)) ->
  P (executeInstruction machine inst).
Proof.
  intros Hfail Hwrite Hlw Hsw Hjump Hout Hhalt.
  unfold executeInstruction.
  repeat match goal with
         | |- P (match ?x with _ => _ end) => destruct x
         | |- P (if ?x then _ else _) => destruct x
         end;
    first [ apply Hfail | apply Hwrite | apply Hlw | apply Hsw | apply Hjump
          | apply Hhalt | apply Hout | apply (Hjump (pc machine + 1)) ].
Qed.

(** ** The state operations, field by field *)

Lemma writeMipsRegister_registers machine name value :
  registers (writeMipsRegister machine name value)
  = if writable name then <[name := Num.toInt32 value]> (registers machine)
    else registers machine.
Proof.
  unfold writeMipsRegister, writable.
  destruct (isRegister name), (String.eqb name "$zero"); cbn [negb orb andb]; try reflexivity.
  fields. destruct (includes _ _); reflexivity.
Qed.

Lemma writeMipsRegister_others machine name value :
  let machine' := writeMipsRegister machine name value in
  program machine' = program machine /\ memory machine' = memory machine
  /\ output machine' = output machine /\ status machine' = status machine
  /\ error machine' = error machine /\ pc machine' = pc machine
  /\ steps machine' = steps machine /\ touchedMemory machine' = touchedMemory machine.
Proof.
  unfold writeMipsRegister.
  destruct (negb (isRegister name) || String.eqb name "$zero"); [tauto|].
  fields. destruct (includes _ _); fields; tauto.
Qed.

Lemma touchMemory_others machine key :
  let machine' := touchMemory machine key in
  program machine' = program machine /\ registers machine' = registers machine
  /\ memory machine' = memory machine
  /\ output machine' = output machine /\ status machine' = status machine
  /\ error machine' = error machine /\ pc machine' = pc machine
  /\ steps machine' = steps machine.
Proof.
  unfold touchMemory. destruct (includes _ _); fields; tauto.
Qed.

(** ** One step *)

Lemma step_executes m :
  executes m = true ->
  stepMipsMachine m = executeInstruction (withSteps m (steps m + 1)) (fetched m).
Proof.
  unfold executes, stepMipsMachine, fetched. intros H.
  destruct (status m); try discriminate.
  destruct (_ || _); [discriminate|].
  destruct (MIPS_MAX_STEPS <=? steps m); [discriminate|]. reflexivity.
Qed.

Lemma step_idle m :
  executes m = false ->
  status (stepMipsMachine m) <> Ready
  /\ program (stepMipsMachine m) = program m
  /\ registers (stepMipsMachine m) = registers m
  /\ memory (stepMipsMachine m) = memory m
  /\ pc (stepMipsMachine m) = pc m
  /\ steps (stepMipsMachine m) = steps m.
Proof.
  unfold executes, stepMipsMachine. intros H.
  destruct (status m) eqn:Hs; try (rewrite Hs; repeat split; congruence).
  destruct (_ || _); [fields; repeat split; congruence|].
  destruct (MIPS_MAX_STEPS <=? steps m); [fields; repeat split; congruence|].
  discriminate.
Qed.

Lemma executeInstruction_steps machine inst :
  steps (executeInstruction machine inst) = steps machine.
Proof.
  apply executeInstruction_cases; intros; fields; try reflexivity.
  - apply writeMipsRegister_others.
  - pose proof (touchMemory_others (writeMipsRegister machine name value) key) as H.
    cbv zeta in H. destruct H as (_ & _ & _ & _ & _ & _ & _ & ->).
    apply writeMipsRegister_others.
  - pose proof (touchMemory_others
      (withMemory machine (<[key:=Num.toInt32 value]> (memory machine))) key) as H.
    cbv zeta in H. destruct H as (_ & _ & _ & _ & _ & _ & _ & ->). reflexivity.
  - destruct (status machine); reflexivity.
Qed.

Lemma executeInstruction_program machine inst :
  program (executeInstruction machine inst) = program machine.
Proof.
  apply executeInstruction_cases; intros; fields; try reflexivity.
  - apply writeMipsRegister_others.
  - pose proof (touchMemory_others (writeMipsRegister machine name value) key) as H.
    cbv zeta in H. destruct H as (-> & _).
    apply writeMipsRegister_others.
  - pose proof (touchMemory_others
      (withMemory machine (<[key:=Num.toInt32 value]> (memory machine))) key) as H.
    cbv zeta in H. destruct H as (-> & _). reflexivity.
  - destruct (status machine); reflexivity.
Qed.

Lemma step_program m : program (stepMipsMachine m) = program m.
Proof.
  destruct (executes m) eqn:He.
  - rewrite step_executes by assumption. rewrite executeInstruction_program. reflexivity.
  - apply step_idle; assumption.
Qed.

Lemma step_steps m :
  steps (stepMipsMachine m) = if executes m then steps m + 1 else steps m.
Proof.
  destruct (executes m) eqn:He.
  - rewrite step_executes by assumption. rewrite executeInstruction_steps. reflexivity.
  - apply step_idle; assumption.
Qed.

Lemma step_still_ready m :
  status (stepMipsMachine m) = Ready -> executes m = true.
Proof.
  intros H. destruct (executes m) eqn:He; [reflexivity|].
  apply step_idle in He. tauto.
Qed.

Lemma executes_bound m : executes m = true -> steps m < MIPS_MAX_STEPS.
Proof.
  unfold executes. destruct (status m); try discriminate.
  intros H. apply andb_true_iff in H as [_ H].
  apply negb_true_iff, Z.leb_gt in H. exact H.
Qed.

(** ** The driver *)

Lemma run_terminates fuel : forall m,
  Z.max 0 (MIPS_MAX_STEPS - steps m) < Z.of_nat fuel ->
  exists r, runMipsMachineToEnd fuel m = Some r
            /\ status r <> Ready
            /\ steps r <= Z.max MIPS_MAX_STEPS (steps m).
Proof.
  induction fuel as [|fuel IH]; intros m Hfuel; [lia|].
  cbn [runMipsMachineToEnd].
  destruct (status m) eqn:Hs; try (exists m; rewrite Hs; split; [reflexivity|split; [congruence|lia]]).
  destruct (status (stepMipsMachine m)) eqn:Hs'.
  - pose proof (step_still_ready m Hs') as He.
    pose proof (executes_bound m He) as Hb.
    pose proof (step_steps m) as Hst. rewrite He in Hst.
    destruct (IH (stepMipsMachine m)) as (r & Hr & Hnr & Hle); [lia|].
    exists r. split; [exact Hr|]. split; [exact Hnr|lia].
  - exists (stepMipsMachine m). split.
    + destruct fuel; cbn [runMipsMachineToEnd]; rewrite Hs'; reflexivity.
    + split; [congruence|]. rewrite step_steps.
      destruct (executes m) eqn:He; [apply executes_bound in He|]; lia.
  - exists (stepMipsMachine m). split.
    + destruct fuel; cbn [runMipsMachineToEnd]; rewrite Hs'; reflexivity.
    + split; [congruence|]. rewrite step_steps.
      destruct (executes m) eqn:He; [apply executes_bound in He|]; lia.
Qed.

Lemma initializeMipsMachine_steps src regs mem :
  steps (initializeMipsMachine src regs mem) = 0.
Proof. unfold initializeMipsMachine. destruct (parseMipsProgram src); reflexivity. Qed.

(** ** The zero register *)

Lemma zeroRegisters_lookup r v : zeroRegisters !! r = Some v -> v = 0.
Proof.
  unfold zeroRegisters. intros H.
  apply elem_of_list_to_map_2, list_elem_of_In, in_map_iff in H.
  destruct H as (x & Hx & _). congruence.
Qed.

Lemma initializeMipsMachine_zero src regs mem :
  registers (initializeMipsMachine src regs mem) !! "$zero" = Some 0.
Proof.
  unfold initializeMipsMachine. destruct (parseMipsProgram src); cbn [registers].
  - apply lookup_insert_eq.
  - vm_compute. reflexivity.
Qed.

Lemma executeInstruction_zero machine inst :
  registers machine !! "$zero" = Some 0 ->
  registers (executeInstruction machine inst) !! "$zero" = Some 0.
Proof.
  intros H. apply executeInstruction_cases; intros; fields;
    first [ exact H | apply lookup_insert_eq ].
Qed.

Lemma step_zero m :
  registers m !! "$zero" = Some 0 ->
  registers (stepMipsMachine m) !! "$zero" = Some 0.
Proof.
  intros H. destruct (executes m) eqn:He.
  - rewrite step_executes by assumption. apply executeInstruction_zero. exact H.
  - apply step_idle in He as (_ & _ & -> & _). exact H.
Qed.

Lemma reachable_zero m : reachable m -> registers m !! "$zero" = Some 0.
Proof.
  induction 1 as [src regs mem | m _ IH].
  - apply initializeMipsMachine_zero.
  - apply step_zero, IH.
Qed.

(** An instruction that completes leaves 0 in the zero register, whatever
    the register held before. *)
Lemma executeInstruction_resets_zero machine inst :
  status (executeInstruction machine inst) <> Error ->
  registers (executeInstruction machine inst) !! "$zero" = Some 0.
Proof.
  apply (executeInstruction_cases
           (fun s => status s <> Error -> registers s !! "$zero" = Some 0));
    intros; fields; first [ congruence | apply lookup_insert_eq ].
Qed.

(** C1. In every reachable machine state the zero register holds 0 before a
    call of the step function and after it, whatever the instructions
    executed attempt to write. *)
Theorem zero_register_invariant m :
  reachable m ->
  registers m !! "$zero" = Some 0
  /\ registers (stepMipsMachine m) !! "$zero" = Some 0.
Proof.
  intros Hm. split.
  - apply reachable_zero, Hm.
  - apply reachable_zero, reachable_step, Hm.
Qed.

(** C2. From every state made by initializeMipsMachine the run-to-end loop
    returns, after at most MIPS_MAX_STEPS + 1 calls of the step function,
    a state that is halted or in error and whose step counter is at most
    MIPS_MAX_STEPS. *)
Theorem runToEnd_terminates src regs mem :
  exists r,
    runMipsMachineToEnd (Z.to_nat (MIPS_MAX_STEPS + 1))
      (initializeMipsMachine src regs mem) = Some r
    /\ (status r = Halted \/ status r = Error)
    /\ steps r <= MIPS_MAX_STEPS.
Proof.
  destruct (run_terminates (Z.to_nat (MIPS_MAX_STEPS + 1))
              (initializeMipsMachine src regs mem)) as (r & Hr & Hs & Hle).
  - rewrite initializeMipsMachine_steps. unfold MIPS_MAX_STEPS. lia.
  - exists r. split; [exact Hr|]. split.
    + destruct (status r); [congruence | left | right]; reflexivity.
    + rewrite initializeMipsMachine_steps in Hle. unfold MIPS_MAX_STEPS in *. lia.
Qed.

(** C4, as the code has it. A call of the step function adds one to the step
    counter exactly when it executes an instruction (the machine is ready,
    the pc is in range and the bound is not reached), whether the
    instruction succeeds or fails; a call that halts the machine because
    the pc is out of range, that reports the timeout, or that finds the
    machine already halted or in error leaves the counter as it is. *)
Theorem step_counter m :
  steps (stepMipsMachine m) = if executes m then steps m + 1 else steps m.
Proof.
  destruct (executes m) eqn:He.
  - rewrite step_executes by exact He.
    rewrite executeInstruction_steps. reflexivity.
  - destruct (step_idle m He) as (_ & _ & _ & _ & _ & Hsteps). exact Hsteps.
Qed.

(** ** The 32-bit range of registers and memory *)

Lemma insert_int32 (regs : gmap string Z) k x :
  int32 x -> (forall r v, regs !! r = Some v -> int32 v) ->
  forall r v, <[k := x]> regs !! r = Some v -> int32 v.
Proof.
  intros Hx Hregs r v. rewrite lookup_insert. destruct (decide (k = r)).
  - intros [= <-]. exact Hx.
  - apply Hregs.
Qed.

Lemma overrideRegisters_int32 regs : forall acc,
  (forall r v, acc !! r = Some v -> int32 v) ->
  forall r v, fold_left overrideRegister regs acc !! r = Some v -> int32 v.
Proof.
  induction regs as [|[reg value] regs IH]; intros acc Hacc; [exact Hacc|].
  cbn [fold_left]. apply IH. unfold overrideRegister.
  destruct (_ && _); [|exact Hacc].
  apply insert_int32; [apply toInt32Number_range | exact Hacc].
Qed.

Lemma overrideMemory_int32 mem : forall acc,
  (forall k v, acc !! k = Some v -> int32 v) ->
  forall k v, fold_left overrideMemory mem acc !! k = Some v -> int32 v.
Proof.
  induction mem as [|[key value] mem IH]; intros acc Hacc; [exact Hacc|].
  cbn [fold_left]. apply IH. unfold overrideMemory.
  destruct (parseMipsNumber key); [|exact Hacc].
  apply insert_int32; [apply toInt32Number_range | exact Hacc].
Qed.

Lemma zero_int32 : int32 0.
Proof. unfold int32. lia. Qed.

Lemma initializeMipsMachine_int32 src regs mem :
  wordsInRange (initializeMipsMachine src regs mem).
Proof.
  unfold wordsInRange, initializeMipsMachine.
  destruct (parseMipsProgram src); cbn [registers memory]; split.
  - apply insert_int32; [apply zero_int32|].
    apply overrideRegisters_int32. intros r v H.
    apply zeroRegisters_lookup in H as ->. apply zero_int32.
  - apply overrideMemory_int32. intros k v H. rewrite lookup_empty in H. discriminate.
  - intros r v H. apply zeroRegisters_lookup in H as ->. apply zero_int32.
  - intros k v H. rewrite lookup_empty in H. discriminate.
Qed.

Lemma writeMipsRegister_int32 machine name value :
  wordsInRange machine -> wordsInRange (writeMipsRegister machine name value).
Proof.
  intros [Hr Hm]. split.
  - rewrite writeMipsRegister_registers. destruct (writable name); [|exact Hr].
    apply insert_int32; [apply toInt32_range | exact Hr].
  - destruct (writeMipsRegister_others machine name value) as (_ & -> & _). exact Hm.
Qed.

Lemma touchMemory_int32 machine key :
  wordsInRange machine -> wordsInRange (touchMemory machine key).
Proof.
  intros H. unfold wordsInRange.
  destruct (touchMemory_others machine key) as (_ & -> & -> & _). exact H.
Qed.

Lemma advance_int32 machine : wordsInRange machine -> wordsInRange (advance machine).
Proof.
  intros [Hr Hm]. split; fields; [|exact Hm].
  apply insert_int32; [apply zero_int32 | exact Hr].
Qed.

Lemma executeInstruction_int32 machine inst :
  wordsInRange machine -> wordsInRange (executeInstruction machine inst).
Proof.
  intros H. pose proof H as [Hr Hm].
  apply executeInstruction_cases; intros.
  - exact H.
  - apply advance_int32, writeMipsRegister_int32, H.
  - apply advance_int32, touchMemory_int32, writeMipsRegister_int32, H.
  - apply advance_int32, touchMemory_int32. split; fields; [exact Hr|].
    apply insert_int32; [apply toInt32_range | exact Hm].
  - split; fields; [|exact Hm]. apply insert_int32; [apply zero_int32 | exact Hr].
  - split; fields; destruct (status machine); fields; try exact Hm;
      (apply insert_int32; [apply zero_int32 | exact Hr]).
  - split; fields; [|exact Hm]. apply insert_int32; [apply zero_int32 | exact Hr].
Qed.

Lemma step_int32 m : wordsInRange m -> wordsInRange (stepMipsMachine m).
Proof.
  intros H. destruct (executes m) eqn:He.
  - rewrite step_executes by assumption. apply executeInstruction_int32. exact H.
  - unfold wordsInRange. apply step_idle in He as (_ & _ & -> & -> & _). exact H.
Qed.

(** C10. In every state made by initializeMipsMachine, for any overrides of
    the caller, and in every state a call of the step function makes from
    such a state, every register value and every stored memory word lies in
    the 32-bit signed range. *)
Theorem int32_invariant m :
  reachable m ->
  (forall r v, registers m !! r = Some v -> -2147483648 <= v <= 2147483647)
  /\ (forall k v, memory m !! k = Some v -> -2147483648 <= v <= 2147483647).
Proof.
  induction 1 as [src regs mem | m _ IH].
  - apply initializeMipsMachine_int32.
  - apply step_int32, IH.
Qed.

(** ** The executor, pattern by pattern *)

Ltac by_first_match H :=
  unfold firstMatch in H; unfold executeInstruction;
  repeat (match type of H with
          | context [match exec ?p ?i with _ => _ end] => destruct (exec p i)
          | context [if test ?p ?i then _ else _] => destruct (test p i)
          end; try discriminate H);
  try (injection H as <-); reflexivity.

Lemma execute_li machine inst li :
  firstMatch inst = Some (PLi, li) ->
  executeInstruction machine inst
  = match parseMipsNumber (at_ li 2) with
    | None => fail machine ("Invalid immediate value: " ++ at_ li 2)
    | Some value => advance (writeMipsRegister machine (at_ li 1) value)
    end.
Proof. intros H. by_first_match H. Qed.

Lemma execute_move machine inst move :
  firstMatch inst = Some (PMove, move) ->
  executeInstruction machine inst
  = advance (writeMipsRegister machine (at_ move 1)
               (readMipsRegister machine (at_ move 2))).
Proof. intros H. by_first_match H. Qed.

Lemma execute_addi machine inst addi :
  firstMatch inst = Some (PAddi, addi) ->
  executeInstruction machine inst
  = match parseMipsNumber (at_ addi 3) with
    | None => fail machine ("Invalid immediate value: " ++ at_ addi 3)
    | Some immediate =>
        advance (writeMipsRegister machine (at_ addi 1)
                   (Num.toInt32 (readMipsRegister machine (at_ addi 2) + immediate)))
    end.
Proof. intros H. by_first_match H. Qed.

Lemma execute_arithmetic machine inst arithmetic :
  firstMatch inst = Some (PArithmetic, arithmetic) ->
  executeInstruction machine inst
  = advance (writeMipsRegister machine (at_ arithmetic 2)
      (Num.toInt32
         (if String.eqb (Js.toLowerCase (at_ arithmetic 1)) "add"
          then readMipsRegister machine (at_ arithmetic 3)
               + readMipsRegister machine (at_ arithmetic 4)
          else readMipsRegister machine (at_ arithmetic 3)
               - readMipsRegister machine (at_ arithmetic 4)))).
Proof. intros H. by_first_match H. Qed.

Lemma execute_lw machine inst lw :
  firstMatch inst = Some (PLw, lw) ->
  executeInstruction machine inst
  = match parseMipsAddressOperand machine (Js.trim (at_ lw 2)) with
    | None => fail machine ("Invalid memory operand: " ++ at_ lw 2)
    | Some address =>
        advance (touchMemory
          (writeMipsRegister machine (at_ lw 1)
             (default 0 (memory machine !! String_ address)))
          (String_ address))
    end.
Proof. intros H. by_first_match H. Qed.

Lemma execute_sw machine inst sw :
  firstMatch inst = Some (PSw, sw) ->
  executeInstruction machine inst
  = match parseMipsAddressOperand machine (Js.trim (at_ sw 2)) with
    | None => fail machine ("Invalid memory operand: " ++ at_ sw 2)
    | Some address =>
        advance (touchMemory
          (withMemory machine
             (<[String_ address := Num.toInt32 (readMipsRegister machine (at_ sw 1))]>
                (memory machine)))
          (String_ address))
    end.
Proof. intros H. by_first_match H. Qed.

Lemma execute_branch machine inst branch :
  firstMatch inst = Some (PBranch, branch) ->
  executeInstruction machine inst
  = let lhs := readMipsRegister machine (at_ branch 2) in
    let rhs := readMipsRegister machine (at_ branch 3) in
    if (if String.eqb (Js.toLowerCase (at_ branch 1)) "beq"
        then lhs =? rhs else negb (lhs =? rhs))
    then match labels (program machine) !! at_ branch 4 with
         | None => fail machine ("Unknown label: " ++ at_ branch 4)
         | Some target => resetZero (withPc machine target)
         end
    else advance machine.
Proof. intros H. by_first_match H. Qed.

(** Only the store instruction changes the memory. *)
Lemma execute_memory machine inst :
  (forall sw, firstMatch inst <> Some (PSw, sw)) ->
  memory (executeInstruction machine inst) = memory machine.
Proof.
  intros H. unfold firstMatch in H. unfold executeInstruction.
  repeat match goal with
         | |- context [match exec ?p ?i with _ => _ end] =>
             lazymatch p with swPattern => fail | _ => idtac end;
             destruct (exec p i)
         end;
    try (destruct (exec swPattern inst) as [sw|]; [exfalso; apply (H sw); reflexivity|]);
    repeat match goal with
           | |- memory (match ?x with _ => _ end) = _ => destruct x
           | |- memory (if ?x then _ else _) = _ => destruct x
           end;
    fields;
    repeat match goal with
           | |- context [memory (touchMemory ?m ?k)] =>
               let E := fresh in
               destruct (touchMemory_others m k) as (_ & _ & E & _); rewrite E; clear E
           | |- context [memory (writeMipsRegister ?m ?n ?v)] =>
               let E := fresh in
               destruct (writeMipsRegister_others m n v) as (_ & E & _); rewrite E; clear E
           end;
    try reflexivity;
    destruct (status machine); reflexivity.
Qed.

(** ** The scenarios *)

(** C3, as stated: without a [.text] directive the loader collects no
    instruction, the machine is made in the error status and nothing runs. *)
Lemma scenarioB_without_directive :
  exists r,
    runMipsMachineToEnd (Z.to_nat (MIPS_MAX_STEPS + 1))
      (initializeMipsMachine scenarioB [] []) = Some r
    /\ status r = Error
    /\ error r = "No MIPS instructions found in .text section."
    /\ registers r !! "$t2" = Some 0
    /\ ~ (registers r !! "$t2" = Some 12 /\ status r = Halted).
Proof.
  exists (initializeMipsMachine scenarioB [] []).
  split; [vm_compute; reflexivity|].
  split; [vm_compute; reflexivity|].
  split; [vm_compute; reflexivity|].
  split; [vm_compute; reflexivity|].
  intros [_ H]. vm_compute in H. discriminate H.
Qed.

(** C3, as the code has it. The three instructions of scenario B, placed in
    the text section by a [.text] line, run to a halted state in which $t2
    holds 12. *)
Theorem scenarioB_in_text_section :
  exists r,
    runMipsMachineToEnd (Z.to_nat (MIPS_MAX_STEPS + 1))
      (initializeMipsMachine (inTextSection scenarioB) [] []) = Some r
    /\ registers r !! "$t2" = Some 12
    /\ status r = Halted.
Proof.
  exists (stepN 4 (initializeMipsMachine (inTextSection scenarioB) [] [])).
  split; [vm_compute; reflexivity|].
  split; vm_compute; reflexivity.
Qed.

(** C4, as stated: the call that halts the machine because the pc has left
    the program does not count a step. *)
Lemma step_counter_halting_call :
  let m := stepN 3 (initializeMipsMachine (inTextSection scenarioB) [] []) in
  status m = Ready
  /\ status (stepMipsMachine m) = Halted
  /\ steps m = 3
  /\ steps (stepMipsMachine m) = 3
  /\ steps (stepMipsMachine m) <> steps m + 1.
Proof.
  cbv zeta.
  split; [vm_compute; reflexivity|].
  split; [vm_compute; reflexivity|].
  split; [vm_compute; reflexivity|].
  split; [vm_compute; reflexivity|].
  vm_compute. discriminate.
Qed.

Lemma timeout_step m :
  status m = Ready ->
  0 <= pc m < Z.of_nat (length (instructions (program m))) ->
  MIPS_MAX_STEPS <= steps m ->
  stepMipsMachine m = withError (withStatus m Error) "MIPS execution timed out.".
Proof.
  intros Hs Hpc Hsteps. unfold stepMipsMachine. rewrite Hs.
  destruct (Z.ltb_spec (pc m) 0); [lia|].
  destruct (Z.leb_spec (Z.of_nat (length (instructions (program m)))) (pc m)); [lia|].
  cbn [orb].
  destruct (Z.leb_spec MIPS_MAX_STEPS (steps m)); [reflexivity | lia].
Qed.

Lemma executes_true m :
  status m = Ready ->
  0 <= pc m < Z.of_nat (length (instructions (program m))) ->
  steps m < MIPS_MAX_STEPS ->
  executes m = true.
Proof.
  intros Hs Hpc Hsteps. unfold executes. rewrite Hs.
  destruct (Z.ltb_spec (pc m) 0); [lia|].
  destruct (Z.leb_spec (Z.of_nat (length (instructions (program m)))) (pc m)); [lia|].
  destruct (Z.leb_spec MIPS_MAX_STEPS (steps m)); [lia | reflexivity].
Qed.

(** A branch of the zero register against itself to a known label is taken. *)
Lemma branch_to_self m target :
  executes m = true ->
  fetched m = "beq $zero,$zero,loop" ->
  labels (program m) !! "loop" = Some target ->
  stepMipsMachine m = resetZero (withPc (withSteps m (steps m + 1)) target).
Proof.
  intros He Hf Hl. rewrite step_executes by assumption. rewrite Hf.
  rewrite (execute_branch _ _ ["beq $zero,$zero,loop"; "beq"; "$zero"; "$zero"; "loop"])
    by (vm_compute; reflexivity).
  cbv zeta. cbn [at_ nth].
  replace (String.eqb (Js.toLowerCase "beq") "beq") with true by (vm_compute; reflexivity).
  rewrite Z.eqb_refl. fields. rewrite Hl. reflexivity.
Qed.

Lemma self_loop_times_out n : forall m,
  status m = Ready ->
  pc m = 0 ->
  instructions (program m) = ["beq $zero,$zero,loop"] ->
  labels (program m) !! "loop" = Some 0 ->
  Z.of_nat n = MIPS_MAX_STEPS - steps m ->
  exists r, runMipsMachineToEnd (S n) m = Some r
            /\ status r = Error
            /\ steps r = MIPS_MAX_STEPS
            /\ error r = "MIPS execution timed out.".
Proof.
  induction n as [|n IH]; intros m Hs Hpc Hi Hl Hn.
  - exists (withError (withStatus m Error) "MIPS execution timed out.").
    cbn [runMipsMachineToEnd]. rewrite Hs.
    rewrite timeout_step; [| assumption | rewrite Hpc, Hi; cbn; lia | lia].
    fields. repeat split; lia.
  - cbn [runMipsMachineToEnd]. rewrite Hs.
    rewrite (branch_to_self m 0).
    + apply IH; fields; try assumption; try reflexivity. lia.
    + apply executes_true; [assumption | rewrite Hpc, Hi; cbn; lia | lia].
    + unfold fetched. rewrite Hpc, Hi. reflexivity.
    + assumption.
Qed.

(** C5, as stated: without a [.text] directive the label and the branch are
    read as data, no instruction is loaded and no step is made. *)
Lemma scenarioC_without_directive :
  exists r,
    runMipsMachineToEnd (Z.to_nat (MIPS_MAX_STEPS + 1))
      (initializeMipsMachine scenarioC [] []) = Some r
    /\ steps r = 0
    /\ error r = "No MIPS instructions found in .text section."
    /\ steps r <> 10000.
Proof.
  exists (initializeMipsMachine scenarioC [] []).
  split; [vm_compute; reflexivity|].
  split; [vm_compute; reflexivity|].
  split; [vm_compute; reflexivity|].
  vm_compute. discriminate.
Qed.

(** C5, as the code has it. The loop of scenario C, placed in the text
    section, runs to the error status with 10000 steps counted and the
    timeout message; and any call of the step function on a ready state
    with the pc in range and 10000 steps or more counted gives the error
    status with that message. *)
Theorem step_bound_timeout :
  (exists r,
     runMipsMachineToEnd (Z.to_nat (MIPS_MAX_STEPS + 1))
       (initializeMipsMachine (inTextSection scenarioC) [] []) = Some r
     /\ status r = Error
     /\ steps r = 10000
     /\ error r = "MIPS execution timed out.")
  /\ (forall m,
        status m = Ready ->
        0 <= pc m < Z.of_nat (length (instructions (program m))) ->
        10000 <= steps m ->
        status (stepMipsMachine m) = Error
        /\ error (stepMipsMachine m) = "MIPS execution timed out."
        /\ steps (stepMipsMachine m) = steps m).
Proof.
  split.
  - replace (Z.to_nat (MIPS_MAX_STEPS + 1)) with (S (Z.to_nat MIPS_MAX_STEPS))
      by (unfold MIPS_MAX_STEPS; lia).
    apply self_loop_times_out; vm_compute; reflexivity.
  - intros m Hs Hpc Hsteps. rewrite timeout_step by assumption.
    fields. repeat split; reflexivity.
Qed.

Lemma step_bound_timeout_witness :
  let m := withSteps (initializeMipsMachine (inTextSection scenarioC) [] []) 10000 in
  status (stepMipsMachine m) = Error
  /\ error (stepMipsMachine m) = "MIPS execution timed out."
  /\ steps (stepMipsMachine m) = steps m.
Proof.
  apply (proj2 step_bound_timeout).
  - vm_compute. reflexivity.
  - split; vm_compute; [discriminate | reflexivity].
  - vm_compute. discriminate.
Defined.

(** ** Loads and stores *)

(** Replace a closed subterm by its value. *)
Ltac evaluate t :=
  let v := eval vm_compute in t in
  replace t with v by (vm_compute; reflexivity).

Lemma readMipsRegister_withSteps m k name :
  readMipsRegister (withSteps m k) name = readMipsRegister m name.
Proof. reflexivity. Qed.

Lemma parseMipsAddressOperand_withSteps m k operand :
  parseMipsAddressOperand (withSteps m k) operand = parseMipsAddressOperand m operand.
Proof. reflexivity. Qed.

(** The operand [0($sp)] designates the address held by $sp. *)
Lemma parseMipsAddressOperand_sp machine :
  parseMipsAddressOperand machine "0($sp)"
  = Some (sanitizeMipsMemoryAddress (readMipsRegister machine "$sp" + 0)).
Proof.
  unfold parseMipsAddressOperand.
  evaluate (exec offsetBasePattern "0($sp)"). cbn [at_ nth].
  evaluate (parseMipsNumber (Js.trim "0")).
  evaluate (isRegister (Js.trim "$sp")).
  evaluate (Js.trim "$sp"). reflexivity.
Qed.

Lemma step_sw_sp m :
  executes m = true ->
  fetched m = "sw $t0, 0($sp)" ->
  let key := String_ (sanitizeMipsMemoryAddress (readMipsRegister m "$sp" + 0)) in
  status (stepMipsMachine m) = Ready
  /\ program (stepMipsMachine m) = program m
  /\ pc (stepMipsMachine m) = pc m + 1
  /\ steps (stepMipsMachine m) = steps m + 1
  /\ registers (stepMipsMachine m) = <["$zero" := 0]> (registers m)
  /\ memory (stepMipsMachine m)
     = <[key := Num.toInt32 (readMipsRegister m "$t0")]> (memory m).
Proof.
  intros He Hf key. rewrite step_executes by assumption. rewrite Hf.
  rewrite (execute_sw _ _ ["sw $t0, 0($sp)"; "$t0"; "0($sp)"]) by (vm_compute; reflexivity).
  cbn [at_ nth]. evaluate (Js.trim "0($sp)").
  rewrite parseMipsAddressOperand_sp.
  rewrite !readMipsRegister_withSteps. fold key.
  assert (Hs : status m = Ready).
  { unfold executes in He. destruct (status m); [reflexivity | discriminate | discriminate]. }
  match goal with
  | |- context [touchMemory ?x ?k] =>
      destruct (touchMemory_others x k) as (Hp & Hr & Hm & _ & Hst & _ & Hpc & Hsteps)
  end.
  fields. rewrite Hst, Hp, Hpc, Hsteps, Hr, Hm. fields. rewrite Hs.
  repeat split; reflexivity.
Qed.

Lemma step_lw_sp m :
  executes m = true ->
  fetched m = "lw $t1, 0($sp)" ->
  let key := String_ (sanitizeMipsMemoryAddress (readMipsRegister m "$sp" + 0)) in
  status (stepMipsMachine m) = Ready
  /\ pc (stepMipsMachine m) = pc m + 1
  /\ registers (stepMipsMachine m)
     = <["$zero" := 0]>
         (<["$t1" := Num.toInt32 (default 0 (memory m !! key))]> (registers m)).
Proof.
  intros He Hf key. rewrite step_executes by assumption. rewrite Hf.
  rewrite (execute_lw _ _ ["lw $t1, 0($sp)"; "$t1"; "0($sp)"]) by (vm_compute; reflexivity).
  cbn [at_ nth]. evaluate (Js.trim "0($sp)").
  rewrite parseMipsAddressOperand_sp.
  rewrite !readMipsRegister_withSteps. fold key.
  assert (Hs : status m = Ready).
  { unfold executes in He. destruct (status m); [reflexivity | discriminate | discriminate]. }
  match goal with
  | |- context [touchMemory ?x ?k] =>
      destruct (touchMemory_others x k) as (_ & Hr & _ & _ & Hst & _ & Hpc & _)
  end.
  match goal with
  | |- context [writeMipsRegister ?x ?n ?v] =>
      destruct (writeMipsRegister_others x n v) as (_ & _ & _ & Hst' & _ & Hpc' & _);
      pose proof (writeMipsRegister_registers x n v) as Hr'
  end.
  replace (writable "$t1") with true in Hr' by (vm_compute; reflexivity).
  fields. rewrite Hst, Hpc, Hr, Hst', Hpc', Hr'. fields. rewrite Hs.
  repeat split; reflexivity.
Qed.

(** C6. On a ready state whose next two instructions are [sw $t0, 0($sp)]
    and [lw $t1, 0($sp)], both within the step bound, the two steps leave in
    the register file, under $t1, the value that it held under $t0 before
    the store, whatever 32-bit value that is and whatever $sp holds; $t0
    still holds it, the word stored at the address in $sp is that value, and
    the machine is ready two instructions further. *)
Theorem store_load_roundtrip m v :
  status m = Ready ->
  0 <= pc m ->
  pc m + 1 < Z.of_nat (length (instructions (program m))) ->
  nth (Z.to_nat (pc m)) (instructions (program m)) "" = "sw $t0, 0($sp)" ->
  nth (Z.to_nat (pc m + 1)) (instructions (program m)) "" = "lw $t1, 0($sp)" ->
  steps m + 1 < MIPS_MAX_STEPS ->
  registers m !! "$t0" = Some v ->
  int32 v ->
  let m2 := stepMipsMachine (stepMipsMachine m) in
  registers m2 !! "$t1" = Some v
  /\ registers m2 !! "$t0" = Some v
  /\ (forall sp, registers m !! "$sp" = Some sp ->
        memory m2 !! String_ (sanitizeMipsMemoryAddress sp) = Some v)
  /\ status m2 = Ready
  /\ pc m2 = pc m + 2.
Proof.
  intros Hs Hpc0 Hpc1 Hsw Hlw Hsteps Hv Hrange m2. subst m2.
  assert (He : executes m = true) by (apply executes_true; [assumption | lia | lia]).
  destruct (step_sw_sp m He Hsw) as (Hs1 & Hp1 & Hpc & Hst & Hr & Hm).
  set (m1 := stepMipsMachine m) in *.
  assert (He1 : executes m1 = true).
  { apply executes_true; [assumption | rewrite Hp1, Hpc; lia | lia]. }
  assert (Hf1 : fetched m1 = "lw $t1, 0($sp)").
  { unfold fetched. rewrite Hp1, Hpc. exact Hlw. }
  destruct (step_lw_sp m1 He1 Hf1) as (Hs2 & Hpc2 & Hr2).
  assert (Hsp : readMipsRegister m1 "$sp" = readMipsRegister m "$sp").
  { unfold readMipsRegister. rewrite Hr. rewrite lookup_insert_ne by discriminate. reflexivity. }
  assert (Ht0 : readMipsRegister m "$t0" = v).
  { unfold readMipsRegister. rewrite Hv. reflexivity. }
  assert (Hm2 : memory (stepMipsMachine m1) = memory m1).
  { rewrite step_executes by exact He1. rewrite execute_memory; [reflexivity|].
    intros sw E. rewrite Hf1 in E. vm_compute in E. discriminate E. }
  rewrite Ht0, (toInt32_id v) in Hm by exact Hrange.
  split; [|split; [|split; [|split]]].
  - rewrite Hr2.
    rewrite lookup_insert_ne by discriminate. rewrite lookup_insert_eq.
    rewrite Hsp, Hm, lookup_insert_eq. cbn [default from_option id].
    rewrite (toInt32_id v) by exact Hrange. reflexivity.
  - rewrite Hr2, !lookup_insert_ne by discriminate.
    rewrite Hr, lookup_insert_ne by discriminate. exact Hv.
  - intros sp Hspv. rewrite Hm2, Hm.
    unfold readMipsRegister. rewrite Hspv. cbn [default from_option id].
    rewrite Z.add_0_r. apply lookup_insert_eq.
  - exact Hs2.
  - rewrite Hpc2, Hpc. lia.
Qed.

Lemma store_load_roundtrip_witness :
  let m := stepN 2 (initializeMipsMachine roundtripProgram [] []) in
  let m2 := stepMipsMachine (stepMipsMachine m) in
  registers m2 !! "$t1" = Some (-5)
  /\ registers m2 !! "$t0" = Some (-5)
  /\ (forall sp, registers m !! "$sp" = Some sp ->
        memory m2 !! String_ (sanitizeMipsMemoryAddress sp) = Some (-5))
  /\ status m2 = Ready
  /\ pc m2 = pc m + 2.
Proof.
  apply store_load_roundtrip.
  - vm_compute. reflexivity.
  - vm_compute. discriminate.
  - vm_compute. reflexivity.
  - vm_compute. reflexivity.
  - vm_compute. reflexivity.
  - vm_compute. reflexivity.
  - vm_compute. reflexivity.
  - split; vm_compute; discriminate.
Defined.

Example roundtripProgram_run :
  let m := stepN 4 (initializeMipsMachine roundtripProgram [] []) in
  readMipsRegister m "$t1" = -5 /\ memory m !! "2147483644" = Some (-5).
Proof. vm_compute. split; reflexivity. Qed.

(** ** Arithmetic *)

Lemma writable_not_zero rd : writable rd = true -> rd <> "$zero".
Proof.
  unfold writable. intros H ->. apply andb_true_iff in H as [_ H].
  vm_compute in H. discriminate H.
Qed.

Lemma read_after_write machine rd value :
  writable rd = true ->
  readMipsRegister (advance (writeMipsRegister machine rd value)) rd
  = Num.toInt32 value.
Proof.
  intros Hw. unfold readMipsRegister. fields.
  rewrite writeMipsRegister_registers, Hw.
  rewrite lookup_insert_ne by (intros E; symmetry in E; revert E; apply writable_not_zero, Hw).
  rewrite lookup_insert_eq. reflexivity.
Qed.

Lemma toInt32_twice x : Num.toInt32 (Num.toInt32 x) = Num.toInt32 x.
Proof. apply toInt32_id, toInt32_range. Qed.

Lemma registers_after_write machine rd value :
  writable rd = true ->
  registers (advance (writeMipsRegister machine rd value)) !! rd
  = Some (Num.toInt32 value).
Proof.
  intros Hw. fields.
  rewrite writeMipsRegister_registers, Hw.
  rewrite lookup_insert_ne by (intros E; symmetry in E; revert E; apply writable_not_zero, Hw).
  apply lookup_insert_eq.
Qed.

Lemma advance_written machine name value :
  status (advance (writeMipsRegister machine name value)) = status machine
  /\ pc (advance (writeMipsRegister machine name value)) = pc machine + 1
  /\ error (advance (writeMipsRegister machine name value)) = error machine.
Proof.
  destruct (writeMipsRegister_others machine name value)
    as (_ & _ & _ & Hst & Herr & Hpc & _).
  fields. rewrite Hst, Herr, Hpc. repeat split; reflexivity.
Qed.

(** C7. An add, a sub or an addi with a writable destination leaves there,
    in the register file, the value of the 32-bit signed range that is
    congruent modulo 2^32 to the exact sum or difference of its operands:
    the two's-complement truncation. There is no trap on overflow: the
    machine stays ready, its error message is unchanged and the pc advances
    by one. In particular 0x7FFFFFFF plus 1 gives -2147483648 in a machine
    that is still ready. *)
Theorem arithmetic_wraps m rd :
  executes m = true ->
  writable rd = true ->
  let result := readMipsRegister (stepMipsMachine m) rd in
  (forall whole op rs rt,
      firstMatch (fetched m) = Some (PArithmetic, [whole; op; rd; rs; rt]) ->
      Js.toLowerCase op = "add" ->
      int32 result
      /\ (result - (readMipsRegister m rs + readMipsRegister m rt)) mod 2 ^ 32 = 0
      /\ registers (stepMipsMachine m) !! rd = Some result
      /\ (forall a b,
            registers m !! rs = Some a -> registers m !! rt = Some b ->
            (result - (a + b)) mod 2 ^ 32 = 0)
      /\ status (stepMipsMachine m) = Ready
      /\ error (stepMipsMachine m) = error m
      /\ pc (stepMipsMachine m) = pc m + 1)
  /\ (forall whole op rs rt,
      firstMatch (fetched m) = Some (PArithmetic, [whole; op; rd; rs; rt]) ->
      Js.toLowerCase op = "sub" ->
      int32 result
      /\ (result - (readMipsRegister m rs - readMipsRegister m rt)) mod 2 ^ 32 = 0
      /\ registers (stepMipsMachine m) !! rd = Some result
      /\ (forall a b,
            registers m !! rs = Some a -> registers m !! rt = Some b ->
            (result - (a - b)) mod 2 ^ 32 = 0)
      /\ status (stepMipsMachine m) = Ready
      /\ error (stepMipsMachine m) = error m
      /\ pc (stepMipsMachine m) = pc m + 1)
  /\ (forall whole rs imm immediate,
      firstMatch (fetched m) = Some (PAddi, [whole; rd; rs; imm]) ->
      parseMipsNumber imm = Some immediate ->
      int32 result
      /\ (result - (readMipsRegister m rs + immediate)) mod 2 ^ 32 = 0
      /\ registers (stepMipsMachine m) !! rd = Some result
      /\ (forall a,
            registers m !! rs = Some a ->
            (result - (a + immediate)) mod 2 ^ 32 = 0)
      /\ status (stepMipsMachine m) = Ready
      /\ error (stepMipsMachine m) = error m
      /\ pc (stepMipsMachine m) = pc m + 1)
  /\ (let final := stepN 3 (initializeMipsMachine overflowProgram [] []) in
      readMipsRegister final "$t2" = -2147483648
      /\ registers final !! "$t2" = Some (-2147483648)
      /\ status final = Ready
      /\ error final = ""
      /\ pc final = 3).
Proof.
  intros He Hw result. subst result.
  assert (Hs : status m = Ready).
  { unfold executes in He. destruct (status m); [reflexivity | discriminate | discriminate]. }
  rewrite step_executes by assumption.
  split; [|split; [|split]].
  - intros whole op rs rt H Hop.
    rewrite (execute_arithmetic _ _ _ H). cbn [at_ nth]. rewrite Hop.
    rewrite read_after_write, registers_after_write by assumption.
    cbn [String.eqb Ascii.eqb Bool.eqb].
    rewrite toInt32_twice, !readMipsRegister_withSteps.
    destruct (advance_written (withSteps m (steps m + 1)) rd
                (Num.toInt32 (readMipsRegister m rs + readMipsRegister m rt)))
      as (-> & -> & ->).
    split; [apply toInt32_range|]. split; [apply toInt32_congruent|].
    split; [reflexivity|]. split; [|repeat split; exact Hs].
    intros a b Ha Hb. unfold readMipsRegister. rewrite Ha, Hb.
    apply toInt32_congruent.
  - intros whole op rs rt H Hop.
    rewrite (execute_arithmetic _ _ _ H). cbn [at_ nth]. rewrite Hop.
    rewrite read_after_write, registers_after_write by assumption.
    cbn [String.eqb Ascii.eqb Bool.eqb].
    rewrite toInt32_twice, !readMipsRegister_withSteps.
    destruct (advance_written (withSteps m (steps m + 1)) rd
                (Num.toInt32 (readMipsRegister m rs - readMipsRegister m rt)))
      as (-> & -> & ->).
    split; [apply toInt32_range|]. split; [apply toInt32_congruent|].
    split; [reflexivity|]. split; [|repeat split; exact Hs].
    intros a b Ha Hb. unfold readMipsRegister. rewrite Ha, Hb.
    apply toInt32_congruent.
  - intros whole rs imm immediate H Himm.
    rewrite (execute_addi _ _ _ H). cbn [at_ nth]. rewrite Himm.
    rewrite read_after_write, registers_after_write by assumption.
    rewrite toInt32_twice, !readMipsRegister_withSteps.
    destruct (advance_written (withSteps m (steps m + 1)) rd
                (Num.toInt32 (readMipsRegister m rs + immediate)))
      as (-> & -> & ->).
    split; [apply toInt32_range|]. split; [apply toInt32_congruent|].
    split; [reflexivity|]. split; [|repeat split; exact Hs].
    intros a Ha. unfold readMipsRegister. rewrite Ha.
    apply toInt32_congruent.
  - vm_compute. repeat split; reflexivity.
Qed.

Lemma arithmetic_wraps_witness :
  let m := stepN 2 (initializeMipsMachine overflowProgram [] []) in
  let result := readMipsRegister (stepMipsMachine m) "$t2" in
  int32 result
  /\ (result - (readMipsRegister m "$t0" + readMipsRegister m "$t1")) mod 2 ^ 32 = 0
  /\ registers (stepMipsMachine m) !! "$t2" = Some result
  /\ (forall a b,
        registers m !! "$t0" = Some a -> registers m !! "$t1" = Some b ->
        (result - (a + b)) mod 2 ^ 32 = 0)
  /\ status (stepMipsMachine m) = Ready
  /\ error (stepMipsMachine m) = error m
  /\ pc (stepMipsMachine m) = pc m + 1.
Proof.
  intros m result.
  assert (He : executes m = true) by (vm_compute; reflexivity).
  assert (Hw : writable "$t2" = true) by (vm_compute; reflexivity).
  apply (proj1 (arithmetic_wraps m "$t2" He Hw) "add $t2,$t0,$t1" "add" "$t0" "$t1").
  - vm_compute. reflexivity.
  - vm_compute. reflexivity.
Defined.

(** ** Memory that was never stored to *)

Lemma String_inj a b : String_ a = String_ b -> a = b.
Proof. unfold String_. apply (inj pretty). Qed.

Lemma parseMipsNumber_int32 raw value : parseMipsNumber raw = Some value -> int32 value.
Proof.
  unfold parseMipsNumber. destruct (Js.isEmpty _); [discriminate|].
  destruct (Num.isFinite _); [|discriminate].
  intros [= <-]. apply toInt32Number_range.
Qed.

Lemma overrideMemory_other mem address : forall acc,
  (forall key value, In (key, value) mem -> parseMipsNumber key <> Some address) ->
  fold_left overrideMemory mem acc !! String_ address = acc !! String_ address.
Proof.
  induction mem as [|[key value] mem IH]; intros acc Hmem; [reflexivity|].
  cbn [fold_left]. rewrite IH by (intros k v Hin; apply (Hmem k v); right; exact Hin).
  unfold overrideMemory.
  destruct (parseMipsNumber key) as [parsed|] eqn:Hkey; [|reflexivity].
  apply lookup_insert_ne. intros E. apply String_inj in E.
  unfold sanitizeMipsMemoryAddress in E.
  rewrite toInt32_id in E by (eapply parseMipsNumber_int32; exact Hkey).
  apply (Hmem key value); [left; reflexivity | congruence].
Qed.

Lemma initializeMipsMachine_memory src regs mem address :
  (forall key value, In (key, value) mem -> parseMipsNumber key <> Some address) ->
  memory (initializeMipsMachine src regs mem) !! String_ address = None.
Proof.
  intros Hmem. unfold initializeMipsMachine.
  destruct (parseMipsProgram src); cbn [memory].
  - rewrite overrideMemory_other by assumption. apply lookup_empty.
  - apply lookup_empty.
Qed.

(** A step that is not a store to [address] leaves the word at [address]. *)
Lemma step_memory_frame m address :
  ~ storesTo m address ->
  memory (stepMipsMachine m) !! String_ address = memory m !! String_ address.
Proof.
  intros Hno. destruct (executes m) eqn:He.
  - rewrite step_executes by assumption.
    destruct (firstMatch (fetched m)) as [[p l]|] eqn:Hf.
    + destruct p; try (rewrite execute_memory; [reflexivity | intros sw E; rewrite Hf in E; discriminate E]).
      rewrite (execute_sw _ _ _ Hf). rewrite parseMipsAddressOperand_withSteps.
      destruct (parseMipsAddressOperand m (Js.trim (at_ l 2))) as [a|] eqn:Ha; [|reflexivity].
      match goal with
      | |- context [touchMemory ?x ?k] =>
          destruct (touchMemory_others x k) as (_ & _ & Hm & _)
      end.
      fields. rewrite Hm. fields.
      apply lookup_insert_ne. intros E. apply String_inj in E. subst a.
      apply Hno. split; [exact He|]. exists l. split; [exact Hf | exact Ha].
    + rewrite execute_memory; [reflexivity | intros sw E; rewrite Hf in E; discriminate E].
  - apply step_idle in He as (_ & _ & _ & -> & _). reflexivity.
Qed.

Lemma stepN_memory_frame n address : forall m,
  (forall i, (i < n)%nat -> ~ storesTo (stepN i m) address) ->
  memory (stepN n m) !! String_ address = memory m !! String_ address.
Proof.
  induction n as [|n IH]; intros m Hno; [reflexivity|].
  cbn [stepN]. rewrite IH.
  - apply step_memory_frame. apply (Hno 0%nat). lia.
  - intros i Hi. apply (Hno (S i)). lia.
Qed.

(** A load from an address that holds no word puts 0 in the destination. *)
Lemma step_load_unset m rd address :
  loadsFrom m rd address ->
  writable rd = true ->
  memory m !! String_ address = None ->
  registers (stepMipsMachine m) !! rd = Some 0.
Proof.
  intros (He & lw & Hf & Hrd & Ha) Hw Hmem.
  rewrite step_executes by assumption.
  rewrite (execute_lw _ _ _ Hf). rewrite parseMipsAddressOperand_withSteps, Ha, Hrd.
  fields. rewrite Hmem. cbn [default].
  match goal with
  | |- context [touchMemory ?x ?k] =>
      destruct (touchMemory_others x k) as (_ & Hr & _)
  end.
  rewrite Hr, writeMipsRegister_registers, Hw.
  rewrite lookup_insert_ne by (intros E; symmetry in E; revert E; apply writable_not_zero, Hw).
  rewrite lookup_insert_eq. reflexivity.
Qed.

(** C8, as stated: a word supplied by the caller as an initial memory
    override is loaded by the first instruction, before any store. *)
Lemma load_of_initial_override :
  let m := initializeMipsMachine overriddenProgram [] [("16", Num.Finite 7 0)] in
  steps m = 0
  /\ loadsFrom m "$t0" 16
  /\ registers (stepMipsMachine m) !! "$t0" = Some 7
  /\ registers (stepMipsMachine m) !! "$t0" <> Some 0.
Proof.
  cbv zeta. split; [vm_compute; reflexivity|]. split.
  - split; [vm_compute; reflexivity|].
    exists ["lw $t0, 16"; "$t0"; "16"].
    split; [vm_compute; reflexivity|]. split; vm_compute; reflexivity.
  - split; [vm_compute; reflexivity|]. vm_compute. discriminate.
Qed.

(** C8, as the code has it. In an execution from a machine made by
    initializeMipsMachine, a load from an address that no initial memory
    override names and to which no earlier step stored puts 0 in its
    destination register. *)
Theorem load_of_unwritten_address src regs mem n rd address :
  let m := initializeMipsMachine src regs mem in
  (forall key value, In (key, value) mem -> parseMipsNumber key <> Some address) ->
  (forall i, (i < n)%nat -> ~ storesTo (stepN i m) address) ->
  loadsFrom (stepN n m) rd address ->
  writable rd = true ->
  registers (stepMipsMachine (stepN n m)) !! rd = Some 0.
Proof.
  intros m Hmem Hno Hload Hw.
  apply (step_load_unset _ rd address); [exact Hload | exact Hw |].
  rewrite stepN_memory_frame by exact Hno.
  apply initializeMipsMachine_memory. exact Hmem.
Qed.

Lemma load_of_unwritten_address_witness :
  let m := initializeMipsMachine unwrittenProgram [] [("16", Num.Finite 7 0)] in
  registers (stepMipsMachine (stepN 2 m)) !! "$t1" = Some 0.
Proof.
  intros m.
  apply (load_of_unwritten_address unwrittenProgram [] [("16", Num.Finite 7 0)]
           2 "$t1" 12).
  - intros key value [E | []]. injection E as <- _. vm_compute. discriminate.
  - intros i Hi (_ & sw & Hf & Ha). destruct i as [|[|i]].
    + vm_compute in Hf. discriminate Hf.
    + vm_compute in Hf. injection Hf as <-. vm_compute in Ha. discriminate Ha.
    + lia.
  - split; [vm_compute; reflexivity|].
    exists ["lw $t1, 12"; "$t1"; "12"].
    split; [vm_compute; reflexivity|]. split; vm_compute; reflexivity.
  - vm_compute. reflexivity.
Defined.

(** ** Register names outside the register set *)

Lemma insert_defined (regs : gmap string Z) k x :
  isRegister k = true ->
  (forall r v, regs !! r = Some v -> isRegister r = true) ->
  forall r v, <[k := x]> regs !! r = Some v -> isRegister r = true.
Proof.
  intros Hk Hregs r v. rewrite lookup_insert. destruct (decide (k = r)).
  - intros _. subst r. exact Hk.
  - apply Hregs.
Qed.

Lemma zeroRegisters_defined r v : zeroRegisters !! r = Some v -> isRegister r = true.
Proof.
  unfold zeroRegisters. intros H.
  apply elem_of_list_to_map_2, list_elem_of_In, in_map_iff in H.
  destruct H as (x & Hx & Hin). injection Hx as <- _.
  unfold isRegister, MIPS_REGISTER_SET. apply bool_decide_eq_true.
  apply elem_of_list_to_set, list_elem_of_In, Hin.
Qed.

Lemma overrideRegisters_defined regs : forall acc,
  (forall r v, acc !! r = Some v -> isRegister r = true) ->
  forall r v, fold_left overrideRegister regs acc !! r = Some v -> isRegister r = true.
Proof.
  induction regs as [|[reg value] regs IH]; intros acc Hacc; [exact Hacc|].
  cbn [fold_left]. apply IH. unfold overrideRegister.
  destruct (isRegister reg) eqn:Hreg; cbn [andb]; [|exact Hacc].
  destruct (negb _); [|exact Hacc].
  apply insert_defined; assumption.
Qed.

Lemma zero_defined : isRegister "$zero" = true.
Proof. vm_compute. reflexivity. Qed.

Lemma initializeMipsMachine_defined src regs mem :
  namesDefined (initializeMipsMachine src regs mem).
Proof.
  unfold namesDefined, initializeMipsMachine.
  destruct (parseMipsProgram src); cbn [registers].
  - apply insert_defined; [apply zero_defined|].
    apply overrideRegisters_defined, zeroRegisters_defined.
  - apply zeroRegisters_defined.
Qed.

Lemma executeInstruction_defined machine inst :
  namesDefined machine -> namesDefined (executeInstruction machine inst).
Proof.
  intros H.
  assert (Hw : forall name value, namesDefined (writeMipsRegister machine name value)).
  { intros name value. unfold namesDefined. rewrite writeMipsRegister_registers.
    unfold writable. destruct (isRegister name) eqn:Hn; cbn [andb]; [|exact H].
    destruct (negb _); [|exact H]. apply insert_defined; assumption. }
  apply executeInstruction_cases; intros; unfold namesDefined; fields;
    try exact H; try (apply insert_defined; [apply zero_defined|]); try exact H.
  - apply Hw.
  - destruct (touchMemory_others (writeMipsRegister machine name value) key)
      as (_ & -> & _). apply Hw.
  - match goal with
    | |- context [touchMemory ?x ?k] =>
        destruct (touchMemory_others x k) as (_ & -> & _)
    end. exact H.
  - destruct (status machine); exact H.
Qed.

Lemma reachable_defined m : reachable m -> namesDefined m.
Proof.
  induction 1 as [src regs mem | m _ IH].
  - apply initializeMipsMachine_defined.
  - destruct (executes m) eqn:He.
    + rewrite step_executes by assumption. apply executeInstruction_defined. exact IH.
    + unfold namesDefined. apply step_idle in He as (_ & _ & -> & _). exact IH.
Qed.

Lemma read_undefined m name :
  namesDefined m -> isRegister name = false -> readMipsRegister m name = 0.
Proof.
  intros Hm Hn. unfold readMipsRegister.
  destruct (registers m !! name) as [v|] eqn:Hv; [|reflexivity].
  apply Hm in Hv. congruence.
Qed.

Lemma write_undefined m name value :
  isRegister name = false -> writeMipsRegister m name value = m.
Proof. intros Hn. unfold writeMipsRegister. rewrite Hn. reflexivity. Qed.

Lemma executes_ready m : executes m = true -> status m = Ready.
Proof.
  unfold executes. destruct (status m); [reflexivity | discriminate | discriminate].
Qed.

Lemma execute_la machine inst la :
  firstMatch inst = Some (PLa, la) ->
  executeInstruction machine inst
  = match dataAddresses (program machine) !! at_ la 2 with
    | None => fail machine ("Unknown data label: " ++ at_ la 2)
    | Some address => advance (writeMipsRegister machine (at_ la 1) address)
    end.
Proof. intros H. by_first_match H. Qed.

Lemma advance_touched machine key :
  status (advance (touchMemory machine key)) = status machine
  /\ pc (advance (touchMemory machine key)) = pc machine + 1
  /\ registers (advance (touchMemory machine key)) = <["$zero" := 0]> (registers machine)
  /\ memory (advance (touchMemory machine key)) = memory machine.
Proof.
  destruct (touchMemory_others machine key) as (_ & Hr & Hm & _ & Hst & _ & Hpc & _).
  fields. rewrite Hst, Hpc, Hr, Hm. repeat split; reflexivity.
Qed.

Lemma parseMipsAddressOperand_undefined_base machine operand groups :
  exec offsetBasePattern operand = Some groups ->
  isRegister (Js.trim (at_ groups 2)) = false ->
  parseMipsAddressOperand machine operand = None.
Proof.
  intros Hg Hb. unfold parseMipsAddressOperand. rewrite Hg. cbv zeta. rewrite Hb.
  destruct (parseMipsNumber _); reflexivity.
Qed.

(** C9, as stated: an undefined name as the base register of a memory
    operand puts the machine in the error status. *)
Lemma undefined_base_register_fails :
  let m := initializeMipsMachine undefinedBaseProgram [] [] in
  isRegister "$q9" = false
  /\ status m = Ready
  /\ fetched m = "lw $t0, 0($q9)"
  /\ exec offsetBasePattern "0($q9)" = Some ["0($q9)"; "0"; "$q9"]
  /\ status (stepMipsMachine m) = Error
  /\ error (stepMipsMachine m) = "Invalid memory operand: 0($q9)"
  /\ pc (stepMipsMachine m) = pc m.
Proof. cbv zeta. repeat split; vm_compute; reflexivity. Qed.

(** C9, as the code has it. In a reachable state, a name of the $-syntax
    that is not one of the 32 register names is absent from the register
    file, reads as 0, and a write to it changes nothing. Whatever
    instruction has such a name as its destination or as a source (li, la,
    move, addi, add, sub, lw, sw, beq, bne), that does not fail it: when
    its immediate, label or memory operand resolves, the machine stays
    ready and the pc advances by one (or goes to the branch target), the
    register file being unchanged where the name is the destination and the
    value 0 being used where it is a source. The base register of a memory
    operand is checked against the register set instead: an lw or sw whose
    operand is offset(base) with such a name as base fails with the message
    Invalid memory operand and changes neither pc, registers nor memory. *)
Theorem undefined_register_operand m name :
  reachable m ->
  executes m = true ->
  isRegister name = false ->
  let m' := stepMipsMachine m in
  let continues := status m' = Ready /\ pc m' = pc m + 1 in
  (registers m !! name = None /\ readMipsRegister m name = 0)
  /\ (forall value, writeMipsRegister m name value = m)
  /\ (forall whole imm value,
        firstMatch (fetched m) = Some (PLi, [whole; name; imm]) ->
        parseMipsNumber imm = Some value ->
        status m' = Ready /\ pc m' = pc m + 1 /\ registers m' = registers m)
  /\ (forall whole rd,
        firstMatch (fetched m) = Some (PMove, [whole; rd; name]) ->
        status m' = Ready /\ pc m' = pc m + 1 /\ readMipsRegister m' rd = 0)
  /\ (forall whole rs,
        firstMatch (fetched m) = Some (PMove, [whole; name; rs]) ->
        status m' = Ready /\ pc m' = pc m + 1 /\ registers m' = registers m)
  /\ (forall whole rd,
        firstMatch (fetched m) = Some (PMove, [whole; rd; name]) ->
        writable rd = true ->
        registers m' !! rd = Some 0)
  /\ (forall whole label address,
        firstMatch (fetched m) = Some (PLa, [whole; name; label]) ->
        dataAddresses (program m) !! label = Some address ->
        continues /\ registers m' = registers m)
  /\ (forall whole rs imm immediate,
        firstMatch (fetched m) = Some (PAddi, [whole; name; rs; imm]) ->
        parseMipsNumber imm = Some immediate ->
        continues /\ registers m' = registers m)
  /\ (forall whole rt imm immediate,
        firstMatch (fetched m) = Some (PAddi, [whole; rt; name; imm]) ->
        parseMipsNumber imm = Some immediate ->
        continues /\ (writable rt = true -> registers m' !! rt = Some immediate))
  /\ (forall whole op rs rt,
        firstMatch (fetched m) = Some (PArithmetic, [whole; op; name; rs; rt]) ->
        continues /\ registers m' = registers m)
  /\ (forall whole op rd rt,
        firstMatch (fetched m) = Some (PArithmetic, [whole; op; rd; name; rt]) ->
        continues
        /\ (writable rd = true ->
            registers m' !! rd
            = Some (Num.toInt32 (if String.eqb (Js.toLowerCase op) "add"
                                 then readMipsRegister m rt
                                 else - readMipsRegister m rt))))
  /\ (forall whole op rd rs,
        firstMatch (fetched m) = Some (PArithmetic, [whole; op; rd; rs; name]) ->
        continues
        /\ (writable rd = true ->
            registers m' !! rd = Some (Num.toInt32 (readMipsRegister m rs))))
  /\ (forall whole operand address,
        firstMatch (fetched m) = Some (PLw, [whole; name; operand]) ->
        parseMipsAddressOperand m (Js.trim operand) = Some address ->
        continues /\ registers m' = registers m /\ memory m' = memory m)
  /\ (forall whole operand address,
        firstMatch (fetched m) = Some (PSw, [whole; name; operand]) ->
        parseMipsAddressOperand m (Js.trim operand) = Some address ->
        continues
        /\ registers m' = registers m
        /\ memory m' = <[String_ address := 0]> (memory m))
  /\ (forall whole op rt label target,
        firstMatch (fetched m) = Some (PBranch, [whole; op; name; rt; label]) ->
        labels (program m) !! label = Some target ->
        status m' = Ready
        /\ registers m' = registers m
        /\ pc m' = if (if String.eqb (Js.toLowerCase op) "beq"
                       then 0 =? readMipsRegister m rt
                       else negb (0 =? readMipsRegister m rt))
                   then target else pc m + 1)
  /\ (forall whole op rs label target,
        firstMatch (fetched m) = Some (PBranch, [whole; op; rs; name; label]) ->
        labels (program m) !! label = Some target ->
        status m' = Ready
        /\ registers m' = registers m
        /\ pc m' = if (if String.eqb (Js.toLowerCase op) "beq"
                       then readMipsRegister m rs =? 0
                       else negb (readMipsRegister m rs =? 0))
                   then target else pc m + 1)
  /\ (forall p whole rt operand groups,
        p = PLw \/ p = PSw ->
        firstMatch (fetched m) = Some (p, [whole; rt; operand]) ->
        exec offsetBasePattern (Js.trim operand) = Some groups ->
        Js.trim (at_ groups 2) = name ->
        status m' = Error
        /\ error m' = "Invalid memory operand: " ++ operand
        /\ pc m' = pc m
        /\ registers m' = registers m
        /\ memory m' = memory m).
Proof.
  intros Hreach He Hname m' continues. subst m' continues.
  pose proof (reachable_defined m Hreach) as Hdef.
  pose proof (reachable_zero m Hreach) as Hzero.
  pose proof (executes_ready m He) as Hs.
  assert (Hread : readMipsRegister m name = 0) by (apply read_undefined; assumption).
  assert (Hwrite : forall machine value, writeMipsRegister machine name value = machine)
    by (intros; apply write_undefined; assumption).
  assert (Hkeep : forall machine,
            status machine = status m -> pc machine = pc m ->
            registers machine = registers m ->
            (status (advance machine) = Ready /\ pc (advance machine) = pc m + 1)
            /\ registers (advance machine) = registers m).
  { intros machine Hst Hpc Hr. fields. rewrite Hst, Hpc, Hr.
    rewrite insert_id by assumption. repeat split. exact Hs. }
  assert (Hset : forall rd value,
            writable rd = true ->
            (status (advance (writeMipsRegister (withSteps m (steps m + 1)) rd value)) = Ready
             /\ pc (advance (writeMipsRegister (withSteps m (steps m + 1)) rd value))
                = pc m + 1)
            /\ (writable rd = true ->
                registers (advance (writeMipsRegister (withSteps m (steps m + 1)) rd value))
                  !! rd = Some (Num.toInt32 value))).
  { intros rd value _.
    destruct (advance_written (withSteps m (steps m + 1)) rd value) as (-> & -> & _).
    split; [split; [exact Hs | reflexivity]|].
    intros Hw. apply registers_after_write. exact Hw. }
  assert (Hany : forall rd value,
            status (advance (writeMipsRegister (withSteps m (steps m + 1)) rd value)) = Ready
            /\ pc (advance (writeMipsRegister (withSteps m (steps m + 1)) rd value))
               = pc m + 1).
  { intros rd value.
    destruct (advance_written (withSteps m (steps m + 1)) rd value) as (-> & -> & _).
    split; [exact Hs | reflexivity]. }
  split.
  { split; [|exact Hread].
    destruct (registers m !! name) as [v|] eqn:Hv; [|reflexivity].
    apply Hdef in Hv. congruence. }
  split; [intros value; apply Hwrite|].
  rewrite step_executes by assumption.
  repeat match goal with |- _ /\ _ => split end.
  - intros whole imm value Hf Himm.
    rewrite (execute_li _ _ _ Hf). cbn [at_ nth]. rewrite Himm, Hwrite.
    destruct (Hkeep (withSteps m (steps m + 1))) as ((? & ?) & ?);
      try reflexivity. repeat split; assumption.
  - intros whole rd Hf.
    rewrite (execute_move _ _ _ Hf). cbn [at_ nth].
    rewrite readMipsRegister_withSteps, Hread.
    destruct (Hany rd 0) as (? & ?). split; [assumption|]. split; [assumption|].
    unfold readMipsRegister. fields. rewrite writeMipsRegister_registers.
    destruct (writable rd) eqn:Hw.
    + destruct (decide ("$zero" = rd)) as [E|E];
        [subst rd; apply writable_not_zero in Hw; congruence|].
      rewrite lookup_insert_ne by assumption. rewrite lookup_insert_eq. reflexivity.
    + fields. rewrite insert_id by assumption.
      destruct (registers m !! rd) as [v|] eqn:Hv; [|reflexivity].
      cbn [default]. pose proof (Hdef _ _ Hv) as Hrd.
      unfold writable in Hw. rewrite Hrd in Hw. cbn [andb] in Hw.
      apply negb_false_iff, String.eqb_eq in Hw. subst rd. change (v = 0). congruence.
  - intros whole rs Hf.
    rewrite (execute_move _ _ _ Hf). cbn [at_ nth]. rewrite Hwrite.
    destruct (Hkeep (withSteps m (steps m + 1))) as ((? & ?) & ?);
      try reflexivity. repeat split; assumption.
  - intros whole rd Hf Hw.
    rewrite (execute_move _ _ _ Hf). cbn [at_ nth].
    rewrite readMipsRegister_withSteps, Hread.
    rewrite registers_after_write by exact Hw. reflexivity.
  - intros whole label address Hf Hl.
    rewrite (execute_la _ _ _ Hf). cbn [at_ nth].
    change (program (withSteps m (steps m + 1))) with (program m).
    rewrite Hl, Hwrite. apply Hkeep; reflexivity.
  - intros whole rs imm immediate Hf Himm.
    rewrite (execute_addi _ _ _ Hf). cbn [at_ nth]. rewrite Himm, Hwrite.
    apply Hkeep; reflexivity.
  - intros whole rt imm immediate Hf Himm.
    rewrite (execute_addi _ _ _ Hf). cbn [at_ nth]. rewrite Himm.
    rewrite readMipsRegister_withSteps, Hread, Z.add_0_l.
    split; [apply Hany|]. intros Hw.
    rewrite registers_after_write by exact Hw. rewrite toInt32_twice.
    f_equal. apply toInt32_id. eapply parseMipsNumber_int32. exact Himm.
  - intros whole op rs rt Hf.
    rewrite (execute_arithmetic _ _ _ Hf). cbn [at_ nth]. rewrite Hwrite.
    apply Hkeep; reflexivity.
  - intros whole op rd rt Hf.
    rewrite (execute_arithmetic _ _ _ Hf). cbn [at_ nth].
    rewrite !readMipsRegister_withSteps, Hread.
    split; [apply Hany|]. intros Hw.
    rewrite registers_after_write by exact Hw. rewrite toInt32_twice.
    destruct (String.eqb (Js.toLowerCase op) "add"); reflexivity.
  - intros whole op rd rs Hf.
    rewrite (execute_arithmetic _ _ _ Hf). cbn [at_ nth].
    rewrite !readMipsRegister_withSteps, Hread.
    split; [apply Hany|]. intros Hw.
    rewrite registers_after_write by exact Hw. rewrite toInt32_twice.
    destruct (String.eqb (Js.toLowerCase op) "add");
      [rewrite Z.add_0_r | rewrite Z.sub_0_r]; reflexivity.
  - intros whole operand address Hf Ha.
    rewrite (execute_lw _ _ _ Hf). cbn [at_ nth].
    rewrite parseMipsAddressOperand_withSteps, Ha, Hwrite.
    destruct (advance_touched (withSteps m (steps m + 1)) (String_ address))
      as (-> & -> & -> & ->).
    fields. rewrite insert_id by assumption. repeat split. exact Hs.
  - intros whole operand address Hf Ha.
    rewrite (execute_sw _ _ _ Hf). cbn [at_ nth].
    rewrite parseMipsAddressOperand_withSteps, Ha.
    rewrite readMipsRegister_withSteps, Hread.
    match goal with
    | |- context [touchMemory ?x ?k] =>
        destruct (advance_touched x k) as (-> & -> & -> & ->)
    end.
    fields. rewrite insert_id by assumption. repeat split. exact Hs.
  - intros whole op rt label target Hf Hl.
    rewrite (execute_branch _ _ _ Hf). cbn [at_ nth]. cbv zeta.
    rewrite !readMipsRegister_withSteps, Hread.
    change (program (withSteps m (steps m + 1))) with (program m). rewrite Hl.
    destruct (if String.eqb (Js.toLowerCase op) "beq"
              then 0 =? readMipsRegister m rt
              else negb (0 =? readMipsRegister m rt));
      fields; rewrite insert_id by assumption; repeat split; exact Hs.
  - intros whole op rs label target Hf Hl.
    rewrite (execute_branch _ _ _ Hf). cbn [at_ nth]. cbv zeta.
    rewrite !readMipsRegister_withSteps, Hread.
    change (program (withSteps m (steps m + 1))) with (program m). rewrite Hl.
    destruct (if String.eqb (Js.toLowerCase op) "beq"
              then readMipsRegister m rs =? 0
              else negb (readMipsRegister m rs =? 0));
      fields; rewrite insert_id by assumption; repeat split; exact Hs.
  - intros p whole rt operand groups Hp Hf Hg Hb.
    assert (Hnone : parseMipsAddressOperand (withSteps m (steps m + 1)) (Js.trim operand)
                    = None).
    { apply (parseMipsAddressOperand_undefined_base _ _ groups Hg).
      rewrite Hb. exact Hname. }
    destruct Hp as [-> | ->].
    + rewrite (execute_lw _ _ _ Hf). cbn [at_ nth]. rewrite Hnone.
      fields. repeat split; reflexivity.
    + rewrite (execute_sw _ _ _ Hf). cbn [at_ nth]. rewrite Hnone.
      fields. repeat split; reflexivity.
Qed.

Lemma undefined_register_operand_witness :
  let m := initializeMipsMachine undefinedNameProgram [] [] in
  status (stepMipsMachine m) = Ready
  /\ pc (stepMipsMachine m) = pc m + 1
  /\ registers (stepMipsMachine m) = registers m.
Proof.
  intros m.
  assert (He : executes m = true) by (vm_compute; reflexivity).
  assert (Hn : isRegister "$q9" = false) by (vm_compute; reflexivity).
  destruct (undefined_register_operand m "$q9" (reachable_init _ _ _) He Hn)
    as (_ & _ & Hli & _).
  apply (Hli "li $q9, 5" "5" 5); vm_compute; reflexivity.
Defined.

Example undefinedNameProgram_run :
  let m := stepN 2 (initializeMipsMachine undefinedNameProgram [] [("$t0", Num.Finite 3 0)]) in
  status m = Ready /\ pc m = 2 /\ registers m !! "$t0" = Some 0 /\ registers m !! "$q9" = None.
Proof. vm_compute. repeat split; reflexivity. Qed.

(** ** Witnesses of the invariants *)

Lemma zero_register_invariant_witness :
  let m := stepMipsMachine
             (initializeMipsMachine zeroWritingProgram
                [("$zero", Num.Finite 9 0); ("$t0", Num.Finite 4 0)] []) in
  registers m !! "$zero" = Some 0
  /\ registers (stepMipsMachine m) !! "$zero" = Some 0.
Proof.
  intros m. apply zero_register_invariant.
  apply reachable_step, reachable_init.
Defined.

Lemma int32_invariant_witness :
  let m := stepN 3
             (initializeMipsMachine roundtripProgram
                [("$t3", Num.Finite 1099511627779 0); ("$t4", Num.NaN);
                 ("$t5", Num.Finite (-7) (-1))]
                [("0x10", Num.Infinity false); ("12", Num.Finite 4294967301 0)]) in
  (forall r v, registers m !! r = Some v -> -2147483648 <= v <= 2147483647)
  /\ (forall k v, memory m !! k = Some v -> -2147483648 <= v <= 2147483647).
Proof.
  intros m. apply int32_invariant.
  apply reachable_step, reachable_step, reachable_step, reachable_init.
Defined.

Example overrides_example :
  let m := initializeMipsMachine roundtripProgram
             [("$t3", Num.Finite 1099511627779 0); ("$t4", Num.NaN);
              ("$t5", Num.Finite (-7) (-1)); ("$zero", Num.Finite 9 0);
              ("$q9", Num.Finite 1 0)]
             [("0x10", Num.Infinity false); ("12", Num.Finite 4294967301 0);
              ("16", Num.Finite 6 0); ("x", Num.Finite 1 0)] in
  map (fun r => registers m !! r) ["$t3"; "$t4"; "$t5"; "$zero"; "$q9"]
  = [Some 3; Some 0; Some (-3); Some 0; None]
  /\ map (fun k => memory m !! k) ["16"; "12"; "0x10"; "x"]
     = [Some 6; Some 5; None; None].
Proof. vm_compute. split; reflexivity. Qed.

(** ** The causes of a run-time error *)

Lemma status_written machine name value :
  status (advance (writeMipsRegister machine name value)) = status machine.
Proof. fields. apply writeMipsRegister_others. Qed.

Lemma status_touched machine key :
  status (advance (touchMemory machine key)) = status machine.
Proof. fields. apply touchMemory_others. Qed.

(** X18. A step that executes an instruction ends in the error status only
    for one of these causes: an immediate that does not parse (li, addi),
    an unknown data label (la), a memory operand that does not resolve
    (lw, sw), an unknown label (beq, bne, j), a syscall selector other than
    1, 4, 10 and 11, or an instruction that matches no pattern; move, add
    and sub never fail. *)
Lemma step_error_cause m :
  executes m = true -> status (stepMipsMachine m) = Error -> errorCause m.
Proof.
  intros He. pose proof (executes_ready m He) as Hs.
  rewrite step_executes by assumption.
  unfold errorCause, firstMatch, executeInstruction.
  set (machine := withSteps m (steps m + 1)).
  assert (Hs' : status machine = Ready) by exact Hs.
  repeat match goal with
         | |- context [match exec ?p ?i with _ => _ end] => destruct (exec p i)
         end.
  - destruct (parseMipsNumber _); [|reflexivity].
    rewrite status_written. congruence.
  - change (dataAddresses (program machine)) with (dataAddresses (program m)).
    destruct (dataAddresses (program m) !! _); [|reflexivity].
    rewrite status_written. congruence.
  - rewrite status_written. congruence.
  - destruct (parseMipsNumber _); [|reflexivity].
    rewrite status_written. congruence.
  - rewrite status_written. congruence.
  - change (parseMipsAddressOperand machine) with (parseMipsAddressOperand m).
    destruct (parseMipsAddressOperand m _); [|reflexivity].
    rewrite status_touched.
    match goal with
    | |- context [writeMipsRegister ?x ?n ?v] =>
        destruct (writeMipsRegister_others x n v) as (_ & _ & _ & -> & _)
    end. congruence.
  - change (parseMipsAddressOperand machine) with (parseMipsAddressOperand m).
    destruct (parseMipsAddressOperand m _); [|reflexivity].
    rewrite status_touched. fields. congruence.
  - change (labels (program machine)) with (labels (program m)).
    cbv zeta. destruct (if String.eqb _ _ then _ else _).
    + destruct (labels (program m) !! _); [|reflexivity]. fields. congruence.
    + fields. congruence.
  - change (labels (program machine)) with (labels (program m)).
    destruct (labels (program m) !! _); [|reflexivity]. fields. congruence.
  - destruct (test syscallPattern (fetched m)); [|trivial].
    cbv zeta. change (readMipsRegister machine) with (readMipsRegister m).
    destruct (Z.eqb_spec (readMipsRegister m "$v0") 1);
      [subst machine; fields; rewrite Hs; fields; congruence|].
    destruct (Z.eqb_spec (readMipsRegister m "$v0") 4);
      [subst machine; fields; rewrite Hs; fields; congruence|].
    destruct (Z.eqb_spec (readMipsRegister m "$v0") 10);
      [subst machine; fields; congruence|].
    destruct (Z.eqb_spec (readMipsRegister m "$v0") 11);
      [subst machine; fields; rewrite Hs; fields; congruence|].
    intros _ [E | [E | [E | [E | []]]]]; congruence.
Qed.

(** ** Outcomes of the executor, with what decides them *)

(** As [executeInstruction_cases], keeping the shape of the failure
    messages and the origin of the jump targets. *)
Lemma executeInstruction_outcomes (P : MipsMachineState -> Prop) machine inst :
  (forall prefix detail, prefix <> "" -> P (fail machine (prefix ++ detail))) ->
  (forall name value, P (advance (writeMipsRegister machine name value))) ->
  (forall name value key,
      P (advance (touchMemory (writeMipsRegister machine name value) key))) ->
  (forall key value,
      P (advance (touchMemory
           (withMemory machine (<[key := Num.toInt32 value]> (memory machine))) key))) ->
  (forall label target,
      labels (program machine) !! label = Some target ->
      P (resetZero (withPc machine target))) ->
  P (advance machine) ->
  (forall text, P (resetZero (let m := appendMipsOutput machine text in
                              match status m with Halted => m | _ => withPc m (pc m + 1) end))) ->
  P (resetZero (withStatus machine Halted)) ->
  P (executeInstruction machine inst).
Proof.
  intros Hfail Hwrite Hlw Hsw Hjump Hnext Hout Hhalt.
  unfold executeInstruction.
  repeat match goal with
         | |- P (match ?x with _ => _ end) => destruct x eqn:?
         | |- P (if ?x then _ else _) => destruct x eqn:?
         end;
    first [ apply Hfail; discriminate | apply Hwrite | apply Hlw | apply Hsw
          | eapply Hjump; eassumption | apply Hhalt | apply Hout | apply Hnext ].
Qed.

Lemma writeMipsRegister_touched machine name value :
  source (writeMipsRegister machine name value) = source machine
  /\ (touchedRegisters (writeMipsRegister machine name value) = touchedRegisters machine
      \/ (writable name = true
          /\ (name ∉ touchedRegisters machine)
          /\ touchedRegisters (writeMipsRegister machine name value)
             = (touchedRegisters machine ++ [name])%list)).
Proof.
  unfold writeMipsRegister, writable.
  destruct (isRegister name), (String.eqb name "$zero"); cbn [negb orb andb];
    try (split; [reflexivity | left; reflexivity]).
  unfold includes. fields. destruct (bool_decide_reflect (name ∈ touchedRegisters machine)).
  - split; [reflexivity | left; reflexivity].
  - split; [reflexivity | right]. fields. repeat split. assumption.
Qed.

Lemma touchMemory_touched machine key :
  source (touchMemory machine key) = source machine
  /\ touchedRegisters (touchMemory machine key) = touchedRegisters machine
  /\ (touchedMemory (touchMemory machine key) = touchedMemory machine
      \/ ((key ∉ touchedMemory machine)
          /\ touchedMemory (touchMemory machine key) = (touchedMemory machine ++ [key])%list)).
Proof.
  unfold touchMemory, includes.
  destruct (bool_decide_reflect (key ∈ touchedMemory machine)).
  - repeat split. left. reflexivity.
  - repeat split. right. fields. split; [assumption | reflexivity].
Qed.

(** Induction over the reachable states, one executed instruction at a time. *)
Lemma reachable_invariant (I : MipsMachineState -> Prop) :
  (forall src regs mem, I (initializeMipsMachine src regs mem)) ->
  (forall m, reachable m -> I m -> executes m = true ->
             I (executeInstruction (withSteps m (steps m + 1)) (fetched m))) ->
  (forall m, reachable m -> I m -> executes m = false -> I (stepMipsMachine m)) ->
  forall m, reachable m -> I m.
Proof.
  intros Hinit Hexec Hidle m Hm.
  induction Hm as [src regs mem | m Hm IH]; [apply Hinit|].
  destruct (executes m) eqn:He.
  - rewrite step_executes by exact He. apply Hexec; assumption.
  - apply Hidle; assumption.
Qed.

(** ** Invariants of the reachable states *)

Lemma executes_in_range m :
  executes m = true ->
  0 <= pc m < Z.of_nat (length (instructions (program m))).
Proof.
  unfold executes. destruct (status m); try discriminate.
  intros H. apply andb_true_iff in H as [H _]. apply negb_true_iff in H.
  apply orb_false_iff in H as [H1 H2].
  apply Z.ltb_ge in H1. apply Z.leb_gt in H2. lia.
Qed.

(** X1. The step counter of a reachable state lies between 0 and
    MIPS_MAX_STEPS. *)
Theorem steps_bounded m :
  reachable m -> 0 <= steps m <= MIPS_MAX_STEPS.
Proof.
  induction 1 as [src regs mem | m _ IH].
  - rewrite initializeMipsMachine_steps. unfold MIPS_MAX_STEPS. lia.
  - rewrite step_steps. destruct (executes m) eqn:He; [|exact IH].
    apply executes_bound in He. lia.
Qed.

Lemma steps_bounded_witness :
  let m := stepN 2 (initializeMipsMachine roundtripProgram [] []) in
  0 <= steps m <= MIPS_MAX_STEPS.
Proof.
  intros m. apply steps_bounded.
  apply reachable_step, reachable_step, reachable_init.
Defined.

Lemma parseMipsProgram_message src message :
  parseMipsProgram src = ParseFailed message ->
  message = "No MIPS instructions found in .text section.".
Proof.
  unfold parseMipsProgram. destruct (Nat.eqb _ 0); [|discriminate].
  intros [= <-]. reflexivity.
Qed.

Lemma append_not_empty (prefix detail : string) : prefix <> "" -> prefix ++ detail <> "".
Proof. destruct prefix; [congruence | discriminate]. Qed.

(** X2. In a reachable state the error message is empty exactly when the
    status is not error. *)
Theorem error_message_iff_error m :
  reachable m -> (status m = Error <-> error m <> "").
Proof.
  revert m. apply reachable_invariant.
  - intros src regs mem. unfold initializeMipsMachine.
    destruct (parseMipsProgram src) as [parsed | message] eqn:Hp; cbn [status error].
    + split; [discriminate | congruence].
    + apply parseMipsProgram_message in Hp. subst message.
      split; [discriminate | reflexivity].
  - intros m _ IH He. pose proof (executes_ready m He) as Hs.
    assert (Herr : error m = "").
    { destruct (string_dec (error m) "") as [E | E]; [exact E|].
      apply IH in E. congruence. }
    apply executeInstruction_outcomes; intros.
    + fields. split; [intros _; apply append_not_empty; assumption | reflexivity].
    + fields. destruct (writeMipsRegister_others (withSteps m (steps m + 1)) name value)
        as (_ & _ & _ & -> & -> & _). fields. rewrite Hs, Herr.
      split; [discriminate | congruence].
    + fields.
      destruct (touchMemory_others
                  (writeMipsRegister (withSteps m (steps m + 1)) name value) key)
        as (_ & _ & _ & _ & -> & -> & _).
      destruct (writeMipsRegister_others (withSteps m (steps m + 1)) name value)
        as (_ & _ & _ & -> & -> & _). fields. rewrite Hs, Herr.
      split; [discriminate | congruence].
    + fields.
      match goal with
      | |- context [touchMemory ?x ?k] =>
          destruct (touchMemory_others x k) as (_ & _ & _ & _ & -> & -> & _)
      end. fields. rewrite Hs, Herr. split; [discriminate | congruence].
    + fields. rewrite Hs, Herr. split; [discriminate | congruence].
    + fields. rewrite Hs, Herr. split; [discriminate | congruence].
    + fields. rewrite Hs. fields. rewrite Hs, Herr. split; [discriminate | congruence].
    + fields. rewrite Herr. split; [discriminate | congruence].
  - intros m _ IH He. unfold stepMipsMachine. unfold executes in He.
    destruct (status m) eqn:Hs; try (rewrite Hs; exact IH).
    assert (Herr : error m = "").
    { destruct (string_dec (error m) "") as [E | E]; [exact E|].
      apply IH in E. congruence. }
    destruct (_ || _); [fields; rewrite Herr; split; [discriminate | congruence]|].
    destruct (MIPS_MAX_STEPS <=? steps m); [|discriminate].
    fields. split; [discriminate | reflexivity].
Qed.

Lemma error_message_iff_error_witness :
  let m := stepMipsMachine (initializeMipsMachine undefinedBaseProgram [] []) in
  status m = Error <-> error m <> "".
Proof.
  intros m. apply error_message_iff_error.
  apply reachable_step, reachable_init.
Defined.

Lemma zeroRegisters_complete r : r ∈ MIPS_REGISTERS -> zeroRegisters !! r = Some 0.
Proof.
  unfold MIPS_REGISTERS. intros H.
  repeat (apply elem_of_cons in H; destruct H as [-> | H]; [vm_compute; reflexivity|]).
  apply elem_of_nil in H. contradiction.
Qed.

Lemma insert_complete (regs : gmap string Z) k x :
  (forall r, isRegister r = true -> is_Some (regs !! r)) ->
  forall r, isRegister r = true -> is_Some (<[k := x]> regs !! r).
Proof.
  intros Hregs r Hr. rewrite lookup_insert. destruct (decide (k = r)); [eauto|].
  apply Hregs, Hr.
Qed.

Lemma overrideRegisters_complete regs : forall acc,
  (forall r, isRegister r = true -> is_Some (acc !! r)) ->
  forall r, isRegister r = true -> is_Some (fold_left overrideRegister regs acc !! r).
Proof.
  induction regs as [|[reg value] regs IH]; intros acc Hacc; [exact Hacc|].
  cbn [fold_left]. apply IH. unfold overrideRegister.
  destruct (_ && _); [|exact Hacc]. apply insert_complete, Hacc.
Qed.

Lemma reachable_complete m : reachable m -> registersComplete m.
Proof.
  revert m. apply (reachable_invariant registersComplete).
  - intros src regs mem.
    assert (Hzero : forall r, isRegister r = true -> is_Some (zeroRegisters !! r)).
    { intros r Hr. exists 0. apply zeroRegisters_complete.
      apply bool_decide_eq_true in Hr. unfold MIPS_REGISTER_SET in Hr.
      apply elem_of_list_to_set in Hr. exact Hr. }
    unfold registersComplete, initializeMipsMachine.
    destruct (parseMipsProgram src); cbn [registers].
    + apply insert_complete, overrideRegisters_complete, Hzero.
    + exact Hzero.
  - intros m _ IH He.
    assert (Hw : forall name value,
              registersComplete (writeMipsRegister (withSteps m (steps m + 1)) name value)).
    { intros name value. unfold registersComplete. rewrite writeMipsRegister_registers.
      destruct (writable name); [apply insert_complete|]; exact IH. }
    apply executeInstruction_outcomes; intros; unfold registersComplete; fields;
      try exact IH; try (apply insert_complete); try exact IH.
    + apply Hw.
    + destruct (touchMemory_others
                  (writeMipsRegister (withSteps m (steps m + 1)) name value) key)
        as (_ & -> & _). apply Hw.
    + match goal with
      | |- context [touchMemory ?x ?k] =>
          destruct (touchMemory_others x k) as (_ & -> & _)
      end. exact IH.
    + destruct (status m); exact IH.
  - intros m _ IH He. unfold registersComplete.
    apply step_idle in He as (_ & _ & -> & _). exact IH.
Qed.

(** X3. The register file of a reachable state has an entry for each of
    the 32 register names and for no other name. *)
Theorem register_file_domain m :
  reachable m -> dom (registers m) = MIPS_REGISTER_SET.
Proof.
  intros Hm. apply set_eq. intros r. rewrite elem_of_dom. split.
  - intros [v Hv]. apply (reachable_defined m Hm) in Hv.
    apply bool_decide_eq_true in Hv. exact Hv.
  - intros Hr. apply (reachable_complete m Hm).
    apply bool_decide_eq_true. exact Hr.
Qed.

Lemma register_file_domain_witness :
  let m := stepN 2 (initializeMipsMachine undefinedNameProgram
                      [("$q9", Num.Finite 1 0); ("$t0", Num.Finite 3 0)] []) in
  dom (registers m) = MIPS_REGISTER_SET.
Proof.
  intros m. apply register_file_domain.
  apply reachable_step, reachable_step, reachable_init.
Defined.

(** ** The touched lists and the output *)

Lemma NoDup_snoc (l : list string) x : NoDup l -> x ∉ l -> NoDup (l ++ [x]).
Proof.
  intros Hl Hx. apply NoDup_app. split; [exact Hl|]. split.
  - intros y Hy Hy'. apply list_elem_of_singleton in Hy'. subst y. contradiction.
  - apply NoDup_singleton.
Qed.

Lemma writeMipsRegister_wellFormed machine name value :
  touchedWellFormed machine -> touchedWellFormed (writeMipsRegister machine name value).
Proof.
  intros (Hr & Hm & Hw). unfold touchedWellFormed.
  destruct (writeMipsRegister_others machine name value) as (_ & _ & _ & _ & _ & _ & _ & ->).
  destruct (writeMipsRegister_touched machine name value) as (_ & [-> | (Hn & Hfresh & ->)]).
  - repeat split; assumption.
  - split; [apply NoDup_snoc; assumption|]. split; [exact Hm|].
    intros r Hin. apply elem_of_app in Hin as [Hin | Hin]; [apply Hw, Hin|].
    apply list_elem_of_singleton in Hin. subst r. exact Hn.
Qed.

Lemma touchMemory_wellFormed machine key :
  touchedWellFormed machine -> touchedWellFormed (touchMemory machine key).
Proof.
  intros (Hr & Hm & Hw). unfold touchedWellFormed.
  destruct (touchMemory_touched machine key) as (_ & -> & [-> | (Hfresh & ->)]).
  - repeat split; assumption.
  - split; [exact Hr|]. split; [apply NoDup_snoc; assumption | exact Hw].
Qed.

Lemma step_idle_rest m :
  executes m = false ->
  source (stepMipsMachine m) = source m
  /\ output (stepMipsMachine m) = output m
  /\ touchedRegisters (stepMipsMachine m) = touchedRegisters m
  /\ touchedMemory (stepMipsMachine m) = touchedMemory m.
Proof.
  unfold executes, stepMipsMachine. intros H.
  destruct (status m) eqn:Hs; try (repeat split; reflexivity).
  destruct (_ || _); [repeat split; reflexivity|].
  destruct (MIPS_MAX_STEPS <=? steps m); [repeat split; reflexivity | discriminate].
Qed.

(** X4. In a reachable state the lists of touched registers and of touched
    memory keys have no duplicates, and a touched register is one of the
    31 registers that can be written. *)
Theorem touched_lists_are_sets m :
  reachable m ->
  NoDup (touchedRegisters m)
  /\ NoDup (touchedMemory m)
  /\ (forall r, r ∈ touchedRegisters m -> writable r = true).
Proof.
  revert m. apply (reachable_invariant touchedWellFormed).
  - intros src regs mem. unfold touchedWellFormed, initializeMipsMachine.
    destruct (parseMipsProgram src); cbn [touchedRegisters touchedMemory];
      (split; [apply NoDup_nil_2|]; split; [apply NoDup_nil_2|]);
      intros r Hr; apply elem_of_nil in Hr; contradiction.
  - intros m _ IH He.
    assert (IH' : touchedWellFormed (withSteps m (steps m + 1))) by exact IH.
    apply executeInstruction_outcomes; intros;
      try exact IH';
      try (apply (writeMipsRegister_wellFormed _ name value) in IH'; exact IH').
    + apply (touchMemory_wellFormed _ key).
      apply (writeMipsRegister_wellFormed _ name value). exact IH'.
    + apply (touchMemory_wellFormed
               (withMemory (withSteps m (steps m + 1))
                  (<[key:=Num.toInt32 value]> (memory (withSteps m (steps m + 1))))) key).
      exact IH'.
    + unfold touchedWellFormed. fields. destruct (status m); exact IH.
  - intros m _ IH He. unfold touchedWellFormed.
    destruct (step_idle_rest m He) as (_ & _ & -> & ->). exact IH.
Qed.

Lemma touched_lists_are_sets_witness :
  let m := stepN 4 (initializeMipsMachine roundtripProgram [] []) in
  NoDup (touchedRegisters m)
  /\ NoDup (touchedMemory m)
  /\ (forall r, r ∈ touchedRegisters m -> writable r = true).
Proof.
  intros m. apply touched_lists_are_sets.
  apply reachable_step, reachable_step, reachable_step, reachable_step, reachable_init.
Defined.

Lemma string_app_nil_r (s : string) : s ++ "" = s.
Proof.
  induction s as [|c s IH]; [reflexivity|].
  change (String c s ++ "") with (String c (s ++ "")). rewrite IH. reflexivity.
Qed.

Lemma string_app_assoc (s t u : string) : (s ++ t) ++ u = s ++ (t ++ u).
Proof.
  induction s as [|c s IH]; [reflexivity|].
  change ((String c s ++ t) ++ u) with (String c ((s ++ t) ++ u)).
  rewrite IH. reflexivity.
Qed.

Lemma extends_refl m : extends m m.
Proof.
  split; [exists ""; symmetry; apply string_app_nil_r|]. split; reflexivity.
Qed.

Lemma extends_trans m1 m2 m3 : extends m1 m2 -> extends m2 m3 -> extends m1 m3.
Proof.
  intros ([t1 H1] & Hr1 & Hm1) ([t2 H2] & Hr2 & Hm2). split.
  - exists (t1 ++ t2). rewrite H2, H1. apply string_app_assoc.
  - split; etransitivity; eassumption.
Qed.

Lemma writeMipsRegister_extends machine name value :
  extends machine (writeMipsRegister machine name value).
Proof.
  destruct (writeMipsRegister_others machine name value)
    as (_ & _ & Ho & _ & _ & _ & _ & Hm).
  destruct (writeMipsRegister_touched machine name value) as (_ & Hr).
  split; [exists ""; rewrite Ho; symmetry; apply string_app_nil_r|].
  split; [|rewrite Hm; reflexivity].
  destruct Hr as [-> | (_ & _ & ->)]; [reflexivity | apply prefix_app_r; reflexivity].
Qed.

Lemma touchMemory_extends machine key : extends machine (touchMemory machine key).
Proof.
  destruct (touchMemory_others machine key) as (_ & _ & _ & Ho & _).
  destruct (touchMemory_touched machine key) as (_ & Hr & Hm).
  split; [exists ""; rewrite Ho; symmetry; apply string_app_nil_r|].
  split; [rewrite Hr; reflexivity|].
  destruct Hm as [-> | (_ & ->)]; [reflexivity | apply prefix_app_r; reflexivity].
Qed.

Lemma executeInstruction_extends machine inst :
  extends machine (executeInstruction machine inst).
Proof.
  apply executeInstruction_outcomes; intros.
  - exact (extends_refl machine).
  - apply (extends_trans _ (writeMipsRegister machine name value));
      [apply writeMipsRegister_extends | exact (extends_refl _)].
  - apply (extends_trans _ (writeMipsRegister machine name value));
      [apply writeMipsRegister_extends|].
    apply (extends_trans _ (touchMemory (writeMipsRegister machine name value) key));
      [apply touchMemory_extends | exact (extends_refl _)].
  - set (stored := withMemory machine (<[key:=Num.toInt32 value]> (memory machine))).
    apply (extends_trans _ stored); [exact (extends_refl machine)|].
    apply (extends_trans _ (touchMemory stored key));
      [apply touchMemory_extends | exact (extends_refl _)].
  - exact (extends_refl machine).
  - exact (extends_refl machine).
  - split; [exists text|split]; fields; destruct (status machine); reflexivity.
  - exact (extends_refl machine).
Qed.

Lemma step_extends m : extends m (stepMipsMachine m).
Proof.
  destruct (executes m) eqn:He.
  - rewrite step_executes by exact He.
    apply (extends_trans _ (withSteps m (steps m + 1))); [exact (extends_refl m)|].
    apply executeInstruction_extends.
  - destruct (step_idle_rest m He) as (_ & Ho & Hr & Hm).
    split; [exists ""; rewrite Ho; symmetry; apply string_app_nil_r|].
    split; [rewrite Hr | rewrite Hm]; reflexivity.
Qed.

(** X5. Stepping only appends: after any number of steps from any state,
    the output begins with the earlier output and the lists of touched
    registers and memory keys begin with the earlier lists. *)
Theorem stepping_only_appends n m :
  (exists text, output (stepN n m) = output m ++ text)
  /\ touchedRegisters m `prefix_of` touchedRegisters (stepN n m)
  /\ touchedMemory m `prefix_of` touchedMemory (stepN n m).
Proof.
  revert m. induction n as [|n IH]; intros m; [apply extends_refl|].
  cbn [stepN]. apply (extends_trans m (stepMipsMachine m)); [apply step_extends | apply IH].
Qed.

Lemma executeInstruction_source machine inst :
  source (executeInstruction machine inst) = source machine.
Proof.
  apply executeInstruction_outcomes; intros; fields; try reflexivity.
  - apply writeMipsRegister_touched.
  - destruct (touchMemory_touched (writeMipsRegister machine name value) key) as (-> & _).
    apply writeMipsRegister_touched.
  - match goal with
    | |- context [touchMemory ?x ?k] => destruct (touchMemory_touched x k) as (-> & _)
    end. reflexivity.
  - destruct (status machine); reflexivity.
Qed.

(** X6. Stepping never changes the loaded program or the source text: after
    any number of steps from any state both are what they were. *)
Theorem program_is_immutable n m :
  program (stepN n m) = program m /\ source (stepN n m) = source m.
Proof.
  revert m. induction n as [|n IH]; intros m; [split; reflexivity|].
  cbn [stepN]. destruct (IH (stepMipsMachine m)) as [-> ->].
  split; [apply step_program|].
  destruct (executes m) eqn:He.
  - rewrite step_executes by exact He. rewrite executeInstruction_source. reflexivity.
  - apply step_idle_rest, He.
Qed.

(** X7. A step that ends in the error status changes nothing but the
    status, the error message and the step counter: registers, memory, pc,
    output and touched lists are those of the state before. *)
Theorem failing_step_freezes m :
  status (stepMipsMachine m) = Error ->
  registers (stepMipsMachine m) = registers m
  /\ memory (stepMipsMachine m) = memory m
  /\ pc (stepMipsMachine m) = pc m
  /\ output (stepMipsMachine m) = output m
  /\ touchedRegisters (stepMipsMachine m) = touchedRegisters m
  /\ touchedMemory (stepMipsMachine m) = touchedMemory m.
Proof.
  destruct (executes m) eqn:He.
  - pose proof (executes_ready m He) as Hs.
    rewrite step_executes by exact He.
    apply executeInstruction_outcomes; intros.
    + repeat split.
    + rewrite status_written in H. fields. congruence.
    + rewrite status_touched in H.
      destruct (writeMipsRegister_others (withSteps m (steps m + 1)) name value)
        as (_ & _ & _ & Hst & _). rewrite Hst in H. fields. congruence.
    + rewrite status_touched in H. fields. congruence.
    + fields. congruence.
    + fields. congruence.
    + revert H. fields. rewrite Hs. fields. congruence.
    + fields. discriminate.
  - intros _. destruct (step_idle m He) as (_ & _ & Hr & Hm & Hpc & _).
    destruct (step_idle_rest m He) as (_ & Ho & Htr & Htm).
    repeat split; assumption.
Qed.

Lemma failing_step_freezes_witness :
  let m := stepMipsMachine
             (initializeMipsMachine (inTextSection (onLines ["li $t0, 7"; "j nowhere"])) [] []) in
  registers (stepMipsMachine m) = registers m
  /\ memory (stepMipsMachine m) = memory m
  /\ pc (stepMipsMachine m) = pc m
  /\ output (stepMipsMachine m) = output m
  /\ touchedRegisters (stepMipsMachine m) = touchedRegisters m
  /\ touchedMemory (stepMipsMachine m) = touchedMemory m.
Proof.
  intros m. apply failing_step_freezes. vm_compute. reflexivity.
Defined.

(** ** The loader *)

Lemma fold_left_invariant {A B : Type} (f : A -> B -> A) (I : A -> Prop) (l : list B) :
  (forall st x, x ∈ l -> I st -> I (f st x)) ->
  forall st, I st -> I (fold_left f l st).
Proof.
  induction l as [|x l IH]; intros Hf st Hst; [exact Hst|].
  cbn [fold_left]. apply IH.
  - intros st' y Hy. apply Hf. right. exact Hy.
  - apply Hf; [left | exact Hst].
Qed.

(** Case analysis of one iteration of the loader, on a state given by its
    fields. *)
Ltac loadLine_cases rawLine text addrs :=
  unfold loadLine;
  destruct (String.eqb rawLine ".text") eqn:?;
  [| destruct (String.eqb rawLine ".data") eqn:?;
     [| destruct (test globlPattern rawLine) eqn:?;
        [| destruct (exec inlineLabelPattern rawLine) as [inlineLabel|] eqn:?;
           destruct text;
           repeat match goal with
                  | |- context [Js.isEmpty ?s] => destruct (Js.isEmpty s) eqn:?
                  | |- context [match addrs !! ?k with _ => _ end] =>
                      destruct (addrs !! k) eqn:?
                  | |- context [exec asciizPattern ?s] =>
                      destruct (exec asciizPattern s) as [asciiz|] eqn:?
                  | |- context [exec wordPattern ?s] =>
                      destruct (exec wordPattern s) as [words|] eqn:?
                  end ]]];
  cbn [ldLabels ldInstructions ldDataByAddress ldDataAddresses nextDataAddress inText negb].

Lemma loadLine_labels st rawLine :
  labelsInRange (ldLabels st) (length (ldInstructions st)) ->
  labelsInRange (ldLabels (loadLine st rawLine))
                (length (ldInstructions (loadLine st rawLine))).
Proof.
  destruct st as [lbls insts byAddr addrs next text].
  cbn [ldLabels ldInstructions]. intros H.
  assert (Hins : forall k, labelsInRange (<[k := Z.of_nat (length insts)]> lbls) (length insts)).
  { intros k l v. rewrite lookup_insert. destruct (decide (k = l)).
    - intros [= <-]. lia.
    - apply H. }
  assert (Hgrow : forall lb line, labelsInRange lb (length insts) ->
                    labelsInRange lb (length (insts ++ [line]))).
  { intros lb line Hlb l v Hv. apply Hlb in Hv. rewrite length_app. cbn [length]. lia. }
  loadLine_cases rawLine text addrs;
    try exact H; try apply Hins; try (apply Hgrow; first [exact H | apply Hins]).
Qed.

Lemma length_nonneg (s : string) : 0 <= Js.length s.
Proof. unfold Js.length. lia. Qed.

Lemma loadLine_data st rawLine : dataInRange st -> dataInRange (loadLine st rawLine).
Proof.
  destruct st as [lbls insts byAddr addrs next text].
  unfold dataInRange. cbn [ldDataByAddress ldDataAddresses nextDataAddress].
  intros (Hnext & Haddrs & Hby).
  assert (Hins : forall k l a, <[k := next]> addrs !! l = Some a -> MIPS_DATA_BASE <= a).
  { intros k l a. rewrite lookup_insert. destruct (decide (k = l)).
    - intros [= <-]. exact Hnext.
    - apply Haddrs. }
  assert (Hby' : forall k x a s, MIPS_DATA_BASE <= k ->
                   <[k := x]> byAddr !! a = Some s -> MIPS_DATA_BASE <= a).
  { intros k x a s Hk. rewrite lookup_insert. destruct (decide (k = a)).
    - intros _. subst a. exact Hk.
    - apply Hby. }
  assert (Hdef : forall (ad : gmap string Z) k,
            (forall l a, ad !! l = Some a -> MIPS_DATA_BASE <= a) ->
            MIPS_DATA_BASE <= default next (ad !! k)).
  { intros ad k Had. destruct (ad !! k) as [a|] eqn:Hk; [apply (Had _ _ Hk) | exact Hnext]. }
  assert (Hsome : forall k a, addrs !! k = Some a -> MIPS_DATA_BASE <= default next (Some a)).
  { intros k a Hk. apply (Haddrs _ _ Hk). }
  loadLine_cases rawLine text addrs;
    (split; [|split]);
    try assumption; try (intros l a; apply Hins);
    try (intros a s; apply Hby');
    repeat match goal with
           | |- context [Js.length ?s] =>
               lazymatch goal with
               | _ : 0 <= Js.length s |- _ => fail
               | _ => pose proof (length_nonneg s)
               end
           | |- context [default next (?ad !! ?k)] =>
               lazymatch goal with
               | _ : MIPS_DATA_BASE <= default next (ad !! k) |- _ => fail
               | _ => first [ pose proof (Hdef ad k Haddrs)
                            | pose proof (Hdef ad k (Hins _)) ]
               end
           | H : addrs !! ?k = Some ?a |- context [default next (Some ?a)] =>
               lazymatch goal with
               | _ : MIPS_DATA_BASE <= default next (Some a) |- _ => fail
               | _ => pose proof (Hsome k a H)
               end
           end;
    try lia.
Qed.

(** *** Trimming *)

Lemma trimStart_startsTrimmed s : startsTrimmed (Js.trimStart s).
Proof.
  induction s as [|c s IH]; [exact I|].
  cbn [Js.trimStart]. destruct (Js.isWhiteSpace c) eqn:Hc; [exact IH | exact Hc].
Qed.

Lemma trimStart_id s : startsTrimmed s -> Js.trimStart s = s.
Proof.
  destruct s as [|c s]; [reflexivity|]. cbn [startsTrimmed Js.trimStart].
  intros ->. reflexivity.
Qed.

Lemma trimEnd_startsTrimmed s : startsTrimmed s -> startsTrimmed (Js.trimEnd s).
Proof.
  destruct s as [|c s]; [intros _; exact I|]. cbn [startsTrimmed Js.trimEnd].
  intros Hc. destruct (Js.trimEnd s); [rewrite Hc|]; exact Hc.
Qed.

Lemma trimEnd_cons c s :
  Js.trimEnd (String c s)
  = match Js.trimEnd s with
    | EmptyString => if Js.isWhiteSpace c then EmptyString else String c EmptyString
    | String d t => String c (String d t)
    end.
Proof. reflexivity. Qed.

Lemma trimEnd_idempotent s : Js.trimEnd (Js.trimEnd s) = Js.trimEnd s.
Proof.
  induction s as [|c s IH]; [reflexivity|].
  rewrite trimEnd_cons. destruct (Js.trimEnd s) as [|d t] eqn:Ht.
  - destruct (Js.isWhiteSpace c) eqn:Hc; [reflexivity|].
    rewrite trimEnd_cons. cbn [Js.trimEnd]. rewrite Hc. reflexivity.
  - rewrite trimEnd_cons, IH. reflexivity.
Qed.

Lemma trim_idempotent s : Js.trim (Js.trim s) = Js.trim s.
Proof.
  unfold Js.trim.
  rewrite (trimStart_id (Js.trimEnd (Js.trimStart s)))
    by apply trimEnd_startsTrimmed, trimStart_startsTrimmed.
  apply trimEnd_idempotent.
Qed.

(** *** The instructions that are loaded *)

Lemma isEmpty_false s : Js.isEmpty s = false -> s <> "".
Proof. destruct s; [discriminate | intros _; discriminate]. Qed.

Lemma loadLine_instructions st rawLine :
  trimmedLine rawLine ->
  Forall trimmedLine (ldInstructions st) ->
  Forall trimmedLine (ldInstructions (loadLine st rawLine)).
Proof.
  destruct st as [lbls insts byAddr addrs next text].
  cbn [ldInstructions]. intros Hraw H.
  loadLine_cases rawLine text addrs; try exact H;
    (apply Forall_app; split; [exact H|]); apply Forall_singleton; try exact Hraw;
    (split; [|apply trim_idempotent]);
    match goal with
    | E : Js.isEmpty _ = false |- _ => apply isEmpty_false; exact E
    end.
Qed.

Lemma rawLinesOf_trimmed src : Forall trimmedLine (rawLinesOf src).
Proof.
  unfold rawLinesOf. apply Forall_forall. intros line Hin.
  apply list_elem_of_filter in Hin as [Hne Hin].
  apply list_elem_of_fmap in Hin as (raw & -> & _).
  split; [exact Hne | apply trim_idempotent].
Qed.

Lemma loadLine_needs_text st rawLine :
  rawLine <> ".text" ->
  inText st = false /\ ldInstructions st = [] ->
  inText (loadLine st rawLine) = false /\ ldInstructions (loadLine st rawLine) = [].
Proof.
  destruct st as [lbls insts byAddr addrs next text].
  cbn [inText ldInstructions]. intros Hraw [Ht ->]. revert Ht.
  loadLine_cases rawLine text addrs; intros Ht; try discriminate Ht;
    try (split; reflexivity); try (split; [exact Ht | reflexivity]);
    try match goal with
    | E : String.eqb rawLine ".text" = true |- _ => apply String.eqb_eq in E; contradiction
    end.
Qed.

Lemma parseMipsProgram_ok src parsed :
  parseMipsProgram src = ParseOk parsed ->
  let final := fold_left loadLine (rawLinesOf src) loaderStart in
  instructions parsed = ldInstructions final
  /\ labels parsed = ldLabels final
  /\ dataByAddress parsed = ldDataByAddress final
  /\ dataAddresses parsed = ldDataAddresses final
  /\ ldInstructions final <> [].
Proof.
  unfold parseMipsProgram. cbv zeta.
  destruct (ldInstructions (fold_left loadLine (rawLinesOf src) loaderStart)) eqn:Hi;
    cbn [length Nat.eqb]; [discriminate|].
  intros [= <-]. cbn [instructions labels dataByAddress dataAddresses].
  repeat split; try assumption. discriminate.
Qed.

(** X8. Every instruction of a loaded program is a non-empty line without
    white space at either end, and a loaded program has at least one
    instruction. *)
Theorem loaded_instructions_are_trimmed src parsed :
  parseMipsProgram src = ParseOk parsed ->
  instructions parsed <> []
  /\ Forall (fun inst => inst <> "" /\ Js.trim inst = inst) (instructions parsed).
Proof.
  intros Hp. destruct (parseMipsProgram_ok src parsed Hp) as (-> & _ & _ & _ & Hne).
  split; [exact Hne|].
  apply (fold_left_invariant loadLine (fun st => Forall trimmedLine (ldInstructions st))).
  - intros st line Hin Hst. apply loadLine_instructions; [|exact Hst].
    pose proof (rawLinesOf_trimmed src) as Hall.
    rewrite Forall_forall in Hall. apply Hall, Hin.
  - apply Forall_nil_2.
Qed.

Lemma loaded_instructions_are_trimmed_witness :
  exists parsed,
    parseMipsProgram sampleProgram = ParseOk parsed
    /\ instructions parsed <> []
    /\ Forall (fun inst => inst <> "" /\ Js.trim inst = inst) (instructions parsed).
Proof.
  destruct (parseMipsProgram sampleProgram) as [parsed | message] eqn:Hp.
  - exists parsed. split; [reflexivity|].
    apply (loaded_instructions_are_trimmed sampleProgram parsed Hp).
  - vm_compute in Hp. discriminate Hp.
Defined.

Lemma loaded_labels_in_range_aux src parsed :
  parseMipsProgram src = ParseOk parsed ->
  labelsInRange (labels parsed) (length (instructions parsed)).
Proof.
  intros Hp. destruct (parseMipsProgram_ok src parsed Hp) as (-> & -> & _).
  apply (fold_left_invariant loadLine
           (fun st => labelsInRange (ldLabels st) (length (ldInstructions st)))).
  - intros st line _. apply loadLine_labels.
  - intros l v Hv. cbn [loaderStart ldLabels] in Hv.
    rewrite lookup_empty in Hv. discriminate Hv.
Qed.

(** X9. Every label of a loaded program designates an index between 0 and
    the number of instructions: the place of the instruction that follows
    the label, or the end of the program. *)
Theorem loaded_labels_in_range src parsed :
  parseMipsProgram src = ParseOk parsed ->
  forall label index,
    labels parsed !! label = Some index ->
    0 <= index <= Z.of_nat (length (instructions parsed)).
Proof.
  intros Hp label index Hl.
  apply (loaded_labels_in_range_aux src parsed Hp label index Hl).
Qed.

(** X10. Every data label of a loaded program and every address that holds
    a string lie at or above MIPS_DATA_BASE. *)
Theorem loaded_data_above_base src parsed :
  parseMipsProgram src = ParseOk parsed ->
  (forall label address,
      dataAddresses parsed !! label = Some address -> MIPS_DATA_BASE <= address)
  /\ (forall address text,
      dataByAddress parsed !! address = Some text -> MIPS_DATA_BASE <= address).
Proof.
  intros Hp. destruct (parseMipsProgram_ok src parsed Hp) as (_ & _ & -> & -> & _).
  apply (fold_left_invariant loadLine dataInRange).
  - intros st line _. apply loadLine_data.
  - unfold dataInRange, loaderStart. cbn. split; [lia|].
    split; intros ? ? H; rewrite lookup_empty in H; discriminate H.
Qed.

(** X11. A source none of whose lines is [.text] (after comments and
    surrounding white space are removed) does not load: whatever the
    overrides, the machine is made in the error status with every register
    at 0, an empty memory and no step counted, and running it to the end
    returns it as it is. *)
Theorem source_without_text_directive src regs mem fuel :
  ".text" ∉ rawLinesOf src ->
  let m := initializeMipsMachine src regs mem in
  parseMipsProgram src = ParseFailed "No MIPS instructions found in .text section."
  /\ status m = Error
  /\ error m = "No MIPS instructions found in .text section."
  /\ registers m = zeroRegisters
  /\ memory m = ∅
  /\ steps m = 0
  /\ runMipsMachineToEnd fuel m = Some m.
Proof.
  intros Hno m.
  assert (Hp : parseMipsProgram src
               = ParseFailed "No MIPS instructions found in .text section.").
  { unfold parseMipsProgram.
    assert (H : inText (fold_left loadLine (rawLinesOf src) loaderStart) = false
                /\ ldInstructions (fold_left loadLine (rawLinesOf src) loaderStart) = []).
    { apply (fold_left_invariant loadLine
               (fun st => inText st = false /\ ldInstructions st = [])).
      - intros st line Hin. apply loadLine_needs_text. intros ->. contradiction.
      - split; reflexivity. }
    destruct H as [_ ->]. reflexivity. }
  subst m. unfold initializeMipsMachine. rewrite Hp.
  repeat split. destruct fuel; reflexivity.
Qed.

Lemma source_without_text_directive_witness :
  let m := initializeMipsMachine scenarioC [("$t0", Num.Finite 5 0)] [("16", Num.Finite 7 0)] in
  parseMipsProgram scenarioC = ParseFailed "No MIPS instructions found in .text section."
  /\ status m = Error
  /\ error m = "No MIPS instructions found in .text section."
  /\ registers m = zeroRegisters
  /\ memory m = ∅
  /\ steps m = 0
  /\ runMipsMachineToEnd 5 m = Some m.
Proof.
  apply (source_without_text_directive scenarioC).
  vm_compute. intros H.
  repeat (apply elem_of_cons in H; destruct H as [H | H]; [discriminate H|]).
  apply elem_of_nil in H. exact H.
Defined.

Lemma loaded_labels_in_range_witness :
  exists parsed,
    parseMipsProgram (inTextSection scenarioC) = ParseOk parsed
    /\ forall label index,
         labels parsed !! label = Some index ->
         0 <= index <= Z.of_nat (length (instructions parsed)).
Proof.
  destruct (parseMipsProgram (inTextSection scenarioC)) as [parsed | message] eqn:Hp.
  - exists parsed. split; [reflexivity|].
    apply (loaded_labels_in_range (inTextSection scenarioC) parsed Hp).
  - vm_compute in Hp. discriminate Hp.
Defined.

Lemma loaded_data_above_base_witness :
  exists parsed,
    parseMipsProgram sampleProgram = ParseOk parsed
    /\ (forall label address,
          dataAddresses parsed !! label = Some address -> MIPS_DATA_BASE <= address)
    /\ (forall address text,
          dataByAddress parsed !! address = Some text -> MIPS_DATA_BASE <= address).
Proof.
  destruct (parseMipsProgram sampleProgram) as [parsed | message] eqn:Hp.
  - exists parsed. split; [reflexivity|].
    apply (loaded_data_above_base sampleProgram parsed Hp).
  - vm_compute in Hp. discriminate Hp.
Defined.

(** ** The program counter *)

Lemma reachable_pcInProgram m : reachable m -> pcInProgram m.
Proof.
  revert m. apply (reachable_invariant pcInProgram).
  - intros src regs mem. unfold pcInProgram, initializeMipsMachine.
    destruct (parseMipsProgram src) as [parsed | message] eqn:Hp; cbn [program pc].
    + split; [|lia]. intros l v. apply (loaded_labels_in_range_aux src parsed Hp).
    + cbn [labels instructions length]. split; [|lia].
      intros l v H. rewrite lookup_empty in H. discriminate H.
  - intros m _ [Hl Hpc] He. pose proof (executes_in_range m He) as Hin.
    unfold pcInProgram. rewrite executeInstruction_program. fields.
    split; [exact Hl|].
    apply executeInstruction_outcomes; intros; fields; try lia.
    + destruct (writeMipsRegister_others (withSteps m (steps m + 1)) name value)
        as (_ & _ & _ & _ & _ & -> & _). fields. lia.
    + destruct (touchMemory_others
                  (writeMipsRegister (withSteps m (steps m + 1)) name value) key)
        as (_ & _ & _ & _ & _ & _ & -> & _).
      destruct (writeMipsRegister_others (withSteps m (steps m + 1)) name value)
        as (_ & _ & _ & _ & _ & -> & _). fields. lia.
    + match goal with
      | |- context [touchMemory ?x ?k] =>
          destruct (touchMemory_others x k) as (_ & _ & _ & _ & _ & _ & -> & _)
      end. fields. lia.
    + apply (Hl label target). assumption.
    + destruct (status m); fields; lia.
  - intros m _ [Hl Hpc] He. unfold pcInProgram.
    destruct (step_idle m He) as (_ & -> & _ & _ & -> & _). split; assumption.
Qed.

(** X12. In a reachable state the program counter lies between 0 and the
    number of instructions: it is never negative, and past the last
    instruction only by one position, where the next step halts. *)
Theorem pc_in_program m :
  reachable m -> 0 <= pc m <= Z.of_nat (length (instructions (program m))).
Proof. intros Hm. apply (reachable_pcInProgram m Hm). Qed.

Lemma pc_in_program_witness :
  let m := stepN 3 (initializeMipsMachine (inTextSection scenarioB) [] []) in
  0 <= pc m <= Z.of_nat (length (instructions (program m))).
Proof.
  intros m. apply pc_in_program.
  apply reachable_step, reachable_step, reachable_step, reachable_init.
Defined.

(** ** The overrides of the caller *)

Lemma overrideRegister_other regs reg : forall acc,
  reg ∉ map fst regs ->
  fold_left overrideRegister regs acc !! reg = acc !! reg.
Proof.
  induction regs as [|[name value] regs IH]; intros acc Hreg; [reflexivity|].
  cbn [fold_left]. cbn [map fst] in Hreg.
  apply not_elem_of_cons in Hreg as [Hne Hreg].
  rewrite IH by exact Hreg. unfold overrideRegister.
  destruct (_ && _); [|reflexivity]. apply lookup_insert_ne. congruence.
Qed.

(** X13. When the source loads, the last override given for a register
    other than $zero decides its initial value, reduced to 32 bits; a
    register without override starts at 0. *)
Theorem register_override_last_wins src parsed mem (before : Overrides) reg value
    (after : Overrides) :
  parseMipsProgram src = ParseOk parsed ->
  writable reg = true ->
  reg ∉ map fst after ->
  let m := initializeMipsMachine src (before ++ (reg, value) :: after)%list mem in
  registers m !! reg = Some (Num.toInt32Number value)
  /\ (forall other,
        isRegister other = true ->
        other ∉ map fst (before ++ (reg, value) :: after)%list ->
        registers m !! other = Some 0).
Proof.
  intros Hp Hw Hafter m. subst m. unfold initializeMipsMachine. rewrite Hp.
  cbn [registers]. split.
  - rewrite lookup_insert_ne
      by (intros E; symmetry in E; revert E; apply writable_not_zero, Hw).
    rewrite fold_left_app. cbn [fold_left].
    rewrite overrideRegister_other by exact Hafter.
    unfold overrideRegister at 1. unfold writable in Hw. rewrite Hw.
    apply lookup_insert_eq.
  - intros other Ho Hnot. destruct (decide ("$zero" = other)) as [<- | Hne].
    + apply lookup_insert_eq.
    + rewrite lookup_insert_ne by exact Hne.
      rewrite overrideRegister_other by exact Hnot.
      apply zeroRegisters_complete.
      apply bool_decide_eq_true in Ho. unfold MIPS_REGISTER_SET in Ho.
      apply elem_of_list_to_set in Ho. exact Ho.
Qed.

Lemma register_override_last_wins_witness :
  let m := initializeMipsMachine (inTextSection scenarioB)
             ([("$t0", Num.Finite 1 0); ("$zero", Num.Finite 9 0)]
              ++ ("$t0", Num.Finite 4294967301 0) :: [("$t1", Num.NaN)])%list [] in
  registers m !! "$t0" = Some (Num.toInt32Number (Num.Finite 4294967301 0))
  /\ (forall other,
        isRegister other = true ->
        other ∉ map fst ([("$t0", Num.Finite 1 0); ("$zero", Num.Finite 9 0)]
                         ++ ("$t0", Num.Finite 4294967301 0) :: [("$t1", Num.NaN)])%list ->
        registers m !! other = Some 0).
Proof.
  destruct (parseMipsProgram (inTextSection scenarioB)) as [parsed | message] eqn:Hp.
  - apply (register_override_last_wins (inTextSection scenarioB) parsed [] _ "$t0" _ _ Hp).
    + vm_compute. reflexivity.
    + cbn [map fst]. intros H. apply list_elem_of_singleton in H. discriminate H.
  - vm_compute in Hp. discriminate Hp.
Defined.

(** X14. When the source loads, an initial memory override is stored under
    the address its textual key parses to, reduced to 32 bits, and the last
    override whose key parses to an address decides the word there: keys
    that spell the same address, in decimal or hexadecimal, name the same
    cell. *)
Theorem memory_override_by_address src parsed regs (before : Overrides) key value
    (after : Overrides) address :
  parseMipsProgram src = ParseOk parsed ->
  parseMipsNumber key = Some address ->
  (forall k v, In (k, v) after -> parseMipsNumber k <> Some address) ->
  memory (initializeMipsMachine src regs (before ++ (key, value) :: after)%list)
    !! String_ address
  = Some (Num.toInt32Number value).
Proof.
  intros Hp Hkey Hafter. unfold initializeMipsMachine. rewrite Hp. cbn [memory].
  rewrite fold_left_app. cbn [fold_left].
  rewrite overrideMemory_other by exact Hafter.
  unfold overrideMemory at 1. rewrite Hkey.
  unfold sanitizeMipsMemoryAddress.
  rewrite toInt32_id by (eapply parseMipsNumber_int32; exact Hkey).
  apply lookup_insert_eq.
Qed.

Lemma memory_override_by_address_witness :
  memory (initializeMipsMachine overriddenProgram []
            ([("16", Num.Finite 6 0)] ++ ("0x10", Num.Finite 9 0) :: [("x", Num.Finite 1 0)])%list)
    !! String_ 16
  = Some (Num.toInt32Number (Num.Finite 9 0)).
Proof.
  destruct (parseMipsProgram overriddenProgram) as [parsed | message] eqn:Hp.
  - apply (memory_override_by_address overriddenProgram parsed [] _ "0x10" _ _ 16 Hp).
    + vm_compute. reflexivity.
    + intros k v [E | []]. injection E as <- _. vm_compute. discriminate.
  - vm_compute in Hp. discriminate Hp.
Defined.

(** ** The driver as an iteration *)

(** X15. When the run-to-end loop returns a state, that state is the first
    one in the sequence of successive steps that is not ready, reached
    within the bound. *)
Theorem run_is_first_terminal_state fuel m r :
  runMipsMachineToEnd fuel m = Some r ->
  exists n,
    (n <= fuel)%nat
    /\ r = stepN n m
    /\ status r <> Ready
    /\ (forall i, (i < n)%nat -> status (stepN i m) = Ready).
Proof.
  revert m. induction fuel as [|fuel IH]; intros m; cbn [runMipsMachineToEnd].
  - destruct (status m) eqn:Hs; [discriminate| |]; intros [= <-];
      (exists 0%nat; split; [lia|]; split; [reflexivity|]; split; [congruence|]; intros; lia).
  - destruct (status m) eqn:Hs.
    + intros Hr. destruct (IH _ Hr) as (n & Hn & -> & Hnr & Hready).
      exists (S n). split; [lia|]. split; [reflexivity|]. split; [exact Hnr|].
      intros [|i] Hi; [exact Hs | apply Hready; lia].
    + intros [= <-]. exists 0%nat.
      split; [lia|]. split; [reflexivity|]. split; [congruence|]. intros; lia.
    + intros [= <-]. exists 0%nat.
      split; [lia|]. split; [reflexivity|]. split; [congruence|]. intros; lia.
Qed.

Lemma run_is_first_terminal_state_witness :
  exists n,
    (n <= 10)%nat
    /\ stepN 4 (initializeMipsMachine (inTextSection scenarioB) [] [])
       = stepN n (initializeMipsMachine (inTextSection scenarioB) [] [])
    /\ status (stepN 4 (initializeMipsMachine (inTextSection scenarioB) [] [])) <> Ready
    /\ (forall i, (i < n)%nat ->
          status (stepN i (initializeMipsMachine (inTextSection scenarioB) [] [])) = Ready).
Proof.
  apply (run_is_first_terminal_state 10). vm_compute. reflexivity.
Defined.

(** ** More on single steps *)

(** X17. A step that executes an instruction and does not fail leaves 0 in
    the zero register, whatever that register held before the step. *)
Theorem completed_step_resets_zero m :
  executes m = true ->
  status (stepMipsMachine m) <> Error ->
  registers (stepMipsMachine m) !! "$zero" = Some 0.
Proof.
  intros He. rewrite step_executes by exact He.
  apply executeInstruction_resets_zero.
Qed.

Lemma completed_step_resets_zero_witness :
  let m0 := initializeMipsMachine (inTextSection scenarioB) [] [] in
  let m := withRegisters m0 (<["$zero" := 7]> (registers m0)) in
  registers (stepMipsMachine m) !! "$zero" = Some 0.
Proof.
  intros m0 m. apply completed_step_resets_zero.
  - vm_compute. reflexivity.
  - vm_compute. discriminate.
Defined.

Lemma step_error_cause_witness :
  errorCause (initializeMipsMachine undefinedBaseProgram [] []).
Proof.
  apply step_error_cause; vm_compute; reflexivity.
Defined.

Lemma reachable_wordsInRange m : reachable m -> wordsInRange m.
Proof.
  induction 1 as [src regs mem | m _ IH];
    [apply initializeMipsMachine_int32 | apply step_int32, IH].
Qed.

(** X19. In a reachable state a load-immediate leaves the parsed immediate
    in its destination and a move leaves there the value of its source
    register, both unchanged: no truncation occurs, the values being
    32-bit already. *)
Theorem li_and_move_are_exact m rd :
  reachable m ->
  executes m = true ->
  writable rd = true ->
  (forall whole imm value,
      firstMatch (fetched m) = Some (PLi, [whole; rd; imm]) ->
      parseMipsNumber imm = Some value ->
      readMipsRegister (stepMipsMachine m) rd = value)
  /\ (forall whole rs,
      firstMatch (fetched m) = Some (PMove, [whole; rd; rs]) ->
      readMipsRegister (stepMipsMachine m) rd = readMipsRegister m rs).
Proof.
  intros Hm He Hw. rewrite step_executes by exact He. split.
  - intros whole imm value Hf Himm.
    rewrite (execute_li _ _ _ Hf). cbn [at_ nth]. rewrite Himm.
    rewrite read_after_write by exact Hw.
    apply toInt32_id. eapply parseMipsNumber_int32. exact Himm.
  - intros whole rs Hf.
    rewrite (execute_move _ _ _ Hf). cbn [at_ nth].
    rewrite read_after_write by exact Hw. rewrite readMipsRegister_withSteps.
    apply toInt32_id. unfold readMipsRegister.
    destruct (registers m !! rs) as [v|] eqn:Hv; [|apply zero_int32].
    apply (reachable_wordsInRange m Hm) in Hv. exact Hv.
Qed.

Lemma li_and_move_are_exact_witness :
  let m := initializeMipsMachine (inTextSection (onLines ["li $t0, -0x80000000"])) [] [] in
  readMipsRegister (stepMipsMachine m) "$t0" = -2147483648.
Proof.
  intros m.
  assert (He : executes m = true) by (vm_compute; reflexivity).
  assert (Hw : writable "$t0" = true) by (vm_compute; reflexivity).
  apply (proj1 (li_and_move_are_exact m "$t0" (reachable_init _ _ _) He Hw)
           "li $t0, -0x80000000" "-0x80000000" (-2147483648));
    vm_compute; reflexivity.
Defined.

(** ** The shell runner *)

Example runBashCode_sample :
  runBashCode (fun n => "NOW") bashSample
  = (StatusError,
     onLines ["/workspace"; "hello world"; "a"; "b";
              "command not supported in browser bash runner: ls -la";
              "command not supported in browser bash runner: echo"] ++ "NOW").
Proof. vm_compute. reflexivity. Qed.

Lemma runBashLine_hadError clock st rawLine :
  hadError (runBashLine clock st rawLine)
  = hadError st || (isCommandLine rawLine && negb (supportedCommand rawLine)).
Proof.
  unfold runBashLine, isCommandLine, supportedCommand. cbv zeta.
  destruct (Js.isEmpty (Js.trim rawLine) || startsWith "#" (Js.trim rawLine));
    cbn [negb andb]; [rewrite orb_false_r; reflexivity|].
  destruct (String.eqb (Js.trim rawLine) "pwd"); cbn [orb negb hadError];
    [rewrite orb_false_r; reflexivity|].
  destruct (String.eqb (Js.trim rawLine) "whoami"); cbn [orb negb hadError];
    [rewrite orb_false_r; reflexivity|].
  destruct (String.eqb (Js.trim rawLine) "date"); cbn [orb negb hadError];
    [rewrite orb_false_r; reflexivity|].
  destruct (startsWith "echo " (Js.trim rawLine)); cbn [orb negb hadError];
    [rewrite orb_false_r; reflexivity|].
  destruct (startsWith "printf " (Js.trim rawLine)); cbn [orb negb hadError];
    [rewrite orb_false_r; reflexivity|].
  rewrite orb_true_r. reflexivity.
Qed.

Lemma runBashLoop_hadError clock rawLines : forall st,
  hadError (fold_left (runBashLine clock) rawLines st)
  = hadError st
    || existsb (fun rawLine => isCommandLine rawLine && negb (supportedCommand rawLine))
         rawLines.
Proof.
  induction rawLines as [|rawLine rawLines IH]; intros st; cbn [fold_left existsb].
  - rewrite orb_false_r. reflexivity.
  - rewrite IH, runBashLine_hadError, orb_assoc. reflexivity.
Qed.

(** X20. The shell runner reports the error status exactly when some line
    of the script, once trimmed, is neither blank nor a comment and is not
    one of pwd, whoami, date, an echo with an argument or a printf with an
    argument. *)
Theorem runBashCode_error_iff clock source :
  fst (runBashCode clock source) = StatusError
  <-> exists rawLine,
        In rawLine (Js.split newline source)
        /\ isCommandLine rawLine = true
        /\ supportedCommand rawLine = false.
Proof.
  unfold runBashCode, runBashLoop. cbn [fst].
  rewrite runBashLoop_hadError. cbn [hadError orb]. split.
  - destruct (existsb _ _) eqn:He; [|discriminate]. intros _.
    apply existsb_exists in He as (rawLine & Hin & Hbad).
    apply andb_true_iff in Hbad as [Hc Hs]. apply negb_true_iff in Hs.
    exists rawLine. repeat split; assumption.
  - intros (rawLine & Hin & Hc & Hs).
    replace (existsb _ _) with true; [reflexivity|].
    symmetry. apply existsb_exists. exists rawLine.
    split; [exact Hin|]. rewrite Hc, Hs. reflexivity.
Qed.

Lemma runBashLine_reports clock st rawLine :
  (forall text, In text (bashLines st) -> In text (bashLines (runBashLine clock st rawLine)))
  /\ (isCommandLine rawLine = true -> supportedCommand rawLine = false ->
      In ("command not supported in browser bash runner: " ++ Js.trim rawLine)
         (bashLines (runBashLine clock st rawLine))).
Proof.
  unfold runBashLine, isCommandLine, supportedCommand. cbv zeta.
  destruct (Js.isEmpty (Js.trim rawLine) || startsWith "#" (Js.trim rawLine));
    cbn [negb]; [split; [tauto | discriminate]|].
  destruct (String.eqb (Js.trim rawLine) "pwd"); cbn [orb bashLines];
    [split; [intros; apply in_or_app; tauto | discriminate]|].
  destruct (String.eqb (Js.trim rawLine) "whoami"); cbn [orb bashLines];
    [split; [intros; apply in_or_app; tauto | discriminate]|].
  destruct (String.eqb (Js.trim rawLine) "date"); cbn [orb bashLines];
    [split; [intros; apply in_or_app; tauto | discriminate]|].
  destruct (startsWith "echo " (Js.trim rawLine)); cbn [orb bashLines];
    [split; [intros; apply in_or_app; tauto | discriminate]|].
  destruct (startsWith "printf " (Js.trim rawLine)); cbn [orb bashLines];
    [split; [intros; apply in_or_app; tauto | discriminate]|].
  split; intros; apply in_or_app; [tauto | right; left; reflexivity].
Qed.

Lemma runBashLoop_keeps clock rawLines : forall st text,
  In text (bashLines st) -> In text (bashLines (fold_left (runBashLine clock) rawLines st)).
Proof.
  induction rawLines as [|rawLine rawLines IH]; intros st text Hin; [exact Hin|].
  cbn [fold_left]. apply IH. apply runBashLine_reports. exact Hin.
Qed.

Lemma runBashLoop_reports clock source rawLine :
  In rawLine (Js.split newline source) ->
  isCommandLine rawLine = true ->
  supportedCommand rawLine = false ->
  In ("command not supported in browser bash runner: " ++ Js.trim rawLine)
     (bashLines (runBashLoop clock source)).
Proof.
  unfold runBashLoop. generalize {| bashLines := []; hadError := false; dateCalls := 0 |}.
  induction (Js.split newline source) as [|first rest IH]; intros st Hin Hc Hs;
    [destruct Hin|].
  cbn [fold_left]. destruct Hin as [-> | Hin].
  - apply runBashLoop_keeps. apply runBashLine_reports; assumption.
  - apply IH; assumption.
Qed.

(** In the join of a list of lines, each line stands between separators. *)
Lemma join_line sep (x : string) (after : list string) : forall before : list string,
  exists head tail,
    join sep (before ++ x :: after)%list = head ++ x ++ tail
    /\ (head = "" \/ exists h, head = h ++ sep)
    /\ (tail = "" \/ exists t, tail = sep ++ t).
Proof.
  unfold join. induction before as [|y before IH].
  - exists "". destruct after as [|z after].
    + exists "". cbn [app String.concat]. rewrite string_app_nil_r.
      repeat split; left; reflexivity.
    + exists (sep ++ String.concat sep (z :: after)). cbn [app].
      split; [reflexivity|]. split; [left; reflexivity|].
      right. eexists. reflexivity.
  - destruct IH as (head & tail & E & Hh & Ht).
    exists (y ++ sep ++ head), tail.
    split; [|split; [right | exact Ht]].
    + change ((y :: before) ++ x :: after)%list with (y :: (before ++ x :: after))%list.
      destruct (before ++ x :: after)%list as [|z rest] eqn:El;
        [destruct before; discriminate El|].
      change (String.concat sep (y :: z :: rest))
        with (y ++ sep ++ String.concat sep (z :: rest)).
      rewrite E, !string_app_assoc. reflexivity.
    + destruct Hh as [-> | (h & ->)].
      * exists y. rewrite string_app_nil_r. reflexivity.
      * exists (y ++ sep ++ h). rewrite !string_app_assoc. reflexivity.
Qed.

(** X21. Every line of the script that the shell runner does not implement
    is reported in the returned output: the output holds, as a line of its
    own, the message that names the trimmed line, and the returned status
    is the error status. *)
Theorem runBashCode_reports_unsupported clock source rawLine :
  In rawLine (Js.split newline source) ->
  isCommandLine rawLine = true ->
  supportedCommand rawLine = false ->
  let message := "command not supported in browser bash runner: " ++ Js.trim rawLine in
  fst (runBashCode clock source) = StatusError
  /\ exists head tail,
       snd (runBashCode clock source) = head ++ message ++ tail
       /\ (head = "" \/ exists h, head = h ++ String newline "")
       /\ (tail = "" \/ exists t, tail = String newline "" ++ t).
Proof.
  intros Hin Hc Hs message. split.
  - unfold runBashCode, runBashLoop. cbn [fst].
    rewrite runBashLoop_hadError. cbn [hadError orb].
    replace (existsb _ _) with true; [reflexivity|].
    symmetry. apply existsb_exists. exists rawLine.
    split; [exact Hin|]. rewrite Hc, Hs. reflexivity.
  - pose proof (runBashLoop_reports clock source rawLine Hin Hc Hs) as Hmsg.
    fold message in Hmsg.
    apply in_split in Hmsg as (before & after & Hl).
    destruct (join_line (String newline "") message after before)
      as (head & tail & E & Hh & Ht).
    exists head, tail. split; [|split; assumption].
    unfold runBashCode. cbn [snd]. cbv zeta. rewrite Hl, E.
    destruct head as [|c head]; [|reflexivity].
    reflexivity.
Qed.

(** X22. A script whose lines are all blank or comments runs with the
    success status and the output "(no output)". *)
Theorem runBashCode_without_commands clock source :
  (forall rawLine, In rawLine (Js.split newline source) -> isCommandLine rawLine = false) ->
  runBashCode clock source = (StatusSuccess, "(no output)").
Proof.
  intros Hall. unfold runBashCode, runBashLoop.
  assert (H : forall rawLines st,
            (forall rawLine, In rawLine rawLines -> isCommandLine rawLine = false) ->
            fold_left (runBashLine clock) rawLines st = st).
  { induction rawLines as [|rawLine rawLines IH]; intros st Hl; [reflexivity|].
    cbn [fold_left].
    assert (Hst : runBashLine clock st rawLine = st).
    { specialize (Hl rawLine (or_introl eq_refl)).
      unfold isCommandLine in Hl. apply negb_false_iff in Hl.
      unfold runBashLine. cbv zeta. rewrite Hl. reflexivity. }
    rewrite Hst. apply IH. intros r Hr. apply Hl. right. exact Hr. }
  rewrite H by exact Hall. reflexivity.
Qed.

Lemma runBashCode_reports_unsupported_witness :
  let message := "command not supported in browser bash runner: " ++ Js.trim "ls -la" in
  fst (runBashCode (fun n => "NOW") bashSample) = StatusError
  /\ exists head tail,
       snd (runBashCode (fun n => "NOW") bashSample) = head ++ message ++ tail
       /\ (head = "" \/ exists h, head = h ++ String newline "")
       /\ (tail = "" \/ exists t, tail = String newline "" ++ t).
Proof.
  apply runBashCode_reports_unsupported.
  - vm_compute. tauto.
  - vm_compute. reflexivity.
  - vm_compute. reflexivity.
Defined.

Lemma runBashCode_without_commands_witness :
  runBashCode (fun n => "NOW") (onLines ["# only a comment"; "   "; "#!/bin/sh"])
  = (StatusSuccess, "(no output)").
Proof.
  apply runBashCode_without_commands.
  intros rawLine Hin. vm_compute in Hin.
  repeat (destruct Hin as [<- | Hin]; [vm_compute; reflexivity|]). destruct Hin.
Defined.

(** ** Collection names *)

Example normalizeCollectionName_examples :
  map normalizeCollectionName ["  Project   Alpha "; "a	 b"; "   "; ""; "General"]
  = ["Project Alpha"; "a b"; ""; ""; "General"].
Proof. vm_compute. reflexivity. Qed.

Lemma star_skips {R : Type} (g : string -> R) s : forall prev,
  star Js.isWhiteSpace prev s (fun _ rest => Some (g rest)) = Some (g (Js.trimStart s)).
Proof.
  induction s as [|c s IH]; intros prev; [reflexivity|].
  cbn [star Js.trimStart]. destruct (Js.isWhiteSpace c); [|reflexivity].
  rewrite IH. reflexivity.
Qed.

Lemma trimStart_length s : (String.length (Js.trimStart s) <= String.length s)%nat.
Proof.
  induction s as [|c s IH]; [reflexivity|]. cbn [Js.trimStart].
  destruct (Js.isWhiteSpace c); cbn [String.length]; lia.
Qed.

Lemma matchHere_whitespaceRun prev c s :
  matchHere whitespaceRun prev (String c s)
  = if Js.isWhiteSpace c
    then Some (consumed (String c s) (Js.trimStart s), Js.trimStart s, [])
    else None.
Proof.
  unfold matchHere, whitespaceRun, Plus. cbn [run].
  destruct (Js.isWhiteSpace c); [|reflexivity].
  apply (star_skips (fun rest => (consumed (String c s) rest, rest, @nil (nat * string)))).
Qed.

Lemma consumed_cons c s rest :
  (String.length rest <= String.length s)%nat ->
  consumed (String c s) rest
  = String c (String.substring 0 (String.length s - String.length rest) s).
Proof.
  intros Hle. unfold consumed. cbn [String.length].
  replace (S (String.length s) - String.length rest)%nat
    with (S (String.length s - String.length rest)) by lia.
  reflexivity.
Qed.

(** The global replacement, one character at a time. *)
Lemma collapse_nil fuel prev : replaceAllFrom fuel whitespaceRun " " prev "" = "".
Proof. destruct fuel; reflexivity. Qed.

Lemma collapse_cons fuel prev c s :
  exists prev',
    replaceAllFrom (S fuel) whitespaceRun " " prev (String c s)
    = if Js.isWhiteSpace c
      then String " " (replaceAllFrom fuel whitespaceRun " " prev' (Js.trimStart s))
      else String c (replaceAllFrom fuel whitespaceRun " " (Some c) s).
Proof.
  cbn [replaceAllFrom]. rewrite matchHere_whitespaceRun.
  destruct (Js.isWhiteSpace c); [|exists None; reflexivity].
  rewrite consumed_cons by apply trimStart_length.
  eexists. reflexivity.
Qed.

Lemma trimStart_noTrailingSpace s : noTrailingSpace s -> noTrailingSpace (Js.trimStart s).
Proof.
  induction s as [|c s IH]; [intros _; exact I|].
  cbn [Js.trimStart]. destruct (Js.isWhiteSpace c); [|tauto].
  intros [_ H]. apply IH, H.
Qed.

Lemma trimEnd_noTrailingSpace s : noTrailingSpace (Js.trimEnd s).
Proof.
  induction s as [|c s IH]; [exact I|].
  rewrite trimEnd_cons. destruct (Js.trimEnd s) as [|d t] eqn:Ht.
  - destruct (Js.isWhiteSpace c) eqn:Hc; [exact I|].
    cbn [noTrailingSpace]. split; [congruence | exact I].
  - cbn [noTrailingSpace] in *. split; [|exact IH].
    intros _. cbn [Js.trimStart].
    destruct (Js.isWhiteSpace d) eqn:Hd; [apply IH; reflexivity | discriminate].
Qed.

Lemma trimStart_startsWithInk s : Js.trimStart s <> "" -> startsWithInk (Js.trimStart s).
Proof.
  intros Hne. pose proof (trimStart_startsTrimmed s) as H.
  destruct (Js.trimStart s); [congruence | exact H].
Qed.

Lemma collapse_singleSpaced fuel : forall prev s,
  (String.length s < fuel)%nat ->
  noTrailingSpace s ->
  singleSpaced (replaceAllFrom fuel whitespaceRun " " prev s)
  /\ (startsWithInk s -> startsWithInk (replaceAllFrom fuel whitespaceRun " " prev s)).
Proof.
  induction fuel as [|fuel IH]; intros prev s Hlen Hs; [lia|].
  destruct s as [|c s]; [split; [exact I | intros []]|].
  cbn [String.length noTrailingSpace] in *. destruct Hs as [Hc Hs].
  destruct (collapse_cons fuel prev c s) as [prev' ->].
  destruct (Js.isWhiteSpace c) eqn:Hws.
  - pose proof (trimStart_length s) as Hl.
    destruct (IH prev' (Js.trimStart s)) as [Hsingle Hink];
      [lia | apply trimStart_noTrailingSpace, Hs|].
    split; [|cbn [startsWithInk]; congruence].
    cbn [singleSpaced]. split; [|exact Hsingle].
    intros _. split; [reflexivity|].
    apply Hink, trimStart_startsWithInk, Hc. reflexivity.
  - destruct (IH (Some c) s) as [Hsingle _]; [lia | exact Hs|].
    split; [|intros _; exact Hws].
    cbn [singleSpaced]. split; [congruence | exact Hsingle].
Qed.

Lemma singleSpaced_trimEnd s : singleSpaced s -> Js.trimEnd s = s.
Proof.
  induction s as [|c s IH]; [reflexivity|].
  cbn [singleSpaced]. intros [Hc Hs]. rewrite trimEnd_cons, (IH Hs).
  destruct s as [|d t]; [|reflexivity].
  destruct (Js.isWhiteSpace c); [|reflexivity].
  destruct Hc as [_ []]. reflexivity.
Qed.

Lemma startsWithInk_trimStart s : startsWithInk s -> Js.trimStart s = s.
Proof.
  destruct s as [|c s]; [intros []|]. cbn [startsWithInk Js.trimStart].
  intros ->. reflexivity.
Qed.

Lemma collapse_fixed fuel : forall prev s,
  (String.length s < fuel)%nat ->
  singleSpaced s ->
  replaceAllFrom fuel whitespaceRun " " prev s = s.
Proof.
  induction fuel as [|fuel IH]; intros prev s Hlen Hs; [lia|].
  destruct s as [|c s]; [reflexivity|].
  cbn [String.length singleSpaced] in *. destruct Hs as [Hc Hs].
  destruct (collapse_cons fuel prev c s) as [prev' ->].
  destruct (Js.isWhiteSpace c) eqn:Hws.
  - destruct (Hc eq_refl) as [-> Hink].
    rewrite (startsWithInk_trimStart s Hink).
    rewrite IH by (first [lia | exact Hs]). reflexivity.
  - rewrite IH by (first [lia | exact Hs]). reflexivity.
Qed.

(** The result of [normalizeCollectionName] is empty or starts with a
    character that is not white space, and is single-spaced. *)
Lemma normalizeCollectionName_shape value :
  let name := normalizeCollectionName value in
  (name = "" \/ startsWithInk name) /\ singleSpaced name.
Proof.
  unfold normalizeCollectionName, replaceAll, Js.trim.
  set (t := Js.trimEnd (Js.trimStart value)).
  assert (Hno : noTrailingSpace t) by apply trimEnd_noTrailingSpace.
  assert (Hst : startsTrimmed t)
    by apply trimEnd_startsTrimmed, trimStart_startsTrimmed.
  destruct (collapse_singleSpaced (S (String.length t)) None t) as [Hsingle Hink];
    [lia | exact Hno|].
  split; [|exact Hsingle].
  destruct t as [|c t']; [left; reflexivity|].
  right. apply Hink. exact Hst.
Qed.

Lemma normalized_is_fixed name :
  (name = "" \/ startsWithInk name) -> singleSpaced name ->
  normalizeCollectionName name = name.
Proof.
  intros Hstart Hsingle. unfold normalizeCollectionName, replaceAll, Js.trim.
  assert (Ht : Js.trimStart name = name).
  { destruct Hstart as [-> | Hink]; [reflexivity | apply startsWithInk_trimStart, Hink]. }
  rewrite Ht, (singleSpaced_trimEnd name Hsingle).
  apply collapse_fixed; [lia | exact Hsingle].
Qed.

(** X23. Normalizing a collection name twice gives what normalizing it once
    gives. *)
Theorem normalizeCollectionName_idempotent value :
  normalizeCollectionName (normalizeCollectionName value)
  = normalizeCollectionName value.
Proof.
  destruct (normalizeCollectionName_shape value) as [Hstart Hsingle].
  apply normalized_is_fixed; assumption.
Qed.

Lemma singleSpaced_get s : singleSpaced s ->
  forall i c,
    String.get i s = Some c ->
    Js.isWhiteSpace c = true ->
    c = " "%char
    /\ exists d, String.get (S i) s = Some d /\ Js.isWhiteSpace d = false.
Proof.
  induction s as [|a s IH]; intros Hs i c Hget Hc; [discriminate Hget|].
  cbn [singleSpaced] in Hs. destruct Hs as [Ha Hs].
  destruct i as [|i].
  - cbn [String.get] in Hget. injection Hget as ->.
    destruct (Ha Hc) as [-> Hink]. split; [reflexivity|].
    destruct s as [|d s']; [destruct Hink|]. exists d. split; [reflexivity | exact Hink].
  - cbn [String.get] in Hget. destruct (IH Hs i c Hget Hc) as [-> (d & Hd & Hwd)].
    split; [reflexivity|]. exists d. split; [exact Hd | exact Hwd].
Qed.

(** X24. A normalized collection name has no white space at either end,
    and each white space character in it is a single space followed by a
    character that is not white space. *)
Theorem normalizeCollectionName_is_tidy value :
  let name := normalizeCollectionName value in
  Js.trim name = name
  /\ (forall c rest, name = String c rest -> Js.isWhiteSpace c = false)
  /\ (forall i c,
        String.get i name = Some c ->
        Js.isWhiteSpace c = true ->
        c = " "%char
        /\ exists d, String.get (S i) name = Some d /\ Js.isWhiteSpace d = false).
Proof.
  intros name. destruct (normalizeCollectionName_shape value) as [Hstart Hsingle].
  fold name in Hstart, Hsingle. split; [|split].
  - unfold Js.trim.
    replace (Js.trimStart name) with name
      by (destruct Hstart as [-> | Hink];
          [reflexivity | symmetry; apply startsWithInk_trimStart, Hink]).
    apply singleSpaced_trimEnd, Hsingle.
  - intros c rest E. rewrite E in Hstart.
    destruct Hstart as [Hempty | Hink]; [discriminate Hempty | exact Hink].
  - apply singleSpaced_get, Hsingle.
Qed.

(** X25. A collection name normalizes to the empty string exactly when it
    consists of white space only. *)
Theorem normalizeCollectionName_empty_iff value :
  normalizeCollectionName value = "" <-> Js.trim value = "".
Proof.
  unfold normalizeCollectionName, replaceAll. split.
  - destruct (Js.trim value) as [|c t]; [reflexivity|].
    destruct (collapse_cons (String.length (String c t)) None c t) as [prev' ->].
    destruct (Js.isWhiteSpace c); discriminate.
  - intros ->. reflexivity.
Qed.

(** ** Printing and parsing integers *)

Lemma allChars_impl (p q : ascii -> bool) s :
  (forall c, p c = true -> q c = true) -> allChars p s -> allChars q s.
Proof.
  intros Hpq. induction s as [|c s IH]; [trivial|].
  cbn [allChars]. intros [Hc Hs]. split; [apply Hpq, Hc | apply IH, Hs].
Qed.

Lemma pretty_N_char_digit d :
  (d < 10)%N ->
  Js.isDigit (pretty_N_char d) = true
  /\ Num.digitValue (pretty_N_char d) = Some (Z.of_N d).
Proof.
  intros Hd.
  assert (d = 0 \/ d = 1 \/ d = 2 \/ d = 3 \/ d = 4 \/ d = 5 \/ d = 6 \/ d = 7
          \/ d = 8 \/ d = 9)%N as H by lia.
  repeat (destruct H as [-> | H]; [split; reflexivity|]). subst d. split; reflexivity.
Qed.

Lemma pretty_N_go_digits x : forall s,
  allChars Js.isDigit s -> allChars Js.isDigit (pretty_N_go x s).
Proof.
  induction (N.lt_wf_0 x) as [x _ IH]. intros s Hs.
  destruct (N.eq_dec x 0%N) as [-> | Hx]; [rewrite pretty_N_go_0; exact Hs|].
  rewrite pretty_N_go_step by lia. apply IH; [apply N.div_lt; lia|].
  split; [apply pretty_N_char_digit, N.mod_lt; lia | exact Hs].
Qed.

Lemma pretty_N_go_head x : forall s,
  (0 < x)%N ->
  exists d rest, (d < 10)%N /\ pretty_N_go x s = String (pretty_N_char d) rest.
Proof.
  induction (N.lt_wf_0 x) as [x _ IH]. intros s Hx.
  rewrite pretty_N_go_step by exact Hx.
  destruct (N.eq_dec (x / 10)%N 0%N) as [E | E].
  - rewrite E, pretty_N_go_0. exists (x mod 10)%N, s.
    split; [apply N.mod_lt; lia | reflexivity].
  - apply IH; [apply N.div_lt; lia | apply N.neq_0_lt_0, E].
Qed.

(** Reading back the digits that [pretty] writes. *)
Lemma digits_pretty_N_go x : forall s acc,
  (0 < x)%N ->
  exists k,
    0 <= k
    /\ Num.digits 10 (pretty_N_go x s) acc
       = Num.digits 10 s (Some (default 0 acc * 10 ^ k + Z.of_N x)).
Proof.
  induction (N.lt_wf_0 x) as [x _ IH]. intros s acc Hx.
  rewrite pretty_N_go_step by exact Hx.
  assert (Hmod : (x mod 10 < 10)%N) by (apply N.mod_lt; lia).
  destruct (pretty_N_char_digit _ Hmod) as [_ Hval].
  assert (Hsplit : Z.of_N x = Z.of_N (x / 10) * 10 + Z.of_N (x mod 10)).
  { rewrite (N.div_mod x 10) at 1 by lia. lia. }
  destruct (N.eq_dec (x / 10)%N 0%N) as [E | E].
  - rewrite E, pretty_N_go_0. exists 1. split; [lia|]. cbn [Num.digits]. rewrite Hval.
    destruct (Z.ltb_spec (Z.of_N (x mod 10)) 10); [|lia].
    apply (f_equal (Num.digits 10 s)), f_equal.
    rewrite Hsplit, E. set (a := default 0 acc). lia.
  - destruct (IH (x / 10)%N ltac:(apply N.div_lt; lia)
                (String (pretty_N_char (x mod 10)) s) acc
                ltac:(apply N.neq_0_lt_0, E)) as (k & Hk0 & Hk).
    exists (k + 1). split; [lia|]. rewrite Hk. cbn [Num.digits]. rewrite Hval.
    destruct (Z.ltb_spec (Z.of_N (x mod 10)) 10); [|lia].
    apply (f_equal (Num.digits 10 s)), f_equal.
    set (a := default 0 acc).
    change (default 0 (Some (a * 10 ^ k + Z.of_N (x / 10))))
      with (a * 10 ^ k + Z.of_N (x / 10)).
    rewrite Z.pow_add_r by lia. rewrite Hsplit. lia.
Qed.

Lemma decimalChar_facts c :
  decimalChar c = true -> Js.isWhiteSpace c = false /\ Js.isChar "x" c = false.
Proof.
  unfold decimalChar, Js.isDigit, Js.inRange, Js.isWhiteSpace, Js.isChar.
  change (Js.code "0") with 48%N. change (Js.code "9") with 57%N.
  change (Js.code "-") with 45%N. change (Js.code "x") with 120%N.
  generalize (Js.code c). intros n H.
  assert (Hn : (48 <= n <= 57)%N \/ n = 45%N).
  { apply orb_true_iff in H as [H | H].
    - apply andb_true_iff in H as [H1 H2]. apply N.leb_le in H1, H2. lia.
    - apply N.eqb_eq in H. lia. }
  split.
  - destruct (N.leb_spec 9 n), (N.leb_spec n 13), (N.eqb_spec n 32), (N.eqb_spec n 160);
      cbn [andb orb]; first [reflexivity | lia].
  - destruct (N.eqb_spec 120 n); [lia | reflexivity].
Qed.

Lemma trimEnd_ink s :
  allChars (fun c => negb (Js.isWhiteSpace c)) s -> Js.trimEnd s = s.
Proof.
  induction s as [|c s IH]; [reflexivity|].
  cbn [allChars]. intros [Hc Hs]. rewrite trimEnd_cons, (IH Hs).
  apply negb_true_iff in Hc. rewrite Hc. destruct s; reflexivity.
Qed.

Lemma trim_decimal s : allChars decimalChar s -> Js.trim s = s.
Proof.
  intros Hs. unfold Js.trim.
  assert (Hink : allChars (fun c => negb (Js.isWhiteSpace c)) s).
  { revert Hs. apply allChars_impl. intros c Hc.
    apply decimalChar_facts in Hc as [-> _]. reflexivity. }
  replace (Js.trimStart s) with s; [apply trimEnd_ink, Hink|].
  destruct s as [|c s]; [reflexivity|]. cbn [Js.trimStart].
  destruct Hink as [Hc _]. apply negb_true_iff in Hc. rewrite Hc. reflexivity.
Qed.

Lemma search_anchored r c s : search (Seq Bol r) (Some c) s = None.
Proof.
  revert c. induction s as [|d s IH]; intros c; [reflexivity|].
  cbn [search]. unfold matchHere. cbn [run]. rewrite IH. reflexivity.
Qed.

Lemma run_Seq {R : Type} r1 r2 prev s caps (k : option ascii -> string -> captures -> option R) :
  run (Seq r1 r2) prev s caps k
  = run r1 prev s caps (fun prev' s' caps' => run r2 prev' s' caps' k).
Proof. reflexivity. Qed.

Lemma run_Alt {R : Type} r1 r2 prev s caps (k : option ascii -> string -> captures -> option R) :
  run (Alt r1 r2) prev s caps k
  = match run r1 prev s caps k with
    | Some x => Some x
    | None => run r2 prev s caps k
    end.
Proof. reflexivity. Qed.

Lemma run_Chr {R : Type} p prev s caps (k : option ascii -> string -> captures -> option R) :
  run (Chr p) prev s caps k
  = match s with
    | String c s' => if p c then k (Some c) s' caps else None
    | EmptyString => None
    end.
Proof. reflexivity. Qed.

Lemma run_Bol {R : Type} s caps (k : option ascii -> string -> captures -> option R) :
  run Bol None s caps k = k None s caps.
Proof. reflexivity. Qed.

Lemma run_Eps {R : Type} prev s caps (k : option ascii -> string -> captures -> option R) :
  run Eps prev s caps k = k prev s caps.
Proof. reflexivity. Qed.

Lemma literal_0x_fails {R : Type} r prev s caps (k : option ascii -> string -> captures -> option R) :
  allChars decimalChar s -> run (Seq (Lit "0x") r) prev s caps k = None.
Proof.
  intros Hs. cbn [run Lit].
  destruct s as [|c1 s]; [reflexivity|]. destruct (Js.isChar "0" c1); [|reflexivity].
  destruct s as [|c2 s]; [reflexivity|].
  destruct Hs as [_ [Hc2 _]]. apply decimalChar_facts in Hc2 as [_ Hx].
  rewrite Hx. reflexivity.
Qed.

Lemma hexLiteral_rejects_decimal s :
  allChars decimalChar s -> test hexLiteral s = false.
Proof.
  intros Hs. unfold test.
  assert (Hhere : matchHere hexLiteral None s = None).
  { unfold matchHere, hexLiteral, Opt.
    rewrite run_Seq, run_Bol, run_Seq, run_Alt, run_Chr, run_Eps.
    destruct s as [|c s'].
    - rewrite literal_0x_fails by exact I. reflexivity.
    - destruct (Js.isChar "-" c).
      + rewrite literal_0x_fails by apply Hs.
        rewrite literal_0x_fails by exact Hs. reflexivity.
      + rewrite literal_0x_fails by exact Hs. reflexivity. }
  destruct s as [|c s']; cbn [search]; rewrite Hhere; [reflexivity|].
  unfold hexLiteral. rewrite search_anchored. reflexivity.
Qed.

Lemma roundToDouble_exact n : Z.abs n < 2 ^ 53 -> Num.roundToDouble n = Num.Finite n 0.
Proof.
  intros Hn. unfold Num.roundToDouble.
  destruct (Z.ltb_spec (Z.abs n) (2 ^ 53)); [reflexivity | lia].
Qed.

Lemma parseInt_unsigned s c rest :
  s = String c rest -> Js.isDigit c = true ->
  Num.parseInt s 10
  = match Num.digits 10 s None with
    | None => Num.NaN
    | Some mathInt => Num.roundToDouble (1 * mathInt)
    end.
Proof.
  intros -> Hc. unfold Num.parseInt. cbn [Js.trimStart].
  assert (Hd : decimalChar c = true) by (unfold decimalChar; rewrite Hc; reflexivity).
  apply decimalChar_facts in Hd as [-> _].
  destruct c as [b0 b1 b2 b3 b4 b5 b6 b7].
  destruct b0, b1, b2, b3, b4, b5, b6, b7; try discriminate Hc; reflexivity.
Qed.

(** X26. Printing an integer of the 32-bit signed range in decimal, as is
    done for a memory key or a printed register, and parsing the text back
    as an immediate or an override key gives the integer again. *)
Theorem parseMipsNumber_of_String z :
  -2147483648 <= z <= 2147483647 ->
  parseMipsNumber (String_ z) = Some z.
Proof.
  intros Hz. destruct z as [|p|p].
  - vm_compute. reflexivity.
  - assert (Hx : (0 < N.pos p)%N) by lia.
    assert (Hs : String_ (Z.pos p) = pretty_N_go (N.pos p) "") by reflexivity.
    assert (Hall : allChars Js.isDigit (String_ (Z.pos p)))
      by (rewrite Hs; apply pretty_N_go_digits; exact I).
    destruct (pretty_N_go_head (N.pos p) "" Hx) as (d & rest & Hd & Hhead).
    destruct (digits_pretty_N_go (N.pos p) "" None Hx) as (k & _ & Hk).
    cbn [Num.digits default from_option id] in Hk.
    unfold parseMipsNumber.
    rewrite trim_decimal
      by (revert Hall; apply allChars_impl; intros c Hc; unfold decimalChar;
          rewrite Hc; reflexivity).
    rewrite hexLiteral_rejects_decimal
      by (revert Hall; apply allChars_impl; intros c Hc; unfold decimalChar;
          rewrite Hc; reflexivity).
    rewrite (parseInt_unsigned (String_ (Z.pos p)) (pretty_N_char d) rest)
      by (first [ rewrite Hs; exact Hhead | apply pretty_N_char_digit, Hd ]).
    rewrite Hs, Hk, Hhead. cbn [Js.isEmpty].
    change (Z.of_N (N.pos p)) with (Z.pos p).
    rewrite Z.mul_0_l, Z.add_0_l, Z.mul_1_l.
    rewrite roundToDouble_exact by lia. cbn [Num.isFinite Num.toInt32Number].
    f_equal. unfold Num.truncate. change (0 <=? 0) with true. cbv iota.
    rewrite Z.pow_0_r, Z.mul_1_r. apply toInt32_id. exact Hz.
  - assert (Hx : (0 < N.pos p)%N) by lia.
    assert (Hs : String_ (Z.neg p) = String "-" (pretty_N_go (N.pos p) "")) by reflexivity.
    assert (Hdigits : allChars Js.isDigit (pretty_N_go (N.pos p) ""))
      by (apply pretty_N_go_digits; exact I).
    assert (Hall : allChars decimalChar (String_ (Z.neg p))).
    { rewrite Hs. split; [reflexivity|]. revert Hdigits. apply allChars_impl.
      intros c Hc. unfold decimalChar. rewrite Hc. reflexivity. }
    destruct (digits_pretty_N_go (N.pos p) "" None Hx) as (k & _ & Hk).
    cbn [Num.digits default from_option id] in Hk.
    unfold parseMipsNumber.
    rewrite trim_decimal by exact Hall.
    rewrite hexLiteral_rejects_decimal by exact Hall.
    rewrite Hs. cbn [Js.isEmpty]. unfold Num.parseInt.
    change (Js.trimStart (String "-" (pretty_N_go (N.pos p) "")))
      with (String "-" (pretty_N_go (N.pos p) "")).
    cbv iota beta. change (10 =? 16) with false. cbv iota. rewrite Hk.
    change (Z.of_N (N.pos p)) with (Z.pos p).
    rewrite Z.mul_0_l, Z.add_0_l.
    replace (-1 * Z.pos p) with (Z.neg p) by lia.
    rewrite roundToDouble_exact by lia. cbn [Num.isFinite Num.toInt32Number].
    f_equal. unfold Num.truncate. change (0 <=? 0) with true. cbv iota.
    rewrite Z.pow_0_r, Z.mul_1_r. apply toInt32_id. exact Hz.
Qed.

Lemma parseMipsNumber_of_String_witness :
  parseMipsNumber (String_ (-2147483648)) = Some (-2147483648).
Proof. apply parseMipsNumber_of_String. lia. Defined.
